(** * Greedy approximation via energy increment: a Rocq model

    Shallow embedding of [energy_increment.ipynb].  Python's [float] and
    numpy's [float64] are idealised as the real numbers [R] (no rounding);
    the two special values the program really produces, [np.inf] and [nan],
    are kept apart in the type [fl].  Python exceptions are the [Raise]
    branch of the result type [res], and the value [None] of a function
    that ends without a [return] is the [None] of an [option].

    Arrays are lists.  Where numpy combines two arrays entry by entry the
    two are taken to have one length (a rule has one weight for each
    node, the three lists of the basis grow together, all vectors of a
    run have the dimension of the run): numpy's shape errors, like
    overflow, are outside the model.  So the model follows the code

    - for [np_mul], on two arrays of one length (numpy raises or
      broadcasts on others);
    - for [parallelized_evaluation], on batches whose points all have one
      length, which is what [sample_spherical] and [spherical_quadrature]
      produce ([pd.DataFrame] pads the short rows of other batches with
      [nan]);
    - for [new_polynomial], on vectors of two coordinates and more: it is
      the instance that [__init__] builds when it builds one, and
      [custom_polynomial_init] is [__init__] with its errors. *)

From Equations Require Import Equations.
From Stdlib Require Import String.
From Stdlib Require Import Reals Lra Lia ZArith Bool Arith List.
Import ListNotations.

Open Scope R_scope.

(** ** Exceptions and results *)

Inductive exn : Type :=
| ValueError (msg : string)
| TypeError (msg : string)
| IndexError (msg : string)
| OverflowError (msg : string)
| ZeroDivisionError
| RecursionError
| LinAlgError
| PyException (msg : string).

Inductive res (A : Type) : Type :=
| Ok (a : A)
| Raise (e : exn).

Arguments Ok {A} a.
Arguments Raise {A} e.

Definition bind {A B : Type} (m : res A) (k : A -> res B) : res B :=
  match m with
  | Ok a => k a
  | Raise e => Raise e
  end.

Notation "x <- m ;; k" := (bind m (fun x => k))
  (at level 61, m at next level, right associativity).
Notation "' p <- m ;; k" := (bind m (fun x => let p := x in k))
  (at level 61, p pattern, m at next level, right associativity).

(** ** Volume of the n-dimensional ball, surface area of the n-sphere *)

Equations? ball_volume (n : Z) : res R by wf (Z.to_nat n) lt :=
  ball_volume n with Z.eq_dec n 1 := {
    | left _ => Ok 2
    | right _ with Z_gt_dec n 1 := {
      | left _ => V <- ball_volume (n - 2) ;; Ok ((2 * PI / IZR n) * V)
      | right _ with Z_lt_dec n 0 := {
        | left _ => Raise (ValueError "The dimension n cannot be lower than 0")
        | right _ => Ok 1 } } }.
Proof. lia. Qed.

Definition sphere_surface_area (n : Z) : res R :=
  V <- ball_volume (n + 1) ;; Ok (IZR (n + 1) * V).

(** ** Floating-point values that may be infinite or not-a-number *)

Inductive fl : Type :=
| Fin (x : R)
| PInf
| NInf
| NaN.

Definition Rleb (x y : R) : bool := if Rle_dec x y then true else false.
Definition Rltb (x y : R) : bool := if Rlt_dec x y then true else false.
Definition Reqb (x y : R) : bool := if Req_dec_T x y then true else false.

(** [a <= b] on floats: every comparison with [nan] is false. *)
Definition fl_leb (a b : fl) : bool :=
  match a, b with
  | NaN, _ | _, NaN => false
  | NInf, _ => true
  | _, PInf => true
  | Fin x, Fin y => Rleb x y
  | _, _ => false
  end.

Definition fl_geb (a b : fl) : bool := fl_leb b a.

Definition fl_neg (a : fl) : fl :=
  match a with
  | Fin x => Fin (- x)
  | PInf => NInf
  | NInf => PInf
  | NaN => NaN
  end.

Definition fl_sub (a b : fl) : fl :=
  match a, b with
  | NaN, _ | _, NaN => NaN
  | Fin x, Fin y => Fin (x - y)
  | PInf, PInf | NInf, NInf => NaN
  | PInf, _ | _, NInf => PInf
  | NInf, _ | _, PInf => NInf
  end.

Definition fl_abs (a : fl) : fl :=
  match a with
  | Fin x => Fin (Rabs x)
  | PInf | NInf => PInf
  | NaN => NaN
  end.

(** [a * x] for a float [a] and a finite [x]. *)
Definition fl_scale (a : fl) (x : R) : fl :=
  match a with
  | Fin y => Fin (y * x)
  | NaN => NaN
  | PInf => if Rltb 0 x then PInf else if Rltb x 0 then NInf else NaN
  | NInf => if Rltb 0 x then NInf else if Rltb x 0 then PInf else NaN
  end.

(** [np.log]. *)
Definition np_log (x : R) : fl :=
  if Rltb 0 x then Fin (ln x) else if Reqb x 0 then NInf else NaN.

(** [x ** y] on finite floats, as numpy computes it: a negative base with
    an exponent that is not an integer gives [nan]. *)
Definition float_power (x y : R) : fl :=
  if Rltb 0 x then Fin (Rpower x y)
  else if Reqb x 0 then
    (if Rltb 0 y then Fin 0 else if Reqb y 0 then Fin 1 else PInf)
  else
    (if Reqb (IZR (Int_part y)) y then Fin (powerRZ x (Int_part y)) else NaN).

(** [x ** y] where base and exponent are both known to be non-negative
    (every such call site in the program has a non-negative integer base
    and a non-negative exponent), so that the result is finite. *)
Definition pow_nonneg (x y : R) : R :=
  if Rltb 0 x then Rpower x y else if Rltb 0 y then 0 else 1.

(** [math.ceil] on a finite float. *)
Definition Zceil (x : R) : Z := (- Int_part (- x))%Z.

Definition math_ceil (a : fl) : res Z :=
  match a with
  | Fin x => Ok (Zceil x)
  | NaN => Raise (ValueError "cannot convert float NaN to integer")
  | PInf | NInf =>
      Raise (OverflowError "cannot convert float infinity to integer")
  end.

(** ** Vectors and numpy helpers *)

Definition vec : Type := list R.

Fixpoint dot (u v : vec) : R :=
  match u, v with
  | x :: u', y :: v' => x * y + dot u' v'
  | _, _ => 0
  end.

(** [np.sum] of a one-dimensional array. *)
Definition np_sum (l : list R) : R := fold_right Rplus 0 l.

(** Element-wise product of two arrays of one length. *)
Definition np_mul (a b : list R) : list R :=
  map (fun p => fst p * snd p) (combine a b).

(** [l[i]]. *)
Definition py_index {A : Type} (l : list A) (i : nat) : res A :=
  match nth_error l i with
  | Some a => Ok a
  | None => Raise (IndexError "list index out of range")
  end.

(** [1 / c] for a Python number [c]. *)
Definition py_inv (c : R) : res R :=
  if Reqb c 0 then Raise ZeroDivisionError else Ok (1 / c).

Fixpoint mapM {A B : Type} (g : A -> res B) (l : list A) : res (list B) :=
  match l with
  | [] => Ok []
  | a :: l' => b <- g a ;; bs <- mapM g l' ;; Ok (b :: bs)
  end.

(** ** Rank one symmetric tensors: the class [custom_polynomial] *)

(** The sympy expression held in [self.expr]: a linear combination of
    powers of linear forms in the variables x1 .. xn. *)
Inductive sym_expr : Type :=
| SPower (v : vec) (d : nat)
| SMul (c : R) (e : sym_expr)
| SAdd (e1 e2 : sym_expr)
| SSub (e1 e2 : sym_expr).

Fixpoint subs (e : sym_expr) (w : vec) : R :=
  match e with
  | SPower v d => (dot w v) ^ d
  | SMul c e' => c * subs e' w
  | SAdd e1 e2 => subs e1 w + subs e2 w
  | SSub e1 e2 => subs e1 w - subs e2 w
  end.

(** [lambdify(list(variables), expr)]: the numeric evaluator of [expr]. *)
Definition lambdify (e : sym_expr) : vec -> R := fun w => subs e w.

(** The attributes of an instance; [variables] are the symbols
    x1 .. x[num_var] and carry no more information than [num_var]. *)
Record custom_polynomial : Type := mk_polynomial {
  num_var : nat;
  expr : sym_expr;
  degree : nat;
  f : vec -> R
}.

(** The instance that [custom_polynomial(const, v, d)] builds. *)
Definition new_polynomial (const : R) (v : vec) (d : nat) : custom_polynomial :=
  let e := SMul const (SPower v d) in
  {| num_var := length v; expr := e; degree := d; f := lambdify e |}.

(** [custom_polynomial(const, v, d)] with the errors of [__init__]: for
    an empty [v] the call of [symbols] raises [ValueError]; for one
    coordinate [symbols] returns a single symbol, not a tuple, and
    [list] of it raises [TypeError]. *)
Definition custom_polynomial_init (const : R) (v : vec) (d : nat)
  : res custom_polynomial :=
  match v with
  | [] => Raise (ValueError "no symbols given")
  | [_] => Raise (TypeError "'Symbol' object is not iterable")
  | _ => Ok (new_polynomial const v d)
  end.

Definition evaluate (self : custom_polynomial) (w : vec) : res R :=
  if negb (num_var self =? length w)%nat
  then Raise (PyException "This polynomial cannot be evaluated")
  else Ok (f self w).

Definition evaluate_pol (poly : custom_polynomial) (v : vec) : res R :=
  evaluate poly v.

(** The batch evaluation keeps the order of the points; the number of
    partitions only decides how the work is scheduled.  The points of a
    batch have one length (the rows of the data frame have). *)
Definition parallelized_evaluation (poly : custom_polynomial) (V : list vec)
  : res (list R) :=
  mapM (evaluate_pol poly) V.

(** The method [custom_polynomial.Lr_norm]. *)
Definition poly_Lr_norm (self : custom_polynomial) (X : list vec)
    (WX : list R) (r : nat) : res fl :=
  c <- sphere_surface_area (Z.of_nat (num_var self) - 1) ;;
  evaluations <- parallelized_evaluation self X ;;
  let evaluations := map (fun e => e ^ r) evaluations in
  inv_c <- py_inv c ;;
  let s := inv_c * np_sum (np_mul WX evaluations) in
  inv_r <- py_inv (INR r) ;;
  Ok (float_power s inv_r).

(** The function [Lr_norm] for a general symmetric tensor. *)
Definition Lr_norm (X : list vec) (WX : list R) (n : Z) (r : nat)
    (poly : custom_polynomial) : res fl :=
  c <- sphere_surface_area (n - 1) ;;
  evaluations <- parallelized_evaluation poly X ;;
  let evaluations := map (fun e => e ^ r) evaluations in
  inv_c <- py_inv c ;;
  let s := inv_c * np_sum (np_mul WX evaluations) in
  inv_r <- py_inv (INR r) ;;
  Ok (float_power s inv_r).

(** Arithmetic on polynomials: a shallow copy of the first operand whose
    [expr] and [f] attributes are then rebound. *)
Definition multiply_constant (poly : custom_polynomial) (constant : R)
  : custom_polynomial :=
  let new_poly := poly in
  let new_expr := SMul constant (expr new_poly) in
  {| num_var := num_var new_poly; expr := new_expr;
     degree := degree new_poly; f := lambdify new_expr |}.

Definition add_polynomials (poly1 poly2 : custom_polynomial)
  : custom_polynomial :=
  let new_poly := poly1 in
  let new_expr := SAdd (expr new_poly) (expr poly2) in
  {| num_var := num_var new_poly; expr := new_expr;
     degree := degree new_poly; f := lambdify new_expr |}.

Definition sustract_polynomials (poly1 poly2 : custom_polynomial)
  : custom_polynomial :=
  let new_poly := poly1 in
  let new_expr := SSub (expr new_poly) (expr poly2) in
  {| num_var := num_var new_poly; expr := new_expr;
     degree := degree new_poly; f := lambdify new_expr |}.

(** ** The object store: polynomials as Python objects

    A Python variable holds a reference.  The store maps an address (the
    position in the list) to the attributes of the instance living there;
    [copy.copy] allocates a new instance and attribute assignment rebinds
    one attribute of one instance. *)

Definition addr : Type := nat.
Definition store : Type := list custom_polynomial.

Definition deref (h : store) (a : addr) : option custom_polynomial :=
  nth_error h a.

Fixpoint update (h : store) (a : addr) (o : custom_polynomial) : store :=
  match h, a with
  | [], _ => []
  | _ :: h', O => o :: h'
  | x :: h', S a' => x :: update h' a' o
  end.

Definition copy_copy (h : store) (a : addr) : option (store * addr) :=
  match deref h a with
  | Some o => Some (h ++ [o], length h)
  | None => None
  end.

Definition set_expr (h : store) (a : addr) (e : sym_expr) : option store :=
  match deref h a with
  | Some o =>
      Some (update h a {| num_var := num_var o; expr := e;
                          degree := degree o; f := f o |})
  | None => None
  end.

Definition set_f (h : store) (a : addr) (g : vec -> R) : option store :=
  match deref h a with
  | Some o =>
      Some (update h a {| num_var := num_var o; expr := expr o;
                          degree := degree o; f := g |})
  | None => None
  end.

Definition obind {A B : Type} (m : option A) (k : A -> option B) : option B :=
  match m with
  | Some a => k a
  | None => None
  end.

(** [new_poly.f = lambdify(list(new_poly.variables), new_poly.expr)]. *)
Definition relambdify (h : store) (a : addr) : option store :=
  obind (deref h a) (fun o => set_f h a (lambdify (expr o))).

Definition obj_multiply_constant (h : store) (poly : addr) (constant : R)
  : option (store * addr) :=
  obind (copy_copy h poly) (fun '(h1, new_poly) =>
  obind (deref h1 new_poly) (fun o =>
  obind (set_expr h1 new_poly (SMul constant (expr o))) (fun h2 =>
  obind (relambdify h2 new_poly) (fun h3 =>
  Some (h3, new_poly))))).

Definition obj_add_polynomials (h : store) (poly1 poly2 : addr)
  : option (store * addr) :=
  obind (copy_copy h poly1) (fun '(h1, new_poly) =>
  obind (deref h1 new_poly) (fun o =>
  obind (deref h1 poly2) (fun o2 =>
  obind (set_expr h1 new_poly (SAdd (expr o) (expr o2))) (fun h2 =>
  obind (relambdify h2 new_poly) (fun h3 =>
  Some (h3, new_poly)))))).

Definition obj_sustract_polynomials (h : store) (poly1 poly2 : addr)
  : option (store * addr) :=
  obind (copy_copy h poly1) (fun '(h1, new_poly) =>
  obind (deref h1 new_poly) (fun o =>
  obind (deref h1 poly2) (fun o2 =>
  obind (set_expr h1 new_poly (SSub (expr o) (expr o2))) (fun h2 =>
  obind (relambdify h2 new_poly) (fun h3 =>
  Some (h3, new_poly)))))).

(** ** Binomial coefficients and the sample size *)

Fixpoint comb (n k : nat) : nat :=
  match n, k with
  | _, O => 1
  | O, S _ => 0
  | S n', S k' => comb n' k' + comb n' (S k')
  end.

(** [math.comb] on Python integers. *)
Definition math_comb (n k : Z) : res nat :=
  if (n <? 0)%Z then Raise (ValueError "n must be a non-negative integer")
  else if (k <? 0)%Z then Raise (ValueError "k must be a non-negative integer")
  else Ok (comb (Z.to_nat n) (Z.to_nat k)).

Definition sample_size (n : Z) (deg r : nat) (accu : R) : res Z :=
  let C := 2%nat in
  let t := fl_neg (np_log (1 - accu)) in
  let a := pow_nonneg (INR (C * r)) (INR deg / 2) in
  c <- math_comb (Z.of_nat (r * deg) + n - 1) (Z.of_nat (r * deg)) ;;
  e <- py_inv (INR (2 * r)) ;;
  let b := pow_nonneg (INR c) e in
  let alpha := Rmin a b in
  math_ceil (fl_scale t (alpha ^ (2 * r))).

(** ** Quadrature, sampling and the greedy loop

    Four functions of scipy and numpy are taken as they are:
    [scipy.special.roots_jacobi], [numpy.random.randn] (the argument [k]
    of [randn] counts the calls made so far, so that every call gets a
    fresh batch), [numpy.linalg.matrix_rank] and [numpy.linalg.inv]. *)

Section Pipeline.

Variable roots_jacobi : nat -> R -> R -> res (list R * list R).
Variable randn : nat -> nat -> nat -> list vec.
Variable matrix_rank : list (list R) -> nat.
Variable linalg_inv : list (list R) -> res (list (list R)).

(** *** Spherical quadrature *)

Definition custom_flatten (x : R * vec) : vec :=
  let t1 := fst x in
  let t2 := map (fun y => sqrt (1 - fst x ^ 2) * y) (snd x) in
  t1 :: t2.

Equations? spherical_quadrature (n : Z) (deg : nat) : res (list vec * list R)
  by wf (Z.to_nat n) lt :=
  spherical_quadrature n deg with Z_gt_dec n 1 := {
    | left _ =>
        '(Y, WY) <- spherical_quadrature (n - 1) deg ;;
        '(Z, WZ) <- roots_jacobi deg (IZR (n - 3) / 2) (IZR (n - 3) / 2) ;;
        Ok (map custom_flatten (list_prod Z Y),
            map (fun c => fst c * snd c) (list_prod WZ WY))
    | right _ with Z_lt_dec n 1 := {
      | left _ => Raise (ValueError "dimension argument must be positive")
      | right _ => Ok ([[1]; [-1]], [1; 1]) } }.
Proof. lia. Qed.

(** *** Sampling on the sphere *)

Definition norm (v : vec) : R := sqrt (np_sum (map (fun x => x * x) v)).

Definition sample_spherical (k : nat) (n size : Z) : res (list vec) :=
  if ((size <? 0) || (n <? 0))%Z
  then Raise (ValueError "negative dimensions are not allowed")
  else
    let V := randn k (Z.to_nat size) (Z.to_nat n) in
    Ok (map (fun v => map (fun x => x / norm v) v) V).

(** *** Finding a vector that captures half of the norm *)

Fixpoint argmax_from (best : R) (besti i : nat) (l : list R) : nat :=
  match l with
  | [] => besti
  | x :: l' =>
      if Rltb best x then argmax_from x i (S i) l'
      else argmax_from best besti (S i) l'
  end.

Definition np_argmax (l : list R) : res nat :=
  match l with
  | [] => Raise (ValueError "attempt to get an argmax of an empty sequence")
  | x :: l' => Ok (argmax_from x 0 1 l')
  end.

Definition np_max (l : list R) : res R :=
  match l with
  | [] => Raise (ValueError "zero-size array to reduction operation maximum")
  | x :: l' => Ok (fold_left Rmax l' x)
  end.

(** The largest entry of a row of [inner_product]; rows are not empty
    where this is used, because [W] is not. *)
Definition row_max (l : list R) : R :=
  match l with
  | [] => 0
  | x :: l' => fold_left Rmax l' x
  end.

Definition is_empty {A : Type} (l : list A) : bool :=
  match l with
  | [] => true
  | _ => false
  end.

Definition quadruple : Type := (vec * R * custom_polynomial * fl)%type.

Inductive attempt : Type :=
| Accept (q : quadruple)
| Reject.

(** The body of [vec_finder] down to the test [0.5*lrnorm <= abs_fv]. *)
Definition vec_finder_attempt (n : Z) (r : nat)
    (poly projection_poly : custom_polynomial) (max_size : Z) (inner : R)
    (W X : list vec) (WX : list R) (k : nat) : res attempt :=
  let deg := degree poly in
  V <- sample_spherical k n max_size ;;
  let V :=
    if negb (is_empty W) then
      filter (fun v => Rltb (row_max (map (fun w => Rabs (dot v w)) W)) inner) V
    else V in
  let poly_diff := sustract_polynomials poly projection_poly in
  lrnorm <- poly_Lr_norm poly_diff X WX r ;;
  fV <- parallelized_evaluation poly_diff V ;;
  let abs_fV := map Rabs fV in
  max_position <- np_argmax abs_fV ;;
  v <- py_index V max_position ;;
  fv <- py_index fV max_position ;;
  abs_fv <- np_max abs_fV ;;
  if fl_leb (fl_scale lrnorm 0.5) (Fin abs_fv)
  then Ok (Accept (v, fv, new_polynomial 1 v deg, lrnorm))
  else Ok Reject.

Definition max_tries : nat := 10.

(** [vec_finder]; the state is the number of batches drawn so far.  The
    result [Ok None] is Python's [None]: the function ended without a
    [return]. *)
Equations? vec_finder (n : Z) (r : nat)
    (poly projection_poly : custom_polynomial) (accu : R) (max_size : Z)
    (inner : R) (W X : list vec) (WX : list R) (tries : nat) (k : nat)
  : res (option quadruple) * nat by wf (max_tries - tries)%nat lt :=
  vec_finder n r poly projection_poly accu max_size inner W X WX tries k
    with vec_finder_attempt n r poly projection_poly max_size inner W X WX k := {
    | Raise e => (Raise e, S k)
    | Ok (Accept q) => (Ok (Some q), S k)
    | Ok Reject with le_dec (S tries) max_tries := {
      | left _ with vec_finder n r poly projection_poly accu max_size inner
                      W X WX (S tries) (S k) := {
        | (Raise e, k') => (Raise e, k')
        | (Ok _, k') => (Ok None, k') }
      | right _ =>
          (Raise (PyException "Maximum number of tries exceeded"), S k) } }.
Proof.
  clear vec_finder. change (max_tries - S tries < max_tries - tries)%nat.
  unfold max_tries in *. lia.
Qed.

(** *** Orthogonal basis and orthogonal projection *)

(** The three Python lists that [add_vector] extends in place. *)
Record basis : Type := mk_basis {
  W : list vec;
  fW : list R;
  Q : list custom_polynomial
}.

(** [np.power(np.matrix(new_W) @ np.matrix(new_W).T, deg)]. *)
Definition gram (new_W : list vec) (deg : nat) : list (list R) :=
  map (fun wi => map (fun wj => dot wi wj ^ deg) new_W) new_W.

(** [inv_matrix * np.matrix(fW).reshape(len(matrix), 1)], flattened. *)
Definition mat_vec (M : list (list R)) (x : list R) : list R :=
  map (fun row => dot row x) M.

Fixpoint foldM {A B : Type} (g : B -> A -> res B) (l : list A) (b : B) : res B :=
  match l with
  | [] => Ok b
  | a :: l' => b' <- g b a ;; foldM g l' b'
  end.

(** The projection polynomial: the sum of [B[i] * Q[i]]. *)
Definition build_projection (Q : list custom_polynomial) (B : list R)
  : res custom_polynomial :=
  q0 <- py_index Q 0 ;;
  b0 <- py_index B 0 ;;
  let projection_poly := multiply_constant q0 b0 in
  if (1 <? length Q)%nat then
    foldM (fun projection_poly i =>
             qi <- py_index Q i ;;
             bi <- py_index B i ;;
             Ok (add_polynomials projection_poly (multiply_constant qi bi)))
          (seq 1 (length Q - 1)) projection_poly
  else Ok projection_poly.

Definition quintuple : Type :=
  (list vec * list R * list custom_polynomial * fl * custom_polynomial)%type.

(** [add_vector].  The state is the content of the lists [W], [fW], [Q]
    that the caller handed over, and the number of batches drawn.  [limit]
    is the number of nested calls the interpreter still allows; the result
    [Ok None] is Python's [None]. *)
Fixpoint add_vector (limit : nat) (b : basis) (X : list vec) (WX : list R)
    (n : Z) (r : nat) (poly projection_poly : custom_polynomial)
    (max_size : Z) (inner accu : R) (k : nat)
  : res (option quintuple) * basis * nat :=
  match limit with
  | O => (Raise RecursionError, b, k)
  | S limit' =>
      match vec_finder n r poly projection_poly accu max_size inner
                       (W b) X WX 1 k with
      | (Raise e, k1) => (Raise e, b, k1)
      | (Ok None, k1) =>
          (Raise (TypeError "cannot unpack non-iterable NoneType object"),
           b, k1)
      | (Ok (Some (v, fv, q, lrnorm)), k1) =>
          let deg := degree poly in
          let new_W := W b ++ [v] in
          let matrix := gram new_W deg in
          let rank := matrix_rank matrix in
          if negb (rank =? length matrix)%nat then
            match add_vector limit' b X WX n r poly projection_poly
                             max_size inner accu k1 with
            | (Raise e, b', k2) => (Raise e, b', k2)
            | (Ok _, b', k2) => (Ok None, b', k2)
            end
          else
            let b1 := {| W := W b ++ [v]; fW := fW b ++ [fv];
                         Q := Q b ++ [q] |} in
            match
              (inv_matrix <- linalg_inv matrix ;;
               let B := mat_vec inv_matrix (fW b1) in
               build_projection (Q b1) B)
            with
            | Raise e => (Raise e, b1, k1)
            | Ok projection_poly' =>
                (Ok (Some (W b1, fW b1, Q b1, lrnorm, projection_poly')),
                 b1, k1)
            end
      end
  end.

(** *** The greedy loop *)

Record loop_state : Type := mk_loop_state {
  vectors : basis;
  error : fl;
  projection : custom_polynomial;
  iteration : nat
}.

(** Why the loop stopped: the test [error >= eps] failed, or one of the
    two [break] statements ran. *)
Inductive reason : Type :=
| Converged
| MaxIter
| BasisFull.

Inductive step : Type :=
| Continue (s : loop_state)
| Break (why : reason) (s : loop_state).

(** One pass through the body of the [while] loop. *)
Definition greedy_body (limit : nat) (X : list vec) (WX : list R) (n : Z)
    (r : nat) (poly : custom_polynomial) (max_size : Z) (inner accu tol : R)
    (max_iter max_vec : nat) (s : loop_state) (k : nat) : res step * nat :=
  let old_error := error s in
  match add_vector limit (vectors s) X WX n r poly (projection s)
                   max_size inner accu k with
  | (Raise e, _, k') => (Raise e, k')
  | (Ok None, _, k') =>
      (Raise (TypeError "cannot unpack non-iterable NoneType object"), k')
  | (Ok (Some (W', fW', Q', error', new_projection_poly)), _, k') =>
      let difference := fl_abs (fl_sub old_error error') in
      let projection_poly := new_projection_poly in
      if fl_leb difference (Fin tol) then
        let s' := {| vectors := {| W := removelast W'; fW := removelast fW';
                                   Q := removelast Q' |};
                     error := old_error;
                     projection := projection_poly;
                     iteration := iteration s + 1 |} in
        if (max_iter <=? iteration s')%nat then (Ok (Break MaxIter s'), k')
        else if (max_vec <=? length (W (vectors s')))%nat
             then (Ok (Break BasisFull s'), k')
             else (Ok (Continue s'), k')
      else
        let s' := {| vectors := {| W := W'; fW := fW'; Q := Q' |};
                     error := error';
                     projection := projection_poly;
                     iteration := iteration s |} in
        if (max_vec <=? length (W (vectors s')))%nat
        then (Ok (Break BasisFull s'), k')
        else (Ok (Continue s'), k')
  end.

(** The [while error >= eps] loop; [fuel] bounds the number of passes and
    [None] says that it was too small. *)
Fixpoint greedy_loop (fuel limit : nat) (X : list vec) (WX : list R) (n : Z)
    (r : nat) (poly : custom_polynomial) (max_size : Z)
    (inner accu eps tol : R) (max_iter max_vec : nat)
    (s : loop_state) (k : nat) : option (res (reason * loop_state)) :=
  if fl_geb (error s) (Fin eps) then
    match fuel with
    | O => None
    | S fuel' =>
        match greedy_body limit X WX n r poly max_size inner accu tol
                          max_iter max_vec s k with
        | (Raise e, _) => Some (Raise e)
        | (Ok (Break why s'), _) => Some (Ok (why, s'))
        | (Ok (Continue s'), k') =>
            greedy_loop fuel' limit X WX n r poly max_size inner accu eps tol
                        max_iter max_vec s' k'
        end
    end
  else Some (Ok (Converged, s)).

Definition py_min (a b : Z) : Z := if (b <? a)%Z then b else a.

(** The state in which the loop is entered. *)
Definition greedy_init (n : Z) (r : nat) (poly : custom_polynomial) (accu : R)
  : res (nat * list vec * list R * Z * loop_state) :=
  let deg := degree poly in
  max_vec <- math_comb (n + Z.of_nat deg - 1) (Z.of_nat deg) ;;
  '(X, WX) <- spherical_quadrature n deg ;;
  let projection_poly := sustract_polynomials poly poly in
  size <- sample_size n deg r accu ;;
  let max_size := py_min size 100000 in
  Ok (max_vec, X, WX, max_size,
      {| vectors := {| W := []; fW := []; Q := [] |};
         error := PInf;
         projection := projection_poly;
         iteration := 1 |}).

(** [greedy_approximation], with the reason for which the loop stopped
    and the final values of the loop variables next to the returned
    [projection_poly]. *)
Definition greedy_run (fuel limit : nat) (n : Z) (r : nat)
    (poly : custom_polynomial) (accu inner eps tol : R) (max_iter : nat)
  : option (res (reason * loop_state)) :=
  match greedy_init n r poly accu with
  | Raise e => Some (Raise e)
  | Ok (max_vec, X, WX, max_size, s) =>
      greedy_loop fuel limit X WX n r poly max_size inner accu eps tol
                  max_iter max_vec s 0
  end.

Definition greedy_approximation (fuel limit : nat) (n : Z) (r : nat)
    (poly : custom_polynomial) (accu inner eps tol : R) (max_iter : nat)
  : option (res custom_polynomial) :=
  match greedy_run fuel limit n r poly accu inner eps tol max_iter with
  | None => None
  | Some (Raise e) => Some (Raise e)
  | Some (Ok (_, s)) => Some (Ok (projection s))
  end.

End Pipeline.

(** ** The Lr-norm as the specification words it

    The normalised sum of [W(x) * |poly(x)|^r] over the nodes, to the
    power [1/r]: the evaluations enter through their absolute value. *)
Definition lrNorm_spec (poly : custom_polynomial) (X : list vec)
    (WX : list R) (r : nat) : res fl :=
  c <- sphere_surface_area (Z.of_nat (num_var poly) - 1) ;;
  evaluations <- parallelized_evaluation poly X ;;
  let evaluations := map (fun e => Rabs e ^ r) evaluations in
  inv_c <- py_inv c ;;
  let s := inv_c * np_sum (np_mul WX evaluations) in
  inv_r <- py_inv (INR r) ;;
  Ok (float_power s inv_r).

(** What an operation that returns the instance [new_poly] in the store
    [h'] does to the store [h] it started from: [new_poly] is an instance
    that did not exist before, it holds the attributes [o], and every
    instance of [h] is found in [h'] with the attributes it had. *)
Definition allocates (h h' : store) (new_poly : addr) (o : custom_polynomial)
  : Prop :=
  deref h new_poly = None /\
  deref h' new_poly = Some o /\
  forall (a : addr) (x : custom_polynomial),
    deref h a = Some x -> deref h' a = Some x.

(** The bound that [sample_size] returns on its domain, with the two
    roots and the power [2r] cancelled. *)
Definition sample_bound (n : Z) (deg r : nat) (accu : R) : R :=
  - ln (1 - accu) *
  Rmin (INR (2 * r) ^ (deg * r))
       (INR (comb (r * deg + Z.to_nat (n - 1)) (r * deg))).

(** ** Instances of the library functions for worked examples *)

(** [roots_jacobi] where it is needed below: at order two with both
    parameters [-1/2] it is the Gauss-Chebyshev rule, whose nodes are the
    roots of [2 z^2 - 1], in increasing order, and whose weights are both
    [pi/2]. *)
Definition roots_jacobi_table (deg : nat) (alpha beta : R)
  : res (list R * list R) :=
  if ((deg =? 2)%nat && Reqb alpha (-1 / 2) && Reqb beta (-1 / 2))%bool
  then Ok ([- / sqrt 2; / sqrt 2], [PI / 2; PI / 2])
  else Raise (ValueError "order and parameters outside the table").

(** ** A call whose value is dropped

    What a function returns when its last statement is a call that is
    not returned: an exception of the call goes through, any value of the
    call is replaced by [None]. *)
Definition dropped {A B S : Type} (o : res A * S) : res (option B) * S :=
  match o with
  | (Raise e, s) => (Raise e, s)
  | (Ok _, s) => (Ok None, s)
  end.

(** ** The states a run of the loop goes through *)

Definition step_state (st : step) : loop_state :=
  match st with
  | Continue s => s
  | Break _ s => s
  end.

(** The state after a pass in which the improvement is at most [tol]. *)
Definition stagnant_state (s : loop_state) (p : custom_polynomial) : loop_state :=
  {| vectors := vectors s; error := error s; projection := p;
     iteration := iteration s + 1 |}.

(** The state after a pass in which the candidate is kept. *)
Definition committed_state (s : loop_state) (v : vec) (fv : R)
    (q : custom_polynomial) (err : fl) (p : custom_polynomial) : loop_state :=
  {| vectors := {| W := W (vectors s) ++ [v]; fW := fW (vectors s) ++ [fv];
                   Q := Q (vectors s) ++ [q] |};
     error := err; projection := p; iteration := iteration s |}.

Section LoopStates.

Variable randn : nat -> nat -> nat -> list vec.
Variable matrix_rank : list (list R) -> nat.
Variable linalg_inv : list (list R) -> res (list (list R)).
Variables (limit : nat) (X : list vec) (WX : list R) (n : Z) (r : nat).
Variables (poly : custom_polynomial) (max_size : Z) (inner accu eps tol : R).
Variables (max_iter max_vec : nat).

(** [loop_reaches s0 k0 s k]: the loop entered in the state [s0] with
    [k0] batches drawn is, after some number of passes, at its head again
    in the state [s] with [k] batches drawn. *)
Inductive loop_reaches (s0 : loop_state) (k0 : nat)
  : loop_state -> nat -> Prop :=
| reaches_start : loop_reaches s0 k0 s0 k0
| reaches_next (s : loop_state) (k : nat) (s' : loop_state) (k' : nat) :
    loop_reaches s0 k0 s k ->
    fl_geb (error s) (Fin eps) = true ->
    greedy_body randn matrix_rank linalg_inv limit X WX n r poly max_size
                inner accu tol max_iter max_vec s k = (Ok (Continue s'), k') ->
    loop_reaches s0 k0 s' k'.

End LoopStates.

(** [np.random.randn] replayed from a script: the call number [k] returns
    the first [rows] rows of the batch number [k] of the script. *)
Definition randn_script (batches : list (list vec)) (k rows cols : nat)
  : list vec :=
  firstn rows (nth k batches []).

Fixpoint remove_nth {A : Type} (j : nat) (l : list A) : list A :=
  match j, l with
  | _, [] => []
  | O, _ :: l' => l'
  | S j', a :: l' => a :: remove_nth j' l'
  end.

(** The determinant, expanded along the first row. *)
Fixpoint det_rec (size : nat) (M : list (list R)) : R :=
  match size, M with
  | S size', row :: rest =>
      np_sum (map (fun j => (-1) ^ j * nth j row 0 *
                            det_rec size' (map (remove_nth j) rest))
                  (seq 0 (length row)))
  | _, _ => 1
  end.

Definition det (M : list (list R)) : R := det_rec (length M) M.

(** [matrix_rank] in exact arithmetic as far as the program looks at it:
    the size of the matrix when the determinant is not zero, and a
    smaller number when it is. *)
Definition matrix_rank_by_det (M : list (list R)) : nat :=
  if Reqb (det M) 0 then pred (length M) else length M.

(** [np.linalg.inv] in exact arithmetic: the transposed cofactors over
    the determinant. *)
Definition linalg_inv_adjugate (M : list (list R)) : res (list (list R)) :=
  if Reqb (det M) 0 then Raise LinAlgError
  else
    Ok (map (fun i =>
               map (fun j =>
                      (-1) ^ (i + j) *
                      det (map (remove_nth i) (remove_nth j M)) / det M)
                   (seq 0 (length M)))
            (seq 0 (length M))).

(** The rule on the circle for the degree two: the four points
    (+-1/sqrt 2, +-1/sqrt 2) with the weight [pi/2] each. *)
Definition circle_nodes : list vec :=
  [[- / sqrt 2; / sqrt 2]; [- / sqrt 2; - / sqrt 2];
   [/ sqrt 2; / sqrt 2]; [/ sqrt 2; - / sqrt 2]].

Definition circle_weights : list R := [PI / 2; PI / 2; PI / 2; PI / 2].

(** The polynomial [x1^2] in two variables, and the zero polynomial that
    [greedy_approximation] starts from. *)
Definition x1_squared : custom_polynomial := new_polynomial 1 [1; 0] 2.

Definition zero_projection : custom_polynomial :=
  sustract_polynomials x1_squared x1_squared.

(** The polynomial [-x1^2] in two variables. *)
Definition minus_x1_squared : custom_polynomial := new_polynomial (-1) [1; 0] 2.

(** The script of the batches for the finder: the direction (0,1), on
    which [x1^2] vanishes, and then the direction (3,4)/5. *)
Definition finder_script : list (list vec) := [[[0; 1]]; [[3; 4]]].

(** The script of the batches for the decomposer: the direction (3,4)/5
    and then the direction (1,0). *)
Definition decomposer_script : list (list vec) := [[[3; 4]]; [[1; 0]]].

(** The state in which [greedy_approximation] enters its loop for
    [x1^2]. *)
Definition state_0 : loop_state :=
  {| vectors := {| W := []; fW := []; Q := [] |}; error := PInf;
     projection := zero_projection; iteration := 1 |}.

(** The first rank-one term, its coefficient and the first projection. *)
Definition q_1 : custom_polynomial := new_polynomial 1 [3 / 5; 4 / 5] 2.

Definition projection_1 : custom_polynomial := multiply_constant q_1 (9 / 25).

Definition state_1 : loop_state :=
  committed_state state_0 [3 / 5; 4 / 5] (9 / 25) q_1 (Fin (1 / 2)) projection_1.

(** The second rank-one term and the projection on the two terms. *)
Definition q_2 : custom_polynomial := new_polynomial 1 [1; 0] 2.

Definition projection_2 : custom_polynomial :=
  add_polynomials (multiply_constant q_1 (729 / 13600))
                  (multiply_constant q_2 (463 / 544)).

(** The accuracy for which one sample is enough in this example:
    [-ln(1 - accu) = 1/3], and the bound is [1/3 * min(4, 3) = 1]. *)
Definition accu_one_sample : R := 1 - exp (- (1 / 3)).

(** ** A worked example on the sphere in three dimensions *)

(** The six points where the axes meet the sphere, each of weight
    [2 pi/3]: a rule for the degree two. *)
Definition octahedron_nodes : list vec :=
  [[1; 0; 0]; [-1; 0; 0]; [0; 1; 0]; [0; -1; 0]; [0; 0; 1]; [0; 0; -1]].

Definition octahedron_weights : list R :=
  [2 * PI / 3; 2 * PI / 3; 2 * PI / 3; 2 * PI / 3; 2 * PI / 3; 2 * PI / 3].

(** The polynomial [x1^2 + x3^2] and the zero polynomial. *)
Definition x1_x3_squared : custom_polynomial :=
  add_polynomials (new_polynomial 1 [1; 0; 0] 2) (new_polynomial 1 [0; 0; 1] 2).

Definition zero_projection_3 : custom_polynomial :=
  sustract_polynomials x1_x3_squared x1_x3_squared.

(** A basis of three directions of the plane [x3 = 0]. *)
Definition planar_basis : basis :=
  {| W := [[1; 0; 0]; [0; 1; 0]; [3 / 5; 4 / 5; 0]];
     fW := [1; 0; 9 / 25];
     Q := [new_polynomial 1 [1; 0; 0] 2; new_polynomial 1 [0; 1; 0] 2;
           new_polynomial 1 [3 / 5; 4 / 5; 0] 2] |}.

(** The script of the batches for the projector: a fourth direction of
    the plane, (4,-3,0)/5, and then the direction (0,0,1). *)
Definition projector_script : list (list vec) := [[[4; -3; 0]]; [[0; 0; 1]]].

(** The basis with the direction (0,0,1) appended. *)
Definition planar_basis_extended : basis :=
  {| W := W planar_basis ++ [[0; 0; 1]];
     fW := fW planar_basis ++ [1];
     Q := Q planar_basis ++ [new_polynomial 1 [0; 0; 1] 2] |}.

(** ** The invariant of the class [custom_polynomial]

    What the constructor establishes and the arithmetic keeps: the
    expression is over the [num_var] variables of the instance, all its
    powers have the degree of the instance, and [f] is the evaluator of
    the expression. *)

Fixpoint expr_dim (e : sym_expr) (n : nat) : Prop :=
  match e with
  | SPower v _ => length v = n
  | SMul _ e' => expr_dim e' n
  | SAdd e1 e2 | SSub e1 e2 => expr_dim e1 n /\ expr_dim e2 n
  end.

Fixpoint expr_degree (e : sym_expr) (d : nat) : Prop :=
  match e with
  | SPower _ d' => d' = d
  | SMul _ e' => expr_degree e' d
  | SAdd e1 e2 | SSub e1 e2 => expr_degree e1 d /\ expr_degree e2 d
  end.

Definition well_formed (p : custom_polynomial) : Prop :=
  expr_dim (expr p) (num_var p) /\
  expr_degree (expr p) (degree p) /\
  forall w : vec, f p w = subs (expr p) w.


(** The three lists of the greedy loop and the projection fit together:
    [Q[i]] is the power of the linear form of [W[i]], [fW] is as long as
    [W], and the projection takes the value [fW[i]] at [W[i]]. *)
Definition consistent (deg : nat) (b : basis) (p : custom_polynomial) : Prop :=
  Q b = map (fun w => new_polynomial 1 w deg) (W b) /\
  length (fW b) = length (W b) /\
  map (f p) (W b) = fW b.
(** * Properties *)

(** ** Deciding comparisons of real numbers *)

Lemma Rltb_true (x y : R) : x < y -> Rltb x y = true.
Proof. intros H. unfold Rltb. destruct (Rlt_dec x y); [reflexivity | contradiction]. Qed.

Lemma Rltb_false (x y : R) : y <= x -> Rltb x y = false.
Proof. intros H. unfold Rltb. destruct (Rlt_dec x y); [lra | reflexivity]. Qed.

Lemma Rleb_true (x y : R) : x <= y -> Rleb x y = true.
Proof. intros H. unfold Rleb. destruct (Rle_dec x y); [reflexivity | contradiction]. Qed.

Lemma Rleb_false (x y : R) : y < x -> Rleb x y = false.
Proof. intros H. unfold Rleb. destruct (Rle_dec x y); [lra | reflexivity]. Qed.

Lemma Reqb_true (x y : R) : x = y -> Reqb x y = true.
Proof. intros H. unfold Reqb. destruct (Req_dec_T x y); [reflexivity | contradiction]. Qed.

Lemma Reqb_false (x y : R) : x <> y -> Reqb x y = false.
Proof. intros H. unfold Reqb. destruct (Req_dec_T x y); [contradiction | reflexivity]. Qed.

Lemma py_inv_ok (c : R) : c <> 0 -> py_inv c = Ok (1 / c).
Proof. intros H. unfold py_inv. rewrite Reqb_false by assumption. reflexivity. Qed.

Lemma py_inv_zero : py_inv 0 = Raise ZeroDivisionError.
Proof. unfold py_inv. rewrite Reqb_true by reflexivity. reflexivity. Qed.

(** ** Ball volume and sphere surface area *)

Lemma ball_volume_0 : ball_volume 0 = Ok 1.
Proof. simp ball_volume. reflexivity. Qed.

Lemma ball_volume_1 : ball_volume 1 = Ok 2.
Proof. simp ball_volume. reflexivity. Qed.

Lemma ball_volume_step (k : Z) :
  (1 < k)%Z ->
  ball_volume k = V <- ball_volume (k - 2) ;; Ok ((2 * PI / IZR k) * V).
Proof.
  intros Hk. rewrite ball_volume_equation_1.
  destruct (Z.eq_dec k 1) as [E|E]; [lia|]. simpl.
  destruct (Z_gt_dec k 1) as [G|G]; [|lia]. simpl. reflexivity.
Qed.

Lemma ball_volume_negative (k : Z) :
  (k < 0)%Z ->
  ball_volume k = Raise (ValueError "The dimension n cannot be lower than 0").
Proof.
  intros Hk. rewrite ball_volume_equation_1.
  destruct (Z.eq_dec k 1) as [E|E]; [lia|]. simpl.
  destruct (Z_gt_dec k 1) as [G|G]; [lia|]. simpl.
  destruct (Z_lt_dec k 0) as [L|L]; [|lia]. reflexivity.
Qed.

(** The volume is defined and positive in every dimension [k >= 0]. *)
Lemma ball_volume_total (k : Z) :
  (0 <= k)%Z -> exists v, ball_volume k = Ok v /\ 0 < v.
Proof.
  intros Hk.
  assert (H : forall (m : nat) (j : Z),
             (0 <= j)%Z -> (Z.to_nat j < m)%nat ->
             exists v, ball_volume j = Ok v /\ 0 < v).
  { induction m as [|m IH]; intros j Hj Hm; [lia|].
    destruct (Z.eq_dec j 0) as [->|N0];
      [exists 1; split; [apply ball_volume_0 | lra]|].
    destruct (Z.eq_dec j 1) as [->|N1];
      [exists 2; split; [apply ball_volume_1 | lra]|].
    destruct (IH (j - 2)%Z) as [v [Hv Hpos]]; [lia | lia |].
    exists (2 * PI / IZR j * v). rewrite ball_volume_step by lia.
    rewrite Hv. simpl. split; [reflexivity|].
    assert (0 < IZR j) by (apply IZR_lt; lia).
    assert (0 < PI) by apply PI_RGT_0.
    apply Rmult_lt_0_compat; [|assumption].
    apply Rdiv_lt_0_compat; lra. }
  apply (H (S (Z.to_nat k))); [assumption | lia].
Qed.

(** C8: volume(0) = 1, volume(1) = 2, volume(k) = (2 pi / k) volume(k-2)
    for every k > 1, and surfaceArea(k) = (k+1) volume(k+1) for every
    k >= 0; all these values are defined. *)
Theorem ball_volume_sphere_surface_area_relations :
  ball_volume 0 = Ok 1 /\
  ball_volume 1 = Ok 2 /\
  (forall k : Z, (1 < k)%Z ->
     exists v, ball_volume (k - 2) = Ok v /\
               ball_volume k = Ok ((2 * PI / IZR k) * v)) /\
  (forall k : Z, (0 <= k)%Z ->
     exists v, ball_volume (k + 1) = Ok v /\
               sphere_surface_area k = Ok (IZR (k + 1) * v)).
Proof.
  split; [apply ball_volume_0|].
  split; [apply ball_volume_1|].
  split.
  - intros k Hk.
    destruct (ball_volume_total (k - 2)) as [v [Hv _]]; [lia|].
    exists v. split; [assumption|].
    rewrite ball_volume_step by assumption. rewrite Hv. reflexivity.
  - intros k Hk.
    destruct (ball_volume_total (k + 1)) as [v [Hv _]]; [lia|].
    exists v. split; [assumption|].
    unfold sphere_surface_area. rewrite Hv. reflexivity.
Qed.

(** The relations at [k = 2] and [k = 1]: the disc has area pi and the
    circle has length 2 pi. *)
Lemma ball_volume_sphere_surface_area_relations_witness :
  ball_volume 2 = Ok PI /\ sphere_surface_area 1 = Ok (2 * PI).
Proof.
  destruct ball_volume_sphere_surface_area_relations as [H0 [_ [Hrec Hsurf]]].
  assert (H2 : ball_volume 2 = Ok PI).
  { destruct (Hrec 2%Z) as [v [Hv H2]]; [lia|].
    change (2 - 2)%Z with 0%Z in Hv. rewrite H0 in Hv. inversion Hv; subst v.
    rewrite H2. f_equal. field. }
  split; [exact H2|].
  destruct (Hsurf 1%Z) as [v [Hv H1]]; [lia|].
  change (1 + 1)%Z with 2%Z in Hv, H1. rewrite H2 in Hv. inversion Hv; subst v.
  exact H1.
Defined.

(** ** The Lr-norm *)

Lemma sphere_surface_area_0 : sphere_surface_area 0 = Ok (1 * 2).
Proof. unfold sphere_surface_area. simpl. rewrite ball_volume_1. reflexivity. Qed.

(** [x ** 1.0] is [x], whatever the sign of [x]. *)
Lemma float_power_one (x : R) : float_power x 1 = Fin x.
Proof.
  unfold float_power.
  destruct (Rlt_dec 0 x) as [Hpos|Hnpos].
  - rewrite Rltb_true by assumption. f_equal. apply Rpower_1. assumption.
  - rewrite Rltb_false by lra.
    destruct (Req_dec_T x 0) as [Hz|Hnz].
    + rewrite Reqb_true by assumption. rewrite Rltb_true by lra. congruence.
    + rewrite Reqb_false by assumption.
      change 1 with (INR 1). rewrite Int_part_INR. simpl.
      rewrite Reqb_true by reflexivity. f_equal. lra.
Qed.

(** For an even exponent the absolute value makes no difference. *)
Lemma pow_even_Rabs (x : R) (r : nat) : Nat.Even r -> Rabs x ^ r = x ^ r.
Proof.
  intros [m ->]. rewrite !pow_mult. f_equal.
  rewrite RPow_abs. apply Rabs_pos_eq. apply pow2_ge_0.
Qed.

(** Where the code and the specification agree: every even exponent. *)
Lemma poly_Lr_norm_even (poly : custom_polynomial) (X : list vec)
    (WX : list R) (r : nat) :
  Nat.Even r -> poly_Lr_norm poly X WX r = lrNorm_spec poly X WX r.
Proof.
  intros Hr. unfold poly_Lr_norm, lrNorm_spec.
  destruct (sphere_surface_area _) as [c|e]; [simpl | reflexivity].
  destruct (parallelized_evaluation poly X) as [ev|e]; [simpl | reflexivity].
  replace (map (fun e => Rabs e ^ r) ev) with (map (fun e => e ^ r) ev);
    [reflexivity|].
  apply map_ext. intros a. symmetry. apply pow_even_Rabs. assumption.
Qed.

Lemma Lr_norm_method_function (poly : custom_polynomial) (X : list vec)
    (WX : list R) (r : nat) :
  Lr_norm X WX (Z.of_nat (num_var poly)) r poly = poly_Lr_norm poly X WX r.
Proof. reflexivity. Qed.

(** ** Arithmetic leaves its operands alone *)

Lemma deref_app_old (h : store) (o : custom_polynomial) (a : addr)
    (x : custom_polynomial) :
  deref h a = Some x -> deref (h ++ [o]) a = Some x.
Proof.
  unfold deref. intros H. rewrite nth_error_app1; [assumption|].
  apply nth_error_Some. congruence.
Qed.

Lemma deref_app_new (h : store) (o : custom_polynomial) :
  deref (h ++ [o]) (length h) = Some o.
Proof.
  unfold deref. rewrite nth_error_app2 by lia.
  rewrite Nat.sub_diag. reflexivity.
Qed.

Lemma deref_fresh (h : store) : deref h (length h) = None.
Proof. unfold deref. apply nth_error_None. lia. Qed.

Lemma update_app_new (h : store) (o o' : custom_polynomial) :
  update (h ++ [o]) (length h) o' = h ++ [o'].
Proof. induction h as [|x h IH]; simpl; [reflexivity | now rewrite IH]. Qed.

(** Rebinding [expr] and then [f] on the copy that was just made. *)
Lemma rebind_copy (h : store) (o : custom_polynomial) (e : sym_expr) :
  obind (set_expr (h ++ [o]) (length h) e) (fun h2 =>
  obind (relambdify h2 (length h)) (fun h3 => Some (h3, length h)))
  = Some (h ++ [{| num_var := num_var o; expr := e;
                   degree := degree o; f := lambdify e |}], length h).
Proof.
  unfold set_expr. rewrite deref_app_new. rewrite update_app_new. simpl.
  unfold relambdify. rewrite deref_app_new. simpl.
  unfold set_f. rewrite deref_app_new. rewrite update_app_new. reflexivity.
Qed.

Lemma obj_multiply_constant_spec (h : store) (poly : addr) (constant : R)
    (o : custom_polynomial) :
  deref h poly = Some o ->
  obj_multiply_constant h poly constant
  = Some (h ++ [multiply_constant o constant], length h).
Proof.
  intros H. unfold obj_multiply_constant, copy_copy. rewrite H. simpl.
  rewrite deref_app_new. simpl. apply rebind_copy.
Qed.

Lemma obj_add_polynomials_spec (h : store) (poly1 poly2 : addr)
    (o1 o2 : custom_polynomial) :
  deref h poly1 = Some o1 -> deref h poly2 = Some o2 ->
  obj_add_polynomials h poly1 poly2
  = Some (h ++ [add_polynomials o1 o2], length h).
Proof.
  intros H1 H2. unfold obj_add_polynomials, copy_copy. rewrite H1. simpl.
  rewrite deref_app_new. simpl.
  rewrite (deref_app_old h o1 poly2 o2 H2). simpl. apply rebind_copy.
Qed.

Lemma obj_sustract_polynomials_spec (h : store) (poly1 poly2 : addr)
    (o1 o2 : custom_polynomial) :
  deref h poly1 = Some o1 -> deref h poly2 = Some o2 ->
  obj_sustract_polynomials h poly1 poly2
  = Some (h ++ [sustract_polynomials o1 o2], length h).
Proof.
  intros H1 H2. unfold obj_sustract_polynomials, copy_copy. rewrite H1. simpl.
  rewrite deref_app_new. simpl.
  rewrite (deref_app_old h o1 poly2 o2 H2). simpl. apply rebind_copy.
Qed.

Lemma allocates_app (h : store) (o : custom_polynomial) :
  allocates h (h ++ [o]) (length h) o.
Proof.
  split; [apply deref_fresh|]. split; [apply deref_app_new|].
  intros a x. apply deref_app_old.
Qed.

(** C9: scaling, adding and subtracting return a new instance that
    carries the combined expression and its evaluator, and every instance
    that existed before, the operands among them, keeps its expression
    and its evaluator.  Matching dimension and degree are not needed. *)
Theorem arithmetic_returns_new_instance (h : store) (poly1 poly2 : addr)
    (o1 o2 : custom_polynomial) (constant : R) :
  deref h poly1 = Some o1 ->
  deref h poly2 = Some o2 ->
  (exists h' new_poly,
     obj_multiply_constant h poly1 constant = Some (h', new_poly) /\
     allocates h h' new_poly
       {| num_var := num_var o1; expr := SMul constant (expr o1);
          degree := degree o1; f := lambdify (SMul constant (expr o1)) |}) /\
  (exists h' new_poly,
     obj_add_polynomials h poly1 poly2 = Some (h', new_poly) /\
     allocates h h' new_poly
       {| num_var := num_var o1; expr := SAdd (expr o1) (expr o2);
          degree := degree o1; f := lambdify (SAdd (expr o1) (expr o2)) |}) /\
  (exists h' new_poly,
     obj_sustract_polynomials h poly1 poly2 = Some (h', new_poly) /\
     allocates h h' new_poly
       {| num_var := num_var o1; expr := SSub (expr o1) (expr o2);
          degree := degree o1; f := lambdify (SSub (expr o1) (expr o2)) |}).
Proof.
  intros H1 H2. repeat split.
  - eexists; eexists. split;
      [apply (obj_multiply_constant_spec h poly1 constant o1 H1)|].
    apply allocates_app.
  - eexists; eexists. split;
      [apply (obj_add_polynomials_spec h poly1 poly2 o1 o2 H1 H2)|].
    apply allocates_app.
  - eexists; eexists. split;
      [apply (obj_sustract_polynomials_spec h poly1 poly2 o1 o2 H1 H2)|].
    apply allocates_app.
Qed.

(** Two polynomials in two variables of degree two, at the addresses 0
    and 1 of a store. *)
Lemma arithmetic_returns_new_instance_witness :
  let p := new_polynomial 1 [1; 0] 2 in
  let q := new_polynomial 3 [0; 1] 2 in
  exists h' new_poly,
    obj_add_polynomials [p; q] 0%nat 1%nat = Some (h', new_poly) /\
    allocates [p; q] h' new_poly
      {| num_var := 2; expr := SAdd (expr p) (expr q); degree := 2;
         f := lambdify (SAdd (expr p) (expr q)) |}.
Proof.
  intros p q.
  exact (proj1 (proj2 (arithmetic_returns_new_instance [p; q] 0%nat 1%nat
                         p q 2 eq_refl eq_refl))).
Defined.

(** ** The sample size *)

Lemma comb_diagonal_step (m p : nat) :
  (comb (m + p) m <= comb (S m + p) (S m))%nat.
Proof. simpl. lia. Qed.

Lemma comb_diagonal_mono (p m1 m2 : nat) :
  (m1 <= m2)%nat -> (comb (m1 + p) m1 <= comb (m2 + p) m2)%nat.
Proof.
  induction 1 as [|m2 Hle IH]; [lia|].
  etransitivity; [exact IH | apply comb_diagonal_step].
Qed.

Lemma Int_part_mono (x y : R) : x <= y -> (Int_part x <= Int_part y)%Z.
Proof.
  intros Hxy.
  destruct (base_Int_part x) as [Hx _].
  destruct (base_Int_part y) as [_ Hy].
  assert (H : IZR (Int_part x) < IZR (Int_part y + 1)).
  { rewrite plus_IZR. simpl. lra. }
  apply lt_IZR in H. lia.
Qed.

Lemma Zceil_mono (x y : R) : x <= y -> (Zceil x <= Zceil y)%Z.
Proof.
  intros Hxy. unfold Zceil.
  assert (Int_part (- y) <= Int_part (- x))%Z by (apply Int_part_mono; lra).
  lia.
Qed.

Lemma Rmin_pow (a b : R) (m : nat) :
  0 <= a -> 0 <= b -> Rmin a b ^ m = Rmin (a ^ m) (b ^ m).
Proof.
  intros Ha Hb. destruct (Rle_dec a b) as [Hab|Hab].
  - rewrite !Rmin_left; [reflexivity | | assumption].
    apply pow_incr. lra.
  - rewrite !Rmin_right; [reflexivity | | lra].
    apply pow_incr. lra.
Qed.

Lemma Rpower_pow_nat (x y : R) (m : nat) :
  0 < x -> Rpower x y ^ m = Rpower x (y * INR m).
Proof.
  intros Hx. rewrite <- Rpower_pow by apply exp_pos.
  apply Rpower_mult.
Qed.

Lemma pow_nonneg_nonneg (x y : R) : 0 <= pow_nonneg x y.
Proof.
  unfold pow_nonneg. destruct (Rltb 0 x).
  - left. apply exp_pos.
  - destruct (Rltb 0 y); lra.
Qed.

(** [((2r) ** (deg/2)) ** (2r)] is the integer power [(2r)^(deg r)]. *)
Lemma pow_nonneg_a (deg r : nat) :
  (1 <= r)%nat ->
  pow_nonneg (INR (2 * r)) (INR deg / 2) ^ (2 * r) = INR (2 * r) ^ (deg * r).
Proof.
  intros Hr.
  assert (Hpos : 0 < INR (2 * r)) by (apply lt_0_INR; lia).
  unfold pow_nonneg. rewrite Rltb_true by assumption.
  rewrite Rpower_pow_nat by assumption.
  rewrite <- Rpower_pow by assumption. f_equal.
  rewrite !mult_INR. simpl. field.
Qed.

(** [(c ** (1/(2r))) ** (2r)] is [c]. *)
Lemma pow_nonneg_b (c r : nat) :
  (1 <= r)%nat ->
  pow_nonneg (INR c) (1 / INR (2 * r)) ^ (2 * r) = INR c.
Proof.
  intros Hr.
  assert (Hpos : 0 < INR (2 * r)) by (apply lt_0_INR; lia).
  unfold pow_nonneg. destruct c as [|c].
  - simpl INR at 1. rewrite Rltb_false by lra.
    rewrite Rltb_true by (apply Rdiv_lt_0_compat; lra).
    apply pow_i. lia.
  - assert (Hc : 0 < INR (S c)) by (apply lt_0_INR; lia).
    rewrite Rltb_true by assumption.
    rewrite Rpower_pow_nat by assumption.
    replace (1 / INR (2 * r) * INR (2 * r)) with 1 by (field; lra).
    apply Rpower_1. assumption.
Qed.

Lemma sample_size_value (n : Z) (deg r : nat) (accu : R) :
  (1 <= n)%Z -> (1 <= r)%nat -> 0 < accu < 1 ->
  sample_size n deg r accu = Ok (Zceil (sample_bound n deg r accu)).
Proof.
  intros Hn Hr Haccu. unfold sample_size, sample_bound.
  unfold math_comb.
  replace (Z.of_nat (r * deg) + n - 1 <? 0)%Z with false
    by (symmetry; apply Z.ltb_ge; lia).
  replace (Z.of_nat (r * deg) <? 0)%Z with false
    by (symmetry; apply Z.ltb_ge; lia).
  cbn [bind].
  assert (Hpos : 0 < INR (2 * r)) by (apply lt_0_INR; lia).
  rewrite py_inv_ok by lra. cbn [bind].
  unfold np_log. rewrite Rltb_true by lra. cbn [fl_neg fl_scale math_ceil].
  rewrite Rmin_pow by apply pow_nonneg_nonneg.
  rewrite pow_nonneg_a, pow_nonneg_b by assumption.
  replace (Z.to_nat (Z.of_nat (r * deg) + n - 1))
    with (r * deg + Z.to_nat (n - 1))%nat by lia.
  rewrite Nat2Z.id. reflexivity.
Qed.

Lemma sample_bound_mono_accu (n : Z) (deg r : nat) (accu1 accu2 : R) :
  0 < accu1 -> accu1 <= accu2 -> accu2 < 1 ->
  sample_bound n deg r accu1 <= sample_bound n deg r accu2.
Proof.
  intros H1 H12 H2. unfold sample_bound.
  apply Rmult_le_compat_r.
  - apply Rmin_glb; [apply pow_le | ]; apply pos_INR.
  - assert (ln (1 - accu2) <= ln (1 - accu1)); [|lra].
    destruct H12 as [Hlt | ->]; [|lra].
    left. apply ln_increasing; lra.
Qed.

Lemma sample_bound_mono_r (n : Z) (deg r1 r2 : nat) (accu : R) :
  (1 <= r1)%nat -> (r1 <= r2)%nat -> 0 < accu < 1 ->
  sample_bound n deg r1 accu <= sample_bound n deg r2 accu.
Proof.
  intros Hr1 Hr12 Haccu. unfold sample_bound.
  apply Rmult_le_compat_l.
  - assert (ln (1 - accu) < ln 1) by (apply ln_increasing; lra).
    rewrite ln_1 in H. lra.
  - apply Rmin_glb.
    + eapply Rle_trans; [apply Rmin_l|].
      apply Rle_trans with (INR (2 * r1) ^ (deg * r2)).
      * apply Rle_pow; [|nia].
        change 1 with (INR 1). apply le_INR. lia.
      * apply pow_incr. split; [apply pos_INR|]. apply le_INR. lia.
    + eapply Rle_trans; [apply Rmin_r|].
      apply le_INR. apply comb_diagonal_mono. nia.
Qed.

(** A binomial coefficient inside the triangle is positive. *)
Lemma comb_pos (m k : nat) : (k <= m)%nat -> (1 <= comb m k)%nat.
Proof.
  revert k. induction m as [|m IH]; intros k Hk.
  - assert (k = 0)%nat by lia. subst k. simpl. lia.
  - destruct k as [|k]; simpl; [lia|].
    specialize (IH k ltac:(lia)). lia.
Qed.

(** The value in the words of the code: the two roots as real powers. *)
Lemma sample_size_formula (n : Z) (deg r : nat) (accu : R) :
  (1 <= n)%Z -> (1 <= r)%nat -> 0 < accu < 1 ->
  sample_size n deg r accu =
  Ok (Zceil (- ln (1 - accu) *
             Rmin (Rpower (INR (2 * r)) (INR deg / 2))
                  (Rpower (INR (comb (r * deg + Z.to_nat (n - 1)) (r * deg)))
                          (1 / INR (2 * r))) ^ (2 * r))).
Proof.
  intros Hn Hr Haccu. unfold sample_size, math_comb.
  replace (Z.of_nat (r * deg) + n - 1 <? 0)%Z with false
    by (symmetry; apply Z.ltb_ge; lia).
  replace (Z.of_nat (r * deg) <? 0)%Z with false
    by (symmetry; apply Z.ltb_ge; lia).
  cbn [bind].
  assert (Hpos : 0 < INR (2 * r)) by (apply lt_0_INR; lia).
  rewrite py_inv_ok by lra. cbn [bind].
  unfold np_log. rewrite Rltb_true by lra. cbn [fl_neg fl_scale math_ceil].
  replace (Z.to_nat (Z.of_nat (r * deg) + n - 1))
    with (r * deg + Z.to_nat (n - 1))%nat by lia.
  rewrite Nat2Z.id.
  assert (Hc : 0 < INR (comb (r * deg + Z.to_nat (n - 1)) (r * deg))).
  { apply lt_0_INR. apply comb_pos. lia. }
  unfold pow_nonneg. rewrite !Rltb_true by assumption. reflexivity.
Qed.

(** C6: for [n >= 1], [r >= 1] and an accuracy in (0,1), [sample_size]
    returns [ceil(t * alpha^(2r))] with [t = -ln(1 - accu)] and
    [alpha = min((2r)^(deg/2), C(r deg + n - 1, r deg)^(1/(2r)))], which
    is [ceil(t * min((2r)^(deg r), C(r deg + n - 1, r deg)))]; and that
    value does not decrease when the accuracy grows within (0,1), nor
    when [r] grows.  The degree need not be even. *)
Theorem sample_size_monotone (n : Z) (deg : nat) :
  (1 <= n)%Z ->
  (forall (r : nat) (accu : R),
     (1 <= r)%nat -> 0 < accu < 1 ->
     sample_size n deg r accu =
     Ok (Zceil (- ln (1 - accu) *
                Rmin (Rpower (INR (2 * r)) (INR deg / 2))
                     (Rpower (INR (comb (r * deg + Z.to_nat (n - 1)) (r * deg)))
                             (1 / INR (2 * r))) ^ (2 * r))) /\
     sample_size n deg r accu =
     Ok (Zceil (- ln (1 - accu) *
                Rmin (INR (2 * r) ^ (deg * r))
                     (INR (comb (r * deg + Z.to_nat (n - 1)) (r * deg)))))) /\
  (forall (r : nat) (accu1 accu2 : R),
     (1 <= r)%nat -> 0 < accu1 -> accu1 <= accu2 -> accu2 < 1 ->
     exists s1 s2 : Z,
       sample_size n deg r accu1 = Ok s1 /\
       sample_size n deg r accu2 = Ok s2 /\ (s1 <= s2)%Z) /\
  (forall (r1 r2 : nat) (accu : R),
     (1 <= r1)%nat -> (r1 <= r2)%nat -> 0 < accu < 1 ->
     exists s1 s2 : Z,
       sample_size n deg r1 accu = Ok s1 /\
       sample_size n deg r2 accu = Ok s2 /\ (s1 <= s2)%Z).
Proof.
  intros Hn. split; [|split].
  - intros r accu Hr Haccu. split.
    + apply sample_size_formula; assumption.
    + apply sample_size_value; assumption.
  - intros r accu1 accu2 Hr H1 H12 H2.
    exists (Zceil (sample_bound n deg r accu1)),
           (Zceil (sample_bound n deg r accu2)).
    split; [apply sample_size_value; (assumption || lra)|].
    split; [apply sample_size_value; (assumption || lra)|].
    apply Zceil_mono. apply sample_bound_mono_accu; assumption.
  - intros r1 r2 accu Hr1 Hr12 Haccu.
    exists (Zceil (sample_bound n deg r1 accu)),
           (Zceil (sample_bound n deg r2 accu)).
    split; [apply sample_size_value; (assumption || lia)|].
    split; [apply sample_size_value; (assumption || lia)|].
    apply Zceil_mono. apply sample_bound_mono_r; assumption.
Qed.

(** The parameters of the first example of the notebook: the value, and
    the comparison with a higher accuracy and with a higher exponent. *)
Lemma sample_size_monotone_witness :
  sample_size 4 4 4 (19 / 20) =
  Ok (Zceil (- ln (1 - 19 / 20) *
             Rmin (INR (2 * 4) ^ (4 * 4))
                  (INR (comb (4 * 4 + Z.to_nat (4 - 1)) (4 * 4))))) /\
  (exists s1 s2 : Z,
     sample_size 4 4 4 (19 / 20) = Ok s1 /\
     sample_size 4 4 4 (99 / 100) = Ok s2 /\ (s1 <= s2)%Z) /\
  (exists s1 s2 : Z,
     sample_size 4 4 4 (19 / 20) = Ok s1 /\
     sample_size 4 4 8 (19 / 20) = Ok s2 /\ (s1 <= s2)%Z).
Proof.
  destruct (sample_size_monotone 4 4 ltac:(lia)) as [Hval [Haccu Hr]].
  split; [|split].
  - apply Hval; [lia | lra].
  - apply Haccu; [lia | lra | lra | lra].
  - apply Hr; [lia | lia | lra].
Defined.


(** ** The quadrature rule *)

Section Quadrature.

Variable roots_jacobi : nat -> R -> R -> res (list R * list R).

Let build := spherical_quadrature roots_jacobi.

Lemma spherical_quadrature_base (deg : nat) :
  build 1%Z deg = Ok ([[1]; [-1]], [1; 1]).
Proof. unfold build. simp spherical_quadrature. reflexivity. Qed.

Lemma spherical_quadrature_step (n : Z) (deg : nat) :
  (1 < n)%Z ->
  build n deg =
  ('(Y, WY) <- build (n - 1)%Z deg ;;
   '(Z, WZ) <- roots_jacobi deg (IZR (n - 3) / 2) (IZR (n - 3) / 2) ;;
   Ok (map custom_flatten (list_prod Z Y),
       map (fun c => fst c * snd c) (list_prod WZ WY))).
Proof.
  intros Hn. unfold build. rewrite spherical_quadrature_equation_1.
  destruct (Z_gt_dec n 1) as [G|G]; [|lia]. reflexivity.
Qed.

Lemma spherical_quadrature_invalid (n : Z) (deg : nat) :
  (n < 1)%Z ->
  build n deg = Raise (ValueError "dimension argument must be positive").
Proof.
  intros Hn. unfold build. rewrite spherical_quadrature_equation_1.
  destruct (Z_gt_dec n 1) as [G|G]; [lia|]. simpl.
  destruct (Z_lt_dec n 1) as [L|L]; [|lia]. reflexivity.
Qed.

(** The rule is built in every dimension [n >= 1] as soon as the
    Gauss-Jacobi rule of order [deg] exists. *)
Lemma spherical_quadrature_total (deg : nat) :
  (forall a b, exists Z WZ, roots_jacobi deg a b = Ok (Z, WZ)) ->
  forall n : Z, (1 <= n)%Z -> exists X WX, build n deg = Ok (X, WX).
Proof.
  intros Hjac n Hn.
  assert (H : forall (m : nat) (j : Z),
             (1 <= j)%Z -> (Z.to_nat j <= m)%nat ->
             exists X WX, build j deg = Ok (X, WX)).
  { induction m as [|m IH]; intros j Hj Hm; [lia|].
    destruct (Z.eq_dec j 1) as [->|N1].
    - eexists; eexists. apply spherical_quadrature_base.
    - destruct (IH (j - 1)%Z) as [Y [WY HY]]; [lia | lia |].
      destruct (Hjac (IZR (j - 3) / 2) (IZR (j - 3) / 2)) as [Z [WZ HZ]].
      eexists; eexists. rewrite spherical_quadrature_step by lia.
      rewrite HY. simpl. rewrite HZ. simpl. reflexivity. }
  apply (H (Z.to_nat n)); [assumption | lia].
Qed.

(** C5: for [n = 1] the rule is the two nodes +1 and -1 with weight 1
    each; for [n > 1] it is made of the rule [(Y, WY)] of dimension [n-1]
    and the Gauss-Jacobi rule [(Z, WZ)] of order [deg] with parameters
    ((n-3)/2, (n-3)/2): the nodes are the lifts [(z, sqrt(1 - z^2) y)] of
    all pairs of [Z x Y] and the weights the products [wz * wy] of all
    pairs of [WZ x WY], in the same order; for [n < 1] the call raises.  A
    degree for which the Gauss-Jacobi rule exists (scipy asks for an order
    of at least 1) gives a rule in every dimension [n >= 1]. *)
Theorem spherical_quadrature_spec (deg : nat) :
  build 1%Z deg = Ok ([[1]; [-1]], [1; 1]) /\
  (forall (n : Z) (Y : list vec) (WY Z WZ : list R),
     (1 < n)%Z ->
     build (n - 1)%Z deg = Ok (Y, WY) ->
     roots_jacobi deg (IZR (n - 3) / 2) (IZR (n - 3) / 2) = Ok (Z, WZ) ->
     build n deg =
     Ok (map (fun zy => fst zy :: map (fun yi => sqrt (1 - fst zy ^ 2) * yi)
                                      (snd zy))
             (list_prod Z Y),
         map (fun w => fst w * snd w) (list_prod WZ WY))) /\
  (forall n : Z, (n < 1)%Z -> exists msg, build n deg = Raise (ValueError msg)) /\
  ((forall a b, exists Z WZ, roots_jacobi deg a b = Ok (Z, WZ)) ->
   forall n : Z, (1 <= n)%Z -> exists X WX, build n deg = Ok (X, WX)).
Proof.
  split; [apply spherical_quadrature_base|]. split; [|split].
  - intros n Y WY Z WZ Hn HY HZ.
    rewrite spherical_quadrature_step by assumption.
    rewrite HY. simpl. rewrite HZ. reflexivity.
  - intros n Hn. eexists. apply spherical_quadrature_invalid. assumption.
  - apply spherical_quadrature_total.
Qed.

(** Every pair of a Gauss-Jacobi node and a node of the lower dimension
    gives a node, and every node comes from such a pair. *)
Lemma spherical_quadrature_nodes (n : Z) (deg : nat)
    (Y X : list vec) (WY WX Z WZ : list R) :
  (1 < n)%Z ->
  build (n - 1)%Z deg = Ok (Y, WY) ->
  roots_jacobi deg (IZR (n - 3) / 2) (IZR (n - 3) / 2) = Ok (Z, WZ) ->
  build n deg = Ok (X, WX) ->
  (forall x, In x X <->
     exists z y, In z Z /\ In y Y /\
                 x = z :: map (fun yi => sqrt (1 - z ^ 2) * yi) y) /\
  length X = (length Z * length Y)%nat /\
  length WX = (length WZ * length WY)%nat.
Proof.
  intros Hn HY HZ HX.
  rewrite spherical_quadrature_step in HX by assumption.
  rewrite HY in HX. simpl in HX. rewrite HZ in HX. simpl in HX.
  inversion HX; subst X WX; clear HX.
  split; [|split].
  - intros x. rewrite in_map_iff. split.
    + intros [[z y] [Hx Hin]]. apply in_prod_iff in Hin.
      exists z, y. destruct Hin. repeat split; try assumption.
      symmetry. exact Hx.
    + intros [z [y [Hz [Hy ->]]]]. exists (z, y). split; [reflexivity|].
      apply in_prod; assumption.
  - rewrite length_map. apply length_prod.
  - rewrite length_map. apply length_prod.
Qed.

End Quadrature.

Lemma roots_jacobi_table_2 :
  roots_jacobi_table 2 (IZR (2 - 3) / 2) (IZR (2 - 3) / 2)
  = Ok ([- / sqrt 2; / sqrt 2], [PI / 2; PI / 2]).
Proof.
  unfold roots_jacobi_table. simpl.
  rewrite !Reqb_true by lra. reflexivity.
Qed.

(** The rule on the circle that the tabulated Gauss-Jacobi rule of order
    two gives: four nodes, each of weight [pi/2]. *)
Lemma spherical_quadrature_spec_witness :
  spherical_quadrature roots_jacobi_table 2 2 =
  Ok (map (fun zy => fst zy :: map (fun yi => sqrt (1 - fst zy ^ 2) * yi)
                                   (snd zy))
          (list_prod [- / sqrt 2; / sqrt 2] [[1]; [-1]]),
      map (fun w => fst w * snd w) (list_prod [PI / 2; PI / 2] [1; 1])).
Proof.
  destruct (spherical_quadrature_spec roots_jacobi_table 2)
    as [Hbase [Hstep _]].
  apply Hstep; [lia | exact Hbase | exact roots_jacobi_table_2].
Defined.

(** ** The vector finder *)

Lemma is_empty_false {A : Type} (l : list A) : l <> [] -> is_empty l = false.
Proof. destruct l; [contradiction | reflexivity]. Qed.

Section Finder.

Variable randn : nat -> nat -> nat -> list vec.
Variables (n : Z) (r : nat) (poly projection_poly : custom_polynomial).
Variables (accu : R) (max_size : Z) (inner : R) (W X : list vec) (WX : list R).

Let attempt_at (k : nat) : res attempt :=
  vec_finder_attempt randn n r poly projection_poly max_size inner W X WX k.

Let finder (tries k : nat) : res (option quadruple) * nat :=
  vec_finder randn n r poly projection_poly accu max_size inner W X WX tries k.

Lemma vec_finder_accept (tries k : nat) (q : quadruple) :
  attempt_at k = Ok (Accept q) -> finder tries k = (Ok (Some q), S k).
Proof.
  intros H. unfold finder. rewrite vec_finder_equation_1.
  fold (attempt_at k). rewrite H. reflexivity.
Qed.

Lemma vec_finder_raise (tries k : nat) (e : exn) :
  attempt_at k = Raise e -> finder tries k = (Raise e, S k).
Proof.
  intros H. unfold finder. rewrite vec_finder_equation_1.
  fold (attempt_at k). rewrite H. reflexivity.
Qed.

Lemma vec_finder_retry (tries k : nat) :
  attempt_at k = Ok Reject -> (S tries <= max_tries)%nat ->
  finder tries k = dropped (finder (S tries) (S k)).
Proof.
  intros H Hle. unfold finder. rewrite vec_finder_equation_1.
  fold (attempt_at k). rewrite H. simpl.
  destruct (le_dec (S tries) max_tries) as [L|L]; [|contradiction]. simpl.
  destruct (vec_finder _ _ _ _ _ _ _ _ _ _ _ (S tries) (S k)) as [[o|e] k'];
    reflexivity.
Qed.

Lemma vec_finder_exhausted (tries k : nat) :
  attempt_at k = Ok Reject -> (max_tries < S tries)%nat ->
  finder tries k
  = (Raise (PyException "Maximum number of tries exceeded"), S k).
Proof.
  intros H Hlt. unfold finder. rewrite vec_finder_equation_1.
  fold (attempt_at k). rewrite H. simpl.
  destruct (le_dec (S tries) max_tries) as [L|L]; [lia|]. reflexivity.
Qed.

Lemma dropped_dropped (o : res (option quadruple) * nat) :
  @dropped (option quadruple) quadruple nat (@dropped _ quadruple nat o)
  = dropped o.
Proof. destruct o as [[x|e] k]; reflexivity. Qed.

(** After [j >= 1] rejected batches the value of the call is the dropped
    value of the nested call that looks at the next batch. *)
Lemma vec_finder_after_rejects (j : nat) :
  forall tries k : nat,
    (tries + S j <= max_tries)%nat ->
    (forall i : nat, (i <= j)%nat -> attempt_at (k + i) = Ok Reject) ->
    finder tries k = dropped (finder (tries + S j) (k + S j)).
Proof.
  induction j as [|j IH]; intros tries k Hle Hrej.
  - rewrite vec_finder_retry; [| rewrite <- (Nat.add_0_r k); apply Hrej; lia | lia].
    replace (tries + 1)%nat with (S tries) by lia.
    replace (k + 1)%nat with (S k) by lia. reflexivity.
  - rewrite vec_finder_retry; [| rewrite <- (Nat.add_0_r k); apply Hrej; lia | lia].
    rewrite (IH (S tries) (S k)); [| lia |].
    + rewrite dropped_dropped.
      replace (S tries + S j)%nat with (tries + S (S j))%nat by lia.
      replace (S k + S j)%nat with (k + S (S j))%nat by lia. reflexivity.
    + intros i Hi. replace (S k + i)%nat with (k + S i)%nat by lia.
      apply Hrej. lia.
Qed.

(** The first batch is accepted: the quadruple is returned. *)
Lemma vec_finder_first_attempt (k : nat) (q : quadruple) :
  attempt_at k = Ok (Accept q) -> finder 1 k = (Ok (Some q), S k).
Proof. apply vec_finder_accept. Qed.

(** All ten batches are rejected: the search-exhausted exception. *)
Lemma vec_finder_all_rejected (k : nat) :
  (forall i : nat, (i < 10)%nat -> attempt_at (k + i) = Ok Reject) ->
  finder 1 k
  = (Raise (PyException "Maximum number of tries exceeded"), (k + 10)%nat).
Proof.
  intros Hrej.
  rewrite (vec_finder_after_rejects 8 1 k);
    [| unfold max_tries; lia | intros i Hi; apply Hrej; lia].
  rewrite vec_finder_exhausted; [| apply Hrej; lia | unfold max_tries; lia].
  simpl. do 2 f_equal. lia.
Qed.

(** C2: when the first batch is rejected and one of the batches 2 to 10
    is accepted, the call does not return the quadruple of that batch: the
    nested call that found it is not returned, and the value of the whole
    call is [None]. *)
Theorem vec_finder_later_attempt_returns_none (j k : nat) (q : quadruple) :
  (j < 9)%nat ->
  (forall i : nat, (i <= j)%nat -> attempt_at (k + i) = Ok Reject) ->
  attempt_at (k + S j) = Ok (Accept q) ->
  finder 1 k = (Ok None, (k + S (S j))%nat).
Proof.
  intros Hj Hrej Hacc.
  rewrite (vec_finder_after_rejects j 1 k);
    [| unfold max_tries; lia | assumption].
  rewrite (vec_finder_accept _ _ q Hacc). simpl. f_equal. lia.
Qed.

(** What [vec_finder] returns in terms of its batches: the quadruple only
    from the first batch, [None] from a later one, the exception after ten
    rejected batches. *)
Lemma vec_finder_cases (k : nat) (out : res (option quadruple)) (k' : nat) :
  finder 1 k = (out, k') ->
  (exists q, attempt_at k = Ok (Accept q) /\ out = Ok (Some q)) \/
  (exists j q, (j < 9)%nat /\ attempt_at (k + S j) = Ok (Accept q) /\
               out = Ok None) \/
  (exists j e, (j < 10)%nat /\ attempt_at (k + j) = Raise e /\ out = Raise e) \/
  ((forall i : nat, (i < 10)%nat -> attempt_at (k + i) = Ok Reject) /\
   out = Raise (PyException "Maximum number of tries exceeded")).
Proof.
  assert (Hgen : forall m tries j : nat,
    (m = max_tries - tries)%nat -> (1 <= tries)%nat -> (tries <= max_tries)%nat ->
    (tries = 1 + j)%nat ->
    (forall i, (i < j)%nat -> attempt_at (k + i) = Ok Reject) ->
    forall out k', finder tries (k + j) = (out, k') ->
    (exists q, attempt_at (k + j) = Ok (Accept q) /\ out = Ok (Some q)) \/
    (exists j' q, (j <= j')%nat /\ (j' < 9)%nat /\
                  attempt_at (k + S j') = Ok (Accept q) /\ out = Ok None) \/
    (exists j' e, (j' < 10)%nat /\ attempt_at (k + j') = Raise e /\
                  out = Raise e) \/
    ((forall i : nat, (i < 10)%nat -> attempt_at (k + i) = Ok Reject) /\
     out = Raise (PyException "Maximum number of tries exceeded"))).
  { induction m as [|m IH]; intros tries j Hm H1 H10 Hj Hrej o c Hrun.
    - assert (Hmax : tries = max_tries) by lia.
      destruct (attempt_at (k + j)) as [[q|]|e] eqn:Hat.
      + rewrite (vec_finder_accept _ _ q Hat) in Hrun. inversion Hrun.
        left. exists q. split; reflexivity.
      + rewrite vec_finder_exhausted in Hrun by (assumption || lia).
        inversion Hrun. right; right; right. split; [|reflexivity].
        intros i Hi. unfold max_tries in *.
        destruct (Nat.eq_dec i j) as [->|Ne]; [assumption|].
        apply Hrej. lia.
      + rewrite (vec_finder_raise _ _ e Hat) in Hrun. inversion Hrun.
        right; right; left. exists j, e. unfold max_tries in *.
        repeat split; [lia | assumption].
    - destruct (attempt_at (k + j)) as [[q|]|e] eqn:Hat.
      + rewrite (vec_finder_accept _ _ q Hat) in Hrun. inversion Hrun.
        left. exists q. split; reflexivity.
      + rewrite vec_finder_retry in Hrun by (assumption || lia).
        destruct (finder (S tries) (S (k + j))) as [o1 c1] eqn:Hnext.
        replace (S (k + j)) with (k + S j)%nat in Hnext by lia.
        assert (Hrej' : forall i, (i < S j)%nat -> attempt_at (k + i) = Ok Reject).
        { intros i Hi. destruct (Nat.eq_dec i j) as [->|Ne]; [assumption|].
          apply Hrej. lia. }
        destruct (IH (S tries) (S j) ltac:(lia) ltac:(lia) ltac:(lia)
                     ltac:(lia) Hrej' o1 c1 Hnext)
          as [[q [Hq Ho1]] | [[j' [q [Hj1 [Hj2 [Hq Ho1]]]]]
             | [[j' [e [Hj' [He Ho1]]]] | [Hall Ho1]]]];
          subst o1; simpl in Hrun; inversion Hrun.
        * right; left. exists j, q. unfold max_tries in *.
          repeat split; [lia | lia | assumption].
        * right; left. exists j', q. repeat split; [lia | lia | assumption].
        * right; right; left. exists j', e. repeat split; assumption.
        * right; right; right. split; [assumption | reflexivity].
      + rewrite (vec_finder_raise _ _ e Hat) in Hrun. inversion Hrun.
        right; right; left. exists j, e. unfold max_tries in *.
        repeat split; [lia | assumption]. }
  intros Hrun.
  replace k with (k + 0)%nat in Hrun by lia.
  destruct (Hgen (max_tries - 1)%nat 1%nat 0%nat eq_refl ltac:(lia)
                 ltac:(unfold max_tries; lia) eq_refl
                 ltac:(intros i Hi; lia) out k' Hrun)
    as [[q [Hq Ho]] | [[j' [q [_ [Hj2 [Hq Ho]]]]] | [H3 | H4]]].
  - left. exists q. rewrite Nat.add_0_r in Hq. split; assumption.
  - right; left. exists j', q. repeat split; assumption.
  - right; right; left. exact H3.
  - right; right; right. exact H4.
Qed.

Lemma fold_left_Rmax_ge_init (l : list R) (a : R) : a <= fold_left Rmax l a.
Proof.
  revert a. induction l as [|x l IH]; intros a; simpl; [lra|].
  eapply Rle_trans; [apply (Rmax_l a x) | apply IH].
Qed.

Lemma fold_left_Rmax_ge (l : list R) (a x : R) :
  In x l -> x <= fold_left Rmax l a.
Proof.
  revert a. induction l as [|y l IH]; intros a Hin; simpl in *; [contradiction|].
  destruct Hin as [-> | Hin]; [|apply IH; assumption].
  eapply Rle_trans; [apply (Rmax_r a x) | apply fold_left_Rmax_ge_init].
Qed.

Lemma row_max_ge (l : list R) (x : R) : In x l -> x <= row_max l.
Proof.
  destruct l as [|a l]; simpl; [contradiction|].
  intros [-> | Hin]; [apply fold_left_Rmax_ge_init | apply fold_left_Rmax_ge; assumption].
Qed.

Lemma filter_none {A : Type} (p : A -> bool) (l : list A) :
  (forall a, In a l -> p a = false) -> filter p l = [].
Proof.
  induction l as [|a l IH]; intros H; simpl; [reflexivity|].
  rewrite (H a (or_introl eq_refl)). apply IH.
  intros b Hb. apply H. right. assumption.
Qed.

(** The diversity filter keeps nothing when every sampled direction is
    at or above the threshold against some basis direction. *)
Lemma diversity_filter_empty (V : list vec) :
  (forall v, In v V -> exists w, In w W /\ inner <= Rabs (dot v w)) ->
  filter (fun v => Rltb (row_max (map (fun w => Rabs (dot v w)) W)) inner) V
  = [].
Proof.
  intros H. apply filter_none. intros v Hv.
  destruct (H v Hv) as [w [Hw Hge]].
  apply Rltb_false. eapply Rle_trans; [exact Hge|].
  apply row_max_ge. apply (in_map (fun w => Rabs (dot v w))). assumption.
Qed.

(** C10: with a basis that is not empty, a batch all of whose directions
    have an absolute inner product at or above [inner] with some basis
    direction leaves no candidate; the call then ends in an exception
    after this one batch, whatever the number of tries left, and when
    the norm of the residual could be computed the exception is the one
    of [np.argmax] on an empty array. *)
Theorem vec_finder_no_survivor (tries k : nat) (V : list vec) :
  W <> [] ->
  sample_spherical randn k n max_size = Ok V ->
  (forall v, In v V -> exists w, In w W /\ inner <= Rabs (dot v w)) ->
  (exists e, finder tries k = (Raise e, S k)) /\
  (forall lrnorm,
     poly_Lr_norm (sustract_polynomials poly projection_poly) X WX r
     = Ok lrnorm ->
     finder tries k
     = (Raise (ValueError "attempt to get an argmax of an empty sequence"),
        S k)).
Proof.
  intros HW HV Hall.
  assert (Hat : attempt_at k =
    (lrnorm <- poly_Lr_norm (sustract_polynomials poly projection_poly) X WX r ;;
     Raise (ValueError "attempt to get an argmax of an empty sequence"))).
  { unfold attempt_at, vec_finder_attempt. rewrite HV. cbn [bind].
    rewrite (is_empty_false W HW). cbn [negb].
    rewrite (diversity_filter_empty V Hall).
    destruct (poly_Lr_norm _ X WX r) as [lr|e]; reflexivity. }
  split.
  - destruct (poly_Lr_norm (sustract_polynomials poly projection_poly) X WX r)
      as [lr|e]; simpl in Hat; eexists; apply vec_finder_raise; exact Hat.
  - intros lr Hlr. rewrite Hlr in Hat. simpl in Hat.
    apply vec_finder_raise. exact Hat.
Qed.

End Finder.

(** ** The projector *)

Section Projector.

Variable randn : nat -> nat -> nat -> list vec.
Variable matrix_rank : list (list R) -> nat.
Variable linalg_inv : list (list R) -> res (list (list R)).
Variables (X : list vec) (WX : list R) (n : Z) (r : nat).
Variables (poly : custom_polynomial) (max_size : Z) (inner accu : R).

Let projector (limit : nat) (b : basis) (projection_poly : custom_polynomial)
    (k : nat) : res (option quintuple) * basis * nat :=
  add_vector randn matrix_rank linalg_inv limit b X WX n r poly
             projection_poly max_size inner accu k.

Let finder (b : basis) (projection_poly : custom_polynomial) (k : nat)
  : res (option quadruple) * nat :=
  vec_finder randn n r poly projection_poly accu max_size inner (W b) X WX 1 k.

(** A quintuple is returned only by the call that was handed the accepted
    candidate itself, and it is the basis extended by that candidate. *)
Lemma add_vector_returns (limit : nat) (b : basis)
    (projection_poly : custom_polynomial) (k : nat)
    (W' : list vec) (fW' : list R) (Q' : list custom_polynomial)
    (err : fl) (p : custom_polynomial) (b' : basis) (k' : nat) :
  projector limit b projection_poly k = (Ok (Some (W', fW', Q', err, p)), b', k') ->
  exists v fv q,
    finder b projection_poly k = (Ok (Some (v, fv, q, err)), k') /\
    matrix_rank (gram (W b ++ [v]) (degree poly))
    = length (gram (W b ++ [v]) (degree poly)) /\
    W' = W b ++ [v] /\ fW' = fW b ++ [fv] /\ Q' = Q b ++ [q] /\
    b' = {| W := W'; fW := fW'; Q := Q' |}.
Proof.
  unfold projector, finder. destruct limit as [|limit]; simpl; [discriminate|].
  destruct (vec_finder _ _ _ _ _ _ _ _ _ _ _ 1 k) as [[[[[[v fv] q] lr]|]|e] k1];
    try discriminate.
  destruct (Nat.eqb_spec (matrix_rank (gram (W b ++ [v]) (degree poly)))
                         (length (gram (W b ++ [v]) (degree poly)))) as [E|E];
    simpl.
  - destruct (linalg_inv _) as [im|e]; simpl; [|discriminate].
    destruct (build_projection _ _) as [pp|e]; [|discriminate].
    intros H. inversion H; subst. exists v, fv, q. repeat split. assumption.
  - destruct (add_vector _ _ _ limit _ _ _ _ _ _ _ _ _ _ k1) as [[[o|e] b1] k2];
      discriminate.
Qed.

(** The call with a candidate whose Gram matrix is singular. *)
Lemma add_vector_singular (limit : nat) (b : basis)
    (projection_poly : custom_polynomial) (k k1 : nat)
    (v : vec) (fv : R) (q : custom_polynomial) (lrnorm : fl) :
  finder b projection_poly k = (Ok (Some (v, fv, q, lrnorm)), k1) ->
  matrix_rank (gram (W b ++ [v]) (degree poly))
  <> length (gram (W b ++ [v]) (degree poly)) ->
  projector (S limit) b projection_poly k =
  match projector limit b projection_poly k1 with
  | (Raise e, b', k2) => (Raise e, b', k2)
  | (Ok _, b', k2) => (Ok None, b', k2)
  end.
Proof.
  unfold projector, finder. intros Hf Hrank. simpl. rewrite Hf.
  apply Nat.eqb_neq in Hrank. rewrite Hrank. reflexivity.
Qed.

(** C3: when the Gram matrix of the basis with the candidate is
    singular, the candidate is not appended and another one is asked for
    in a nested call, but what the nested call returns is not returned:
    the caller gets [None] where the nested call ended normally (with the
    basis as the nested call left it), and the exception where it raised;
    it never gets a quintuple. *)
Theorem add_vector_singular_returns_none (limit : nat) (b : basis)
    (projection_poly : custom_polynomial) (k k1 : nat)
    (v : vec) (fv : R) (q : custom_polynomial) (lrnorm : fl) :
  finder b projection_poly k = (Ok (Some (v, fv, q, lrnorm)), k1) ->
  matrix_rank (gram (W b ++ [v]) (degree poly))
  <> length (gram (W b ++ [v]) (degree poly)) ->
  (forall x b' k2,
     projector limit b projection_poly k1 = (Ok x, b', k2) ->
     projector (S limit) b projection_poly k = (Ok None, b', k2)) /\
  (forall out b' k2,
     projector (S limit) b projection_poly k = (out, b', k2) ->
     out = Ok None \/ exists e, out = Raise e).
Proof.
  intros Hf Hrank. split.
  - intros x b' k2 Hnested.
    rewrite (add_vector_singular limit b projection_poly k k1 v fv q lrnorm Hf Hrank).
    rewrite Hnested. reflexivity.
  - intros out b' k2.
    rewrite (add_vector_singular limit b projection_poly k k1 v fv q lrnorm Hf Hrank).
    destruct (projector limit b projection_poly k1) as [[[x|e] b1] k3];
      intros H; inversion H; [left; reflexivity | right; eexists; reflexivity].
Qed.

End Projector.

(** ** The greedy loop *)

Lemma basis_eta (b : basis) : {| W := W b; fW := fW b; Q := Q b |} = b.
Proof. destruct b; reflexivity. Qed.

Section Decomposer.

Variable randn : nat -> nat -> nat -> list vec.
Variable matrix_rank : list (list R) -> nat.
Variable linalg_inv : list (list R) -> res (list (list R)).
Variables (limit : nat) (X : list vec) (WX : list R) (n : Z) (r : nat).
Variables (poly : custom_polynomial) (max_size : Z) (inner accu eps tol : R).
Variables (max_iter max_vec : nat).

Let body (s : loop_state) (k : nat) : res step * nat :=
  greedy_body randn matrix_rank linalg_inv limit X WX n r poly max_size
              inner accu tol max_iter max_vec s k.

Let projector (s : loop_state) (k : nat)
  : res (option quintuple) * basis * nat :=
  add_vector randn matrix_rank linalg_inv limit (vectors s) X WX n r poly
             (projection s) max_size inner accu k.

Let reaches : loop_state -> nat -> loop_state -> nat -> Prop :=
  loop_reaches randn matrix_rank linalg_inv limit X WX n r poly max_size
               inner accu eps tol max_iter max_vec.

(** A pass that ends normally: the projector returned a quintuple, and
    the pass is either stagnant or a commit. *)
Lemma greedy_body_cases (s : loop_state) (k : nat) (st : step) (k' : nat) :
  body s k = (Ok st, k') ->
  exists v fv q err p b',
    projector s k =
    (Ok (Some (W (vectors s) ++ [v], fW (vectors s) ++ [fv],
               Q (vectors s) ++ [q], err, p)), b', k') /\
    ((fl_leb (fl_abs (fl_sub (error s) err)) (Fin tol) = true /\
      st = (if (max_iter <=? iteration s + 1)%nat
            then Break MaxIter (stagnant_state s p)
            else if (max_vec <=? length (W (vectors s)))%nat
                 then Break BasisFull (stagnant_state s p)
                 else Continue (stagnant_state s p))) \/
     (fl_leb (fl_abs (fl_sub (error s) err)) (Fin tol) = false /\
      st = (if (max_vec <=? length (W (vectors s) ++ [v]))%nat
            then Break BasisFull (committed_state s v fv q err p)
            else Continue (committed_state s v fv q err p)))).
Proof.
  unfold body, greedy_body. fold (projector s k).
  destruct (projector s k) as [[[[[[[[W' fW'] Q'] err] p]|]|e] b'] k1] eqn:Hp;
    try discriminate.
  unfold projector in Hp.
  destruct (add_vector_returns _ _ _ _ _ _ _ _ _ _ _ _ _ _ _ _ _ _ _ _ _ _ Hp)
    as [v [fv [q [_ [_ [HW [HfW [HQ _]]]]]]]].
  subst W' fW' Q'. intros H.
  exists v, fv, q, err, p, b'.
  destruct (fl_leb (fl_abs (fl_sub (error s) err)) (Fin tol)) eqn:Hd.
  - assert (Hs : {| vectors := {| W := removelast (W (vectors s) ++ [v]);
                                  fW := removelast (fW (vectors s) ++ [fv]);
                                  Q := removelast (Q (vectors s) ++ [q]) |};
                    error := error s; projection := p;
                    iteration := iteration s + 1 |} = stagnant_state s p).
    { rewrite !removelast_last. rewrite basis_eta. reflexivity. }
    rewrite Hs in H. cbn [vectors stagnant_state iteration] in H.
    assert (Hk : k1 = k' /\
                 st = (if (max_iter <=? iteration s + 1)%nat
                       then Break MaxIter (stagnant_state s p)
                       else if (max_vec <=? length (W (vectors s)))%nat
                            then Break BasisFull (stagnant_state s p)
                            else Continue (stagnant_state s p))).
    { destruct (max_iter <=? iteration s + 1)%nat;
        [inversion H; split; reflexivity|].
      destruct (max_vec <=? length (W (vectors s)))%nat;
        inversion H; split; reflexivity. }
    destruct Hk as [-> ->]. split; [reflexivity|]. left. split; reflexivity.
  - cbn [vectors W] in H. fold (committed_state s v fv q err p) in H.
    assert (Hk : k1 = k' /\
                 st = (if (max_vec <=? length (W (vectors s) ++ [v]))%nat
                       then Break BasisFull (committed_state s v fv q err p)
                       else Continue (committed_state s v fv q err p))).
    { destruct (max_vec <=? length (W (vectors s) ++ [v]))%nat;
        inversion H; split; reflexivity. }
    destruct Hk as [-> ->]. split; [reflexivity|]. right. split; reflexivity.
Qed.

(** C4: in a pass whose improvement is at most the tolerance, the error
    and the three basis lists are put back and the counter advances, but
    the projection polynomial is the one that the projector has just
    returned for the basis with the candidate, not the one the pass
    started from. *)
Theorem stagnant_pass_keeps_new_projection (s : loop_state) (k : nat)
    (st : step) (k' : nat) (W' : list vec) (fW' : list R)
    (Q' : list custom_polynomial) (err : fl) (p : custom_polynomial)
    (b' : basis) :
  projector s k = (Ok (Some (W', fW', Q', err, p)), b', k') ->
  fl_leb (fl_abs (fl_sub (error s) err)) (Fin tol) = true ->
  body s k = (Ok st, k') ->
  vectors (step_state st) = vectors s /\
  error (step_state st) = error s /\
  iteration (step_state st) = (iteration s + 1)%nat /\
  projection (step_state st) = p.
Proof.
  intros Hp Hd Hb.
  destruct (greedy_body_cases s k st k' Hb)
    as [v [fv [q [err1 [p1 [b1 [Hp1 Hcases]]]]]]].
  rewrite Hp in Hp1. inversion Hp1; subst.
  destruct Hcases as [[_ Hst] | [Hd' _]]; [|congruence].
  subst st.
  destruct (max_iter <=? iteration s + 1)%nat;
    [repeat split|].
  destruct (max_vec <=? length (W (vectors s)))%nat; repeat split.
Qed.

(** One pass changes the size of the basis by nothing or by one, and a
    pass that starts below [max_vec] ends at or below it, with the
    basis-full [break] exactly when it ends at [max_vec]. *)
Lemma greedy_body_size (s : loop_state) (k : nat) (st : step) (k' : nat) :
  (length (W (vectors s)) < max_vec)%nat ->
  body s k = (Ok st, k') ->
  (length (W (vectors (step_state st))) = length (W (vectors s)) \/
   length (W (vectors (step_state st))) = S (length (W (vectors s)))) /\
  (length (W (vectors (step_state st))) <= max_vec)%nat /\
  ((max_vec <= length (W (vectors (step_state st))))%nat <->
   st = Break BasisFull (step_state st)) /\
  (forall s', st = Continue s' -> (length (W (vectors s')) < max_vec)%nat).
Proof.
  intros Hlt Hb.
  destruct (greedy_body_cases s k st k' Hb)
    as [v [fv [q [err [p [b' [_ [[_ Hst] | [_ Hst]]]]]]]]]; subst st.
  - destruct (max_iter <=? iteration s + 1)%nat.
    + cbn [step_state stagnant_state vectors].
      repeat split; try (left; reflexivity); try lia; try discriminate.
    + destruct (Nat.leb_spec max_vec (length (W (vectors s)))); [lia|].
      cbn [step_state stagnant_state vectors].
      repeat split; try (left; reflexivity); try lia; try discriminate.
      intros s' Hs'. inversion Hs'. cbn. lia.
  - rewrite length_app in *. cbn [length] in *.
    destruct (Nat.leb_spec max_vec (length (W (vectors s)) + 1)).
    + cbn [step_state committed_state vectors W].
      rewrite length_app. cbn [length].
      repeat split; try (right; lia); try lia; try discriminate.
    + cbn [step_state committed_state vectors W].
      rewrite length_app. cbn [length].
      repeat split; try (right; lia); try lia; try discriminate.
      intros s' Hs'. inversion Hs'. cbn. rewrite length_app. cbn. lia.
Qed.

(** At the head of the loop the basis is smaller than [max_vec]. *)
Lemma loop_reaches_size (s0 : loop_state) (k0 : nat) (s : loop_state) (k : nat) :
  (length (W (vectors s0)) < max_vec)%nat ->
  reaches s0 k0 s k -> (length (W (vectors s)) < max_vec)%nat.
Proof.
  intros H0 Hr. induction Hr as [|s k s' k' _ IH _ Hbody]; [assumption|].
  destruct (greedy_body_size s k (Continue s') k' IH Hbody) as [_ [_ [_ Hc]]].
  apply Hc. reflexivity.
Qed.

(** A finished run of the loop ends at a state that the loop reaches,
    either through the test of the [while] or through a [break]. *)
Lemma greedy_loop_end (fuel : nat) :
  forall (s0 : loop_state) (k0 : nat) (s : loop_state) (k : nat)
         (why : reason) (s' : loop_state),
    reaches s0 k0 s k ->
    greedy_loop randn matrix_rank linalg_inv fuel limit X WX n r poly max_size
                inner accu eps tol max_iter max_vec s k = Some (Ok (why, s')) ->
    (why = Converged /\ fl_geb (error s') (Fin eps) = false /\
     exists k1, reaches s0 k0 s' k1) \/
    (exists s1 k1 k2,
       reaches s0 k0 s1 k1 /\ fl_geb (error s1) (Fin eps) = true /\
       body s1 k1 = (Ok (Break why s'), k2)).
Proof.
  induction fuel as [|fuel IH]; intros s0 k0 s k why s' Hr; cbn [greedy_loop].
  - destruct (fl_geb (error s) (Fin eps)) eqn:Hg; [intros H; discriminate H|].
    intros H. inversion H; subst. left. repeat split; [assumption|].
    exists k. assumption.
  - destruct (fl_geb (error s) (Fin eps)) eqn:Hg.
    + fold (body s k).
      destruct (body s k) as [[[s1|why1 s1]|e] k1] eqn:Hb;
        [| |intros H; discriminate H].
      * intros H. apply (IH s0 k0 s1 k1 why s'); [|exact H].
        eapply reaches_next; eassumption.
      * intros H. inversion H; subst. right. exists s, k, k1.
        repeat split; assumption.
    + intros H. inversion H; subst. left. repeat split; [assumption|].
      exists k. assumption.
Qed.

End Decomposer.

(** The values with which the loop is entered. *)
Lemma greedy_init_inv (roots_jacobi : nat -> R -> R -> res (list R * list R))
    (n : Z) (r : nat) (poly : custom_polynomial) (accu : R)
    (max_vec : nat) (X : list vec) (WX : list R) (max_size : Z) (s0 : loop_state) :
  (1 <= n)%Z ->
  greedy_init roots_jacobi n r poly accu = Ok (max_vec, X, WX, max_size, s0) ->
  max_vec = comb (Z.to_nat (n + Z.of_nat (degree poly) - 1)) (degree poly) /\
  (1 <= max_vec)%nat /\
  spherical_quadrature roots_jacobi n (degree poly) = Ok (X, WX) /\
  s0 = {| vectors := {| W := []; fW := []; Q := [] |}; error := PInf;
          projection := sustract_polynomials poly poly; iteration := 1 |}.
Proof.
  intros Hn. unfold greedy_init, math_comb.
  replace (n + Z.of_nat (degree poly) - 1 <? 0)%Z with false
    by (symmetry; apply Z.ltb_ge; lia).
  replace (Z.of_nat (degree poly) <? 0)%Z with false
    by (symmetry; apply Z.ltb_ge; lia).
  cbn [bind]. rewrite Nat2Z.id.
  destruct (spherical_quadrature roots_jacobi n (degree poly)) as [[X1 WX1]|e];
    cbn [bind]; [|discriminate].
  destruct (sample_size n (degree poly) r accu) as [size|e];
    cbn [bind]; [|discriminate].
  intros H. inversion H; subst. repeat split.
  apply comb_pos. lia.
Qed.

(** C7: in a run of [greedy_approximation] with [n >= 1], the number of
    basis vectors is below C(n+deg-1, deg) whenever the loop is at its
    head; a pass leaves it as it is or adds one, never takes it above
    C(n+deg-1, deg), and ends in the basis-full [break] exactly when it
    takes it to that bound; so a run that ends normally ends with at most
    that many vectors, and with that many exactly when it ends for the
    basis-full reason. *)
Theorem greedy_basis_size_bounded
    (roots_jacobi : nat -> R -> R -> res (list R * list R))
    (randn : nat -> nat -> nat -> list vec)
    (matrix_rank : list (list R) -> nat)
    (linalg_inv : list (list R) -> res (list (list R)))
    (limit : nat) (n : Z) (r : nat) (poly : custom_polynomial)
    (accu inner eps tol : R) (max_iter : nat)
    (max_vec : nat) (X : list vec) (WX : list R) (max_size : Z)
    (s0 : loop_state) :
  (1 <= n)%Z ->
  greedy_init roots_jacobi n r poly accu = Ok (max_vec, X, WX, max_size, s0) ->
  max_vec = comb (Z.to_nat (n + Z.of_nat (degree poly) - 1)) (degree poly) /\
  (forall (s : loop_state) (k : nat),
     loop_reaches randn matrix_rank linalg_inv limit X WX n r poly max_size
                  inner accu eps tol max_iter max_vec s0 0 s k ->
     (length (W (vectors s)) < max_vec)%nat /\
     forall (st : step) (k' : nat),
       greedy_body randn matrix_rank linalg_inv limit X WX n r poly max_size
                   inner accu tol max_iter max_vec s k = (Ok st, k') ->
       (length (W (vectors (step_state st))) = length (W (vectors s)) \/
        length (W (vectors (step_state st))) = S (length (W (vectors s)))) /\
       (length (W (vectors (step_state st))) <= max_vec)%nat /\
       ((max_vec <= length (W (vectors (step_state st))))%nat <->
        st = Break BasisFull (step_state st))) /\
  (forall (fuel : nat) (why : reason) (s' : loop_state),
     greedy_run roots_jacobi randn matrix_rank linalg_inv fuel limit n r poly
                accu inner eps tol max_iter = Some (Ok (why, s')) ->
     (length (W (vectors s')) <= max_vec)%nat /\
     ((max_vec <= length (W (vectors s')))%nat <-> why = BasisFull)).
Proof.
  intros Hn Hinit.
  destruct (greedy_init_inv roots_jacobi n r poly accu max_vec X WX max_size s0
              Hn Hinit) as [Hmax [Hpos [_ Hs0]]].
  assert (H0 : (length (W (vectors s0)) < max_vec)%nat)
    by (rewrite Hs0; cbn; lia).
  split; [exact Hmax|]. split.
  - intros s k Hr.
    assert (Hlt := loop_reaches_size randn matrix_rank linalg_inv limit X WX n r
                     poly max_size inner accu eps tol max_iter max_vec
                     s0 0%nat s k H0 Hr).
    split; [exact Hlt|]. intros st k' Hb.
    destruct (greedy_body_size randn matrix_rank linalg_inv limit X WX n r poly
                max_size inner accu tol max_iter max_vec s k st k' Hlt Hb)
      as [H1 [H2 [H3 _]]].
    repeat split; try assumption; apply H3.
  - intros fuel why s' Hrun. unfold greedy_run in Hrun. rewrite Hinit in Hrun.
    destruct (greedy_loop_end randn matrix_rank linalg_inv limit X WX n r poly
                max_size inner accu eps tol max_iter max_vec fuel
                s0 0%nat s0 0%nat why s' (reaches_start _ _ _ _ _ _ _ _ _ _ _ _ _ _ _ _ _ _) Hrun)
      as [[Hwhy [_ [k1 Hr]]] | [s1 [k1 [k2 [Hr [_ Hb]]]]]].
    + assert (Hlt := loop_reaches_size randn matrix_rank linalg_inv limit X WX n r
                       poly max_size inner accu eps tol max_iter max_vec
                       s0 0%nat s' k1 H0 Hr).
      subst why. split; [lia|]. split; [lia | discriminate].
    + assert (Hlt := loop_reaches_size randn matrix_rank linalg_inv limit X WX n r
                       poly max_size inner accu eps tol max_iter max_vec
                       s0 0%nat s1 k1 H0 Hr).
      destruct (greedy_body_size randn matrix_rank linalg_inv limit X WX n r poly
                  max_size inner accu tol max_iter max_vec s1 k1 (Break why s') k2
                  Hlt Hb) as [_ [H2 [H3 _]]].
      cbn [step_state] in *. split; [exact H2|]. split.
      * intros Hge. apply H3 in Hge. inversion Hge. reflexivity.
      * intros ->. apply H3. reflexivity.
Qed.

Section Termination.

Variable randn : nat -> nat -> nat -> list vec.
Variable matrix_rank : list (list R) -> nat.
Variable linalg_inv : list (list R) -> res (list (list R)).
Variables (limit : nat) (X : list vec) (WX : list R) (n : Z) (r : nat).
Variables (poly : custom_polynomial) (max_size : Z) (inner accu eps tol : R).
Variables (max_iter max_vec : nat).

(** The number of passes that are left at most: every pass that goes on
    either fills one of the free places of the basis or uses one of the
    iterations that are allowed. *)
Let passes_left (s : loop_state) : nat :=
  ((max_vec - length (W (vectors s))) + (max_iter - iteration s))%nat.

Lemma greedy_body_progress (s : loop_state) (k : nat) (s' : loop_state) (k' : nat) :
  greedy_body randn matrix_rank linalg_inv limit X WX n r poly max_size
              inner accu tol max_iter max_vec s k = (Ok (Continue s'), k') ->
  (length (W (vectors s')) < max_vec)%nat /\
  (passes_left s' < passes_left s)%nat.
Proof.
  intros Hb. unfold passes_left.
  destruct (greedy_body_cases _ _ _ _ _ _ _ _ _ _ _ _ _ _ _ _ _ _ _ Hb)
    as [v [fv [q [err [p [b' [_ [[_ Hst] | [_ Hst]]]]]]]]].
  - destruct (Nat.leb_spec max_iter (iteration s + 1)); [discriminate|].
    destruct (Nat.leb_spec max_vec (length (W (vectors s)))); [discriminate|].
    inversion Hst; subst s'. cbn [stagnant_state vectors iteration]. lia.
  - destruct (Nat.leb_spec max_vec (length (W (vectors s) ++ [v])));
      [discriminate|].
    inversion Hst; subst s'. cbn [committed_state vectors iteration W] in *.
    rewrite length_app in *. cbn [length] in *. lia.
Qed.

(** The loop ends: a number of passes above the free places of the basis
    plus the iterations allowed is never used up. *)
Lemma greedy_loop_terminates (fuel : nat) :
  forall (s : loop_state) (k : nat),
    (passes_left s < fuel)%nat ->
    exists out,
      greedy_loop randn matrix_rank linalg_inv fuel limit X WX n r poly
                  max_size inner accu eps tol max_iter max_vec s k = Some out.
Proof.
  induction fuel as [|fuel IH]; intros s k Hfuel; [lia|].
  cbn [greedy_loop].
  destruct (fl_geb (error s) (Fin eps)); [|eexists; reflexivity].
  destruct (greedy_body randn matrix_rank linalg_inv limit X WX n r poly
              max_size inner accu tol max_iter max_vec s k)
    as [[[s'|why s']|e] k'] eqn:Hb; try (eexists; reflexivity).
  apply IH. destruct (greedy_body_progress s k s' k' Hb) as [_ Hlt]. lia.
Qed.

End Termination.

(** The basis lists at the end of a call of [add_vector], however the
    call ends, hold what they held before, with at most one entry more. *)
Lemma add_vector_grows_by_at_most_one
    (randn : nat -> nat -> nat -> list vec)
    (matrix_rank : list (list R) -> nat)
    (linalg_inv : list (list R) -> res (list (list R)))
    (X : list vec) (WX : list R) (n : Z) (r : nat)
    (poly projection_poly : custom_polynomial) (max_size : Z) (inner accu : R)
    (limit : nat) :
  forall (b : basis) (k : nat) (out : res (option quintuple)) (b' : basis)
         (k' : nat),
    add_vector randn matrix_rank linalg_inv limit b X WX n r poly
               projection_poly max_size inner accu k = (out, b', k') ->
    b' = b \/
    exists v fv q,
      b' = {| W := W b ++ [v]; fW := fW b ++ [fv]; Q := Q b ++ [q] |}.
Proof.
  induction limit as [|limit IH]; intros b k out b' k'; cbn [add_vector].
  - intros H. inversion H. left. reflexivity.
  - destruct (vec_finder _ _ _ _ _ _ _ _ _ _ _ 1 k)
      as [[[[[[v fv] q] lr]|]|e] k1].
    + destruct (negb _).
      * destruct (add_vector _ _ _ limit b _ _ _ _ _ _ _ _ _ k1)
          as [[o1 b1] k2] eqn:Hn.
        specialize (IH b k1 o1 b1 k2 Hn).
        destruct o1; intros H; inversion H; subst; exact IH.
      * destruct (bind _ _); intros H; inversion H; right;
          exists v, fv, q; reflexivity.
    + intros H. inversion H. left. reflexivity.
    + intros H. inversion H. left. reflexivity.
Qed.

(** A run of [greedy_approximation] ends as soon as the passes allowed
    are more than the size of the space plus the iterations allowed. *)
Lemma greedy_run_terminates
    (roots_jacobi : nat -> R -> R -> res (list R * list R))
    (randn : nat -> nat -> nat -> list vec)
    (matrix_rank : list (list R) -> nat)
    (linalg_inv : list (list R) -> res (list (list R)))
    (fuel limit : nat) (n : Z) (r : nat) (poly : custom_polynomial)
    (accu inner eps tol : R) (max_iter : nat) :
  (comb (Z.to_nat (n + Z.of_nat (degree poly) - 1)) (degree poly) + max_iter
   < fuel)%nat ->
  exists out,
    greedy_run roots_jacobi randn matrix_rank linalg_inv fuel limit n r poly
               accu inner eps tol max_iter = Some out.
Proof.
  intros Hfuel. unfold greedy_run.
  destruct (greedy_init roots_jacobi n r poly accu)
    as [[[[[max_vec X] WX] max_size] s0]|e] eqn:Hinit; [|eexists; reflexivity].
  apply greedy_loop_terminates.
  unfold greedy_init, math_comb in Hinit.
  destruct (n + Z.of_nat (degree poly) - 1 <? 0)%Z; [discriminate|].
  destruct (Z.of_nat (degree poly) <? 0)%Z; [discriminate|].
  cbn [bind] in Hinit. rewrite Nat2Z.id in Hinit.
  destruct (spherical_quadrature roots_jacobi n (degree poly)) as [[X1 WX1]|e];
    cbn [bind] in Hinit; [|discriminate].
  destruct (sample_size n (degree poly) r accu) as [size|e];
    cbn [bind] in Hinit; [|discriminate].
  inversion Hinit; subst. cbn [vectors W iteration length]. lia.
Qed.

(** ** Worked examples on the circle *)

Lemma det_1 (a : R) : det [[a]] = a.
Proof. unfold det. simpl. ring. Qed.

Lemma det_2 (a b c d : R) : det [[a; b]; [c; d]] = a * d - b * c.
Proof. unfold det. simpl. ring. Qed.

Lemma inv_sqrt2_sqr : / sqrt 2 * / sqrt 2 = 1 / 2.
Proof.
  rewrite <- Rinv_mult. rewrite sqrt_sqrt by lra. lra.
Qed.

Lemma sqrt_half (z : R) : z * z = 1 / 2 -> sqrt (1 - z ^ 2) = / sqrt 2.
Proof.
  intros Hz. replace (1 - z ^ 2) with (/ 2) by (simpl; rewrite Rmult_1_r, Hz; lra).
  apply sqrt_inv.
Qed.

Lemma spherical_quadrature_circle :
  spherical_quadrature roots_jacobi_table 2 2 = Ok (circle_nodes, circle_weights).
Proof.
  rewrite spherical_quadrature_step by lia.
  change (2 - 1)%Z with 1%Z. rewrite spherical_quadrature_base. cbn [bind].
  rewrite roots_jacobi_table_2. cbn [bind].
  unfold circle_nodes, circle_weights, custom_flatten.
  cbn [list_prod map app fst snd].
  rewrite (sqrt_half (- / sqrt 2)) by (rewrite <- inv_sqrt2_sqr; ring).
  rewrite (sqrt_half (/ sqrt 2)) by apply inv_sqrt2_sqr.
  rewrite !Rmult_1_r.
  replace (/ sqrt 2 * -1) with (- / sqrt 2) by ring. reflexivity.
Qed.

Lemma sphere_surface_area_1 : sphere_surface_area 1 = Ok (2 * PI).
Proof.
  unfold sphere_surface_area. change (1 + 1)%Z with 2%Z.
  rewrite ball_volume_step by lia. change (2 - 2)%Z with 0%Z.
  rewrite ball_volume_0. cbn [bind]. f_equal. field.
Qed.

Lemma parallelized_evaluation_all (p : custom_polynomial) (V : list vec) :
  (forall v, In v V -> length v = num_var p) ->
  parallelized_evaluation p V = Ok (map (f p) V).
Proof.
  unfold parallelized_evaluation.
  induction V as [|v V IH]; intros H; simpl; [reflexivity|].
  unfold evaluate_pol at 1, evaluate.
  rewrite (H v (or_introl eq_refl)). rewrite Nat.eqb_refl. cbn [negb bind].
  rewrite IH; [reflexivity|]. intros w Hw. apply H. right. assumption.
Qed.

(** The Lr-norm for [r = 1] on the circle: the mean of the values at
    the four nodes. *)
Lemma poly_Lr_norm_circle (p : custom_polynomial) :
  num_var p = 2%nat ->
  poly_Lr_norm p circle_nodes circle_weights 1 =
  Ok (Fin ((f p [- / sqrt 2; / sqrt 2] + f p [- / sqrt 2; - / sqrt 2] +
            f p [/ sqrt 2; / sqrt 2] + f p [/ sqrt 2; - / sqrt 2]) / 4)).
Proof.
  intros Hp. unfold poly_Lr_norm. rewrite Hp.
  change (Z.of_nat 2 - 1)%Z with 1%Z. rewrite sphere_surface_area_1.
  cbn [bind].
  rewrite parallelized_evaluation_all.
  2:{ intros v Hv. rewrite Hp. unfold circle_nodes in Hv. simpl in Hv.
      repeat (destruct Hv as [<- | Hv]; [reflexivity|]). contradiction. }
  cbn [bind]. assert (HPI := PI_RGT_0).
  rewrite py_inv_ok by lra. cbn [bind].
  change (INR 1) with 1. rewrite py_inv_ok by lra. cbn [bind].
  replace (1 / 1) with 1 by field. rewrite float_power_one.
  do 2 f_equal. unfold circle_nodes, circle_weights, np_mul, np_sum.
  cbn [map combine fold_right fst snd]. simpl pow. field. lra.
Qed.

(** The Lr-norm on the circle for an exponent [r >= 1]: the root of
    order [r] of the mean of the powers [r] of the values at the four
    nodes. *)
Lemma poly_Lr_norm_circle_power (p : custom_polynomial) (r : nat) :
  num_var p = 2%nat -> r <> 0%nat ->
  poly_Lr_norm p circle_nodes circle_weights r =
  Ok (float_power
        ((f p [- / sqrt 2; / sqrt 2] ^ r + f p [- / sqrt 2; - / sqrt 2] ^ r +
          f p [/ sqrt 2; / sqrt 2] ^ r + f p [/ sqrt 2; - / sqrt 2] ^ r) / 4)
        (1 / INR r)).
Proof.
  intros Hp Hr. unfold poly_Lr_norm. rewrite Hp.
  change (Z.of_nat 2 - 1)%Z with 1%Z. rewrite sphere_surface_area_1.
  cbn [bind].
  rewrite parallelized_evaluation_all.
  2:{ intros v Hv. rewrite Hp. unfold circle_nodes in Hv. simpl in Hv.
      repeat (destruct Hv as [<- | Hv]; [reflexivity|]). contradiction. }
  cbn [bind]. assert (HPI := PI_RGT_0).
  rewrite py_inv_ok by lra. cbn [bind].
  rewrite py_inv_ok by (apply not_0_INR; assumption). cbn [bind].
  do 2 f_equal. unfold circle_nodes, circle_weights, np_mul, np_sum.
  cbn [map combine fold_right fst snd].
  generalize (f p [- / sqrt 2; / sqrt 2] ^ r)
             (f p [- / sqrt 2; - / sqrt 2] ^ r)
             (f p [/ sqrt 2; / sqrt 2] ^ r)
             (f p [/ sqrt 2; - / sqrt 2] ^ r).
  intros a1 a2 a3 a4. field. lra.
Qed.

(** The norm of the specification for [r = 1] on the circle: the mean of
    the absolute values at the four nodes. *)
Lemma lrNorm_spec_circle (p : custom_polynomial) :
  num_var p = 2%nat ->
  lrNorm_spec p circle_nodes circle_weights 1 =
  Ok (Fin ((Rabs (f p [- / sqrt 2; / sqrt 2]) +
            Rabs (f p [- / sqrt 2; - / sqrt 2]) +
            Rabs (f p [/ sqrt 2; / sqrt 2]) +
            Rabs (f p [/ sqrt 2; - / sqrt 2])) / 4)).
Proof.
  intros Hp. unfold lrNorm_spec. rewrite Hp.
  change (Z.of_nat 2 - 1)%Z with 1%Z. rewrite sphere_surface_area_1.
  cbn [bind].
  rewrite parallelized_evaluation_all.
  2:{ intros v Hv. rewrite Hp. unfold circle_nodes in Hv. simpl in Hv.
      repeat (destruct Hv as [<- | Hv]; [reflexivity|]). contradiction. }
  cbn [bind]. assert (HPI := PI_RGT_0).
  rewrite py_inv_ok by lra. cbn [bind].
  change (INR 1) with 1. rewrite py_inv_ok by lra. cbn [bind].
  replace (1 / 1) with 1 by field. rewrite float_power_one.
  do 2 f_equal. unfold circle_nodes, circle_weights, np_mul, np_sum.
  cbn [map combine fold_right fst snd]. simpl pow. field. lra.
Qed.

Lemma minus_x1_squared_value (a b : R) : f minus_x1_squared [a; b] = - (a * a).
Proof. cbn. ring. Qed.

(** C1: at the exponent [r = 1] the polynomial [-x1^2] in two variables,
    which the constructor builds, and the rule that
    [spherical_quadrature(2, 2)] returns for the circle give the value
    [-1/2], from the method and from the function alike: the evaluations
    are raised to the power [r] as they are, and the sign survives, where
    the specified norm is [1/2]. *)
Theorem Lr_norm_odd_exponent_keeps_sign :
  let poly := minus_x1_squared in
  let X := circle_nodes in
  let WX := circle_weights in
  custom_polynomial_init (-1) [1; 0] 2 = Ok poly /\
  spherical_quadrature roots_jacobi_table 2 2 = Ok (X, WX) /\
  poly_Lr_norm poly X WX 1 = Ok (Fin (- (1 / 2))) /\
  Lr_norm X WX 2 1 poly = Ok (Fin (- (1 / 2))) /\
  lrNorm_spec poly X WX 1 = Ok (Fin (1 / 2)).
Proof.
  intros poly X WX. assert (Hs := inv_sqrt2_sqr).
  assert (Hcode : poly_Lr_norm poly X WX 1 = Ok (Fin (- (1 / 2)))).
  { unfold poly, X, WX. rewrite poly_Lr_norm_circle by reflexivity.
    rewrite !minus_x1_squared_value. do 2 f_equal. nra. }
  split; [reflexivity|]. split; [exact spherical_quadrature_circle|].
  split; [exact Hcode|]. split; [exact Hcode|].
  unfold poly, X, WX. rewrite lrNorm_spec_circle by reflexivity.
  rewrite !minus_x1_squared_value.
  assert (Habs : forall a, a * a = 1 / 2 -> Rabs (- (a * a)) = 1 / 2).
  { intros a Ha. rewrite Ha. rewrite Rabs_left by lra. lra. }
  rewrite !Habs by nra. do 2 f_equal. field.
Qed.

(** At the exponent [r = 3] the same input has no value at all: the mean
    of the cubes is [-1/8] and its power [1/3] is [nan]. *)
Lemma Lr_norm_cubic_nan :
  poly_Lr_norm minus_x1_squared circle_nodes circle_weights 3 = Ok NaN.
Proof.
  rewrite poly_Lr_norm_circle_power by (reflexivity || discriminate).
  rewrite !minus_x1_squared_value. f_equal.
  assert (Hs := inv_sqrt2_sqr).
  replace (- / sqrt 2 * - / sqrt 2) with (1 / 2) by nra.
  rewrite Hs.
  match goal with |- float_power ?s ?y = _ =>
    replace s with (- (1 / 8)) by (simpl pow; lra);
    replace y with (1 / 3) by (simpl INR; field) end.
  unfold float_power.
  rewrite Rltb_false by lra. rewrite Reqb_false by lra.
  replace (Int_part (1 / 3)) with 0%Z
    by (apply Int_part_spec; split; simpl; lra).
  rewrite Reqb_false by (simpl; lra). reflexivity.
Qed.

Lemma norm_unit_2 (a b c : R) :
  0 <= c -> a * a + b * b = c * c -> norm [a; b] = c.
Proof.
  intros Hc H. unfold norm, np_sum. cbn [map fold_right].
  replace (a * a + (b * b + 0)) with (c * c) by lra.
  apply sqrt_square. assumption.
Qed.

(** A batch of one row in the plane, normalised. *)
Lemma sample_spherical_script (batches : list (list vec)) (k : nat)
    (a b c a' b' : R) (rest : list vec) :
  nth k batches [] = [a; b] :: rest ->
  0 < c -> a * a + b * b = c * c -> a' = a / c -> b' = b / c ->
  sample_spherical (randn_script batches) k 2 1 = Ok [[a'; b']].
Proof.
  intros Hk Hc H -> ->. unfold sample_spherical, randn_script.
  cbn [Z.ltb orb Z.compare].
  change (Z.to_nat 1) with 1%nat. rewrite Hk. cbn [firstn map].
  rewrite (norm_unit_2 a b c) by lra. reflexivity.
Qed.

Section AttemptOnOne.

Variable randn : nat -> nat -> nat -> list vec.

(** An attempt in which one candidate is left after the filter. *)
Lemma vec_finder_attempt_one (n : Z) (r : nat)
    (poly projection_poly : custom_polynomial) (max_size : Z) (inner : R)
    (W X : list vec) (WX : list R) (k : nat) (V : list vec) (v : vec) (lr : R) :
  sample_spherical randn k n max_size = Ok V ->
  (if negb (is_empty W)
   then filter (fun v => Rltb (row_max (map (fun w => Rabs (dot v w)) W)) inner) V
   else V) = [v] ->
  poly_Lr_norm (sustract_polynomials poly projection_poly) X WX r = Ok (Fin lr) ->
  length v = num_var poly ->
  vec_finder_attempt randn n r poly projection_poly max_size inner W X WX k =
  if Rleb (lr * 0.5) (Rabs (f (sustract_polynomials poly projection_poly) v))
  then Ok (Accept (v, f (sustract_polynomials poly projection_poly) v,
                   new_polynomial 1 v (degree poly), Fin lr))
  else Ok Reject.
Proof.
  intros HV Hfilter Hlr Hlen. unfold vec_finder_attempt.
  rewrite HV. cbn [bind]. rewrite Hfilter. rewrite Hlr. cbn [bind].
  rewrite parallelized_evaluation_all.
  2:{ intros w [<- | []]. exact Hlen. }
  cbn [bind map np_argmax argmax_from py_index nth_error np_max fold_left
       fl_scale fl_leb].
  reflexivity.
Qed.

End AttemptOnOne.

(** *** The finder on the circle *)

Lemma residual_0_num_var :
  num_var (sustract_polynomials x1_squared zero_projection) = 2%nat.
Proof. reflexivity. Qed.

Lemma residual_0_value (a b : R) :
  f (sustract_polynomials x1_squared zero_projection) [a; b] = a * a.
Proof. cbn. ring. Qed.

(** The norm of [x1^2] against the zero projection is 1/2. *)
Lemma residual_0_norm :
  poly_Lr_norm (sustract_polynomials x1_squared zero_projection)
               circle_nodes circle_weights 1 = Ok (Fin (1 / 2)).
Proof.
  rewrite poly_Lr_norm_circle by apply residual_0_num_var.
  rewrite !residual_0_value. do 2 f_equal.
  assert (Hs := inv_sqrt2_sqr). nra.
Qed.

Lemma finder_script_attempt_0 :
  vec_finder_attempt (randn_script finder_script) 2 1 x1_squared zero_projection
                     1 0.8 [] circle_nodes circle_weights 0 = Ok Reject.
Proof.
  rewrite (vec_finder_attempt_one _ _ _ _ _ _ _ _ _ _ _ [[0; 1]] [0; 1] (1 / 2)).
  - rewrite residual_0_value. rewrite Rleb_false; [reflexivity|].
    rewrite Rmult_0_l, Rabs_R0. lra.
  - apply (sample_spherical_script finder_script 0 0 1 1 0 1 []);
      [reflexivity | lra | lra | lra | lra].
  - reflexivity.
  - apply residual_0_norm.
  - reflexivity.
Qed.

Lemma finder_script_attempt_1 :
  vec_finder_attempt (randn_script finder_script) 2 1 x1_squared zero_projection
                     1 0.8 [] circle_nodes circle_weights 1 =
  Ok (Accept ([3 / 5; 4 / 5], 3 / 5 * (3 / 5),
              new_polynomial 1 [3 / 5; 4 / 5] 2, Fin (1 / 2))).
Proof.
  rewrite (vec_finder_attempt_one _ _ _ _ _ _ _ _ _ _ _ [[3 / 5; 4 / 5]]
             [3 / 5; 4 / 5] (1 / 2)).
  - rewrite residual_0_value. rewrite Rleb_true; [reflexivity|].
    rewrite Rabs_pos_eq; lra.
  - apply (sample_spherical_script finder_script 1 3 4 5 (3 / 5) (4 / 5) []);
      [reflexivity | lra | lra | lra | lra].
  - reflexivity.
  - apply residual_0_norm.
  - reflexivity.
Qed.

(** The first batch misses the half of the norm and the second captures
    it: the call returns [None], after two batches. *)
Lemma vec_finder_later_attempt_returns_none_witness :
  vec_finder (randn_script finder_script) 2 1 x1_squared zero_projection
             0.95 1 0.8 [] circle_nodes circle_weights 1 0 = (Ok None, 2%nat).
Proof.
  apply (vec_finder_later_attempt_returns_none
           (randn_script finder_script) 2 1 x1_squared zero_projection
           0.95 1 0.8 [] circle_nodes circle_weights 0 0
           ([3 / 5; 4 / 5], 3 / 5 * (3 / 5),
            new_polynomial 1 [3 / 5; 4 / 5] 2, Fin (1 / 2))).
  - lia.
  - intros i Hi. replace i with 0%nat by lia. exact finder_script_attempt_0.
  - exact finder_script_attempt_1.
Defined.

(** *** Two passes of the decomposer on the circle *)

(** The candidate that is alone in its batch is the one returned. *)
Lemma decomposer_script_finder_0 (accu : R) :
  vec_finder (randn_script decomposer_script) 2 1 x1_squared zero_projection
             accu 1 0.8 [] circle_nodes circle_weights 1 0 =
  (Ok (Some ([3 / 5; 4 / 5], 9 / 25, q_1, Fin (1 / 2))), 1%nat).
Proof.
  apply vec_finder_accept.
  rewrite (vec_finder_attempt_one _ _ _ _ _ _ _ _ _ _ _ [[3 / 5; 4 / 5]]
             [3 / 5; 4 / 5] (1 / 2)).
  - rewrite residual_0_value. rewrite Rleb_true by (rewrite Rabs_pos_eq; lra).
    replace (3 / 5 * (3 / 5)) with (9 / 25) by field. reflexivity.
  - apply (sample_spherical_script decomposer_script 0 3 4 5 (3 / 5) (4 / 5) []);
      [reflexivity | lra | lra | lra | lra].
  - reflexivity.
  - apply residual_0_norm.
  - reflexivity.
Qed.

Lemma matrix_rank_by_det_full (M : list (list R)) :
  det M <> 0 -> matrix_rank_by_det M = length M.
Proof. intros H. unfold matrix_rank_by_det. rewrite Reqb_false by assumption. reflexivity. Qed.

Lemma matrix_rank_by_det_singular (M : list (list R)) :
  M <> [] -> det M = 0 -> matrix_rank_by_det M <> length M.
Proof.
  intros HM H. unfold matrix_rank_by_det. rewrite Reqb_true by assumption.
  destruct M; [contradiction | simpl; lia].
Qed.

Lemma linalg_inv_adjugate_1 (a : R) :
  a <> 0 -> linalg_inv_adjugate [[a]] = Ok [[1 / a]].
Proof.
  intros Ha. unfold linalg_inv_adjugate. rewrite det_1.
  rewrite Reqb_false by assumption.
  cbn [length seq map remove_nth]. unfold det. cbn [length det_rec].
  do 3 f_equal. simpl. field. assumption.
Qed.

Lemma linalg_inv_adjugate_2 (a b c d : R) :
  a * d - b * c <> 0 ->
  linalg_inv_adjugate [[a; b]; [c; d]] =
  Ok [[d / (a * d - b * c); - b / (a * d - b * c)];
      [- c / (a * d - b * c); a / (a * d - b * c)]].
Proof.
  intros HD. unfold linalg_inv_adjugate. rewrite det_2.
  rewrite Reqb_false by assumption.
  cbn [length seq map remove_nth]. rewrite !det_1.
  f_equal. repeat (f_equal; try (simpl; field; assumption)).
Qed.

Lemma add_vector_pass_1 (accu : R) :
  add_vector (randn_script decomposer_script) matrix_rank_by_det
             linalg_inv_adjugate 1 (vectors state_0) circle_nodes circle_weights
             2 1 x1_squared (projection state_0) 1 0.8 accu 0 =
  (Ok (Some ([[3 / 5; 4 / 5]], [9 / 25], [q_1], Fin (1 / 2), projection_1)),
   {| W := [[3 / 5; 4 / 5]]; fW := [9 / 25]; Q := [q_1] |}, 1%nat).
Proof.
  cbn [add_vector state_0 vectors projection W fW Q].
  rewrite decomposer_script_finder_0.
  cbn [app degree x1_squared new_polynomial gram map dot].
  replace ((3 / 5 * (3 / 5) + (4 / 5 * (4 / 5) + 0)) ^ 2) with 1
    by (simpl; field).
  rewrite matrix_rank_by_det_full by (rewrite det_1; lra).
  cbn [length Nat.eqb negb].
  rewrite linalg_inv_adjugate_1 by lra. cbn [bind mat_vec map dot].
  replace (1 / 1 * (9 / 25) + 0) with (9 / 25) by field.
  reflexivity.
Qed.

Lemma greedy_body_pass_1 (accu : R) :
  greedy_body (randn_script decomposer_script) matrix_rank_by_det
              linalg_inv_adjugate 1 circle_nodes circle_weights 2 1 x1_squared
              1 0.8 accu 1 2 3 state_0 0 = (Ok (Continue state_1), 1%nat).
Proof.
  unfold greedy_body. rewrite add_vector_pass_1.
  cbn [error state_0 fl_sub fl_abs fl_leb].
  reflexivity.
Qed.

Lemma residual_1_value (a b : R) :
  f (sustract_polynomials x1_squared projection_1) [a; b] =
  a * a - 9 / 25 * ((a * (3 / 5) + b * (4 / 5)) * (a * (3 / 5) + b * (4 / 5))).
Proof. cbn. ring. Qed.

(** The norm of the residual after the first term is 8/25. *)
Lemma residual_1_norm :
  poly_Lr_norm (sustract_polynomials x1_squared projection_1)
               circle_nodes circle_weights 1 = Ok (Fin (8 / 25)).
Proof.
  rewrite poly_Lr_norm_circle by reflexivity.
  rewrite !residual_1_value. do 2 f_equal.
  assert (Hs := inv_sqrt2_sqr). nra.
Qed.

Lemma decomposer_script_finder_1 (accu : R) :
  vec_finder (randn_script decomposer_script) 2 1 x1_squared projection_1
             accu 1 0.8 [[3 / 5; 4 / 5]] circle_nodes circle_weights 1 1 =
  (Ok (Some ([1; 0], 544 / 625, q_2, Fin (8 / 25))), 2%nat).
Proof.
  apply vec_finder_accept.
  rewrite (vec_finder_attempt_one _ _ _ _ _ _ _ _ _ _ _ [[1; 0]] [1; 0] (8 / 25)).
  - rewrite residual_1_value.
    replace (1 * 1 - 9 / 25 * ((1 * (3 / 5) + 0 * (4 / 5)) *
                               (1 * (3 / 5) + 0 * (4 / 5))))
      with (544 / 625) by field.
    rewrite Rleb_true by (rewrite Rabs_pos_eq; lra). reflexivity.
  - apply (sample_spherical_script decomposer_script 1 1 0 1 1 0 []);
      [reflexivity | lra | lra | lra | lra].
  - cbn [is_empty negb filter map row_max fold_left dot].
    rewrite Rltb_true; [reflexivity|].
    replace (1 * (3 / 5) + (0 * (4 / 5) + 0)) with (3 / 5) by field.
    rewrite Rabs_pos_eq; lra.
  - apply residual_1_norm.
  - reflexivity.
Qed.

Lemma add_vector_pass_2 (accu : R) :
  add_vector (randn_script decomposer_script) matrix_rank_by_det
             linalg_inv_adjugate 1 (vectors state_1) circle_nodes circle_weights
             2 1 x1_squared (projection state_1) 1 0.8 accu 1 =
  (Ok (Some ([[3 / 5; 4 / 5]; [1; 0]], [9 / 25; 544 / 625], [q_1; q_2],
             Fin (8 / 25), projection_2)),
   {| W := [[3 / 5; 4 / 5]; [1; 0]]; fW := [9 / 25; 544 / 625];
      Q := [q_1; q_2] |}, 2%nat).
Proof.
  cbn [add_vector state_1 committed_state state_0 vectors projection W fW Q app].
  unfold vec. rewrite decomposer_script_finder_1.
  cbn [app degree x1_squared new_polynomial gram map dot].
  replace ((3 / 5 * (3 / 5) + (4 / 5 * (4 / 5) + 0)) ^ 2) with 1
    by (simpl; field).
  replace ((3 / 5 * 1 + (4 / 5 * 0 + 0)) ^ 2) with (9 / 25) by (simpl; field).
  replace ((1 * (3 / 5) + (0 * (4 / 5) + 0)) ^ 2) with (9 / 25) by (simpl; field).
  replace ((1 * 1 + (0 * 0 + 0)) ^ 2) with 1 by (simpl; field).
  rewrite matrix_rank_by_det_full by (rewrite det_2; lra).
  cbn [length Nat.eqb negb].
  rewrite linalg_inv_adjugate_2 by lra. cbn [bind mat_vec map dot].
  replace (1 / (1 * 1 - 9 / 25 * (9 / 25)) * (9 / 25) +
           (- (9 / 25) / (1 * 1 - 9 / 25 * (9 / 25)) * (544 / 625) + 0))
    with (729 / 13600) by field.
  replace (- (9 / 25) / (1 * 1 - 9 / 25 * (9 / 25)) * (9 / 25) +
           (1 / (1 * 1 - 9 / 25 * (9 / 25)) * (544 / 625) + 0))
    with (463 / 544) by field.
  reflexivity.
Qed.

Lemma greedy_body_pass_2 (accu : R) :
  greedy_body (randn_script decomposer_script) matrix_rank_by_det
              linalg_inv_adjugate 1 circle_nodes circle_weights 2 1 x1_squared
              1 0.8 accu 1 2 3 state_1 1 =
  (Ok (Break MaxIter (stagnant_state state_1 projection_2)), 2%nat).
Proof.
  unfold greedy_body. rewrite add_vector_pass_2.
  cbn [error state_1 committed_state fl_sub fl_abs fl_leb].
  rewrite Rleb_true by (rewrite Rabs_pos_eq; lra).
  reflexivity.
Qed.

(** The projection that comes out of the stagnant pass is not the one
    that went in: the two differ at the point (1,0). *)
Lemma projection_2_differs :
  f projection_2 [1; 0] = 544 / 625 /\ f projection_1 [1; 0] = 81 / 625.
Proof. split; cbn; field. Qed.

(** *** The run on the circle *)

Lemma Zceil_IZR (z : Z) : Zceil (IZR z) = z.
Proof.
  unfold Zceil.
  assert (H : Int_part (- IZR z) = (- z)%Z).
  { symmetry. apply Int_part_spec. rewrite opp_IZR. split; lra. }
  rewrite H. lia.
Qed.

Lemma accu_one_sample_range : 0 < accu_one_sample < 1.
Proof.
  unfold accu_one_sample.
  assert (0 < exp (- (1 / 3))) by apply exp_pos.
  assert (exp (- (1 / 3)) < exp 0) by (apply exp_increasing; lra).
  rewrite exp_0 in *. lra.
Qed.

Lemma sample_size_one : sample_size 2 2 1 accu_one_sample = Ok 1%Z.
Proof.
  rewrite sample_size_value by (lia || apply accu_one_sample_range).
  f_equal. rewrite <- (Zceil_IZR 1). f_equal.
  unfold sample_bound, accu_one_sample.
  replace (1 - (1 - exp (- (1 / 3)))) with (exp (- (1 / 3))) by ring.
  rewrite ln_exp.
  change (comb (1 * 2 + Z.to_nat (2 - 1)) (1 * 2)) with 3%nat.
  change (2 * 1)%nat with 2%nat.
  replace (INR 2 ^ 2) with 4 by (simpl; ring).
  replace (INR 3) with 3 by (simpl; ring).
  rewrite Rmin_right by lra. field.
Qed.

Lemma greedy_init_circle :
  greedy_init roots_jacobi_table 2 1 x1_squared accu_one_sample =
  Ok (3%nat, circle_nodes, circle_weights, 1%Z, state_0).
Proof.
  unfold greedy_init. cbn [degree x1_squared new_polynomial].
  change (math_comb (2 + Z.of_nat 2 - 1) (Z.of_nat 2)) with (@Ok nat 3%nat).
  cbn [bind]. rewrite spherical_quadrature_circle. cbn [bind].
  change (degree x1_squared) with 2%nat.
  rewrite sample_size_one. reflexivity.
Qed.

(** The whole run for [x1^2] with the tolerance 1 and two iterations
    allowed: the first pass commits the direction (3,4)/5, the second is
    stagnant and stops the loop; the polynomial that is returned is the
    projection on two terms, while the basis holds one. *)
Lemma greedy_run_circle :
  greedy_run roots_jacobi_table (randn_script decomposer_script)
             matrix_rank_by_det linalg_inv_adjugate 2 1 2 1 x1_squared
             accu_one_sample 0.8 (1 / 10) 1 2 =
  Some (Ok (MaxIter, stagnant_state state_1 projection_2)).
Proof.
  unfold greedy_run. rewrite greedy_init_circle.
  cbn [greedy_loop].
  assert (H0 : fl_geb (error state_0) (Fin (1 / 10)) = true) by reflexivity.
  rewrite H0. rewrite greedy_body_pass_1.
  assert (H1 : fl_geb (error state_1) (Fin (1 / 10)) = true).
  { cbn. apply Rleb_true. lra. }
  rewrite H1. rewrite greedy_body_pass_2. reflexivity.
Qed.

(** The second pass of this run is stagnant: the error, the basis and
    the counter are put back or advanced, the projection is the new one. *)
Lemma stagnant_pass_keeps_new_projection_witness :
  let st := Break MaxIter (stagnant_state state_1 projection_2) in
  vectors (step_state st) = vectors state_1 /\
  error (step_state st) = error state_1 /\
  iteration (step_state st) = (iteration state_1 + 1)%nat /\
  projection (step_state st) = projection_2.
Proof.
  intros st.
  apply (stagnant_pass_keeps_new_projection
           (randn_script decomposer_script) matrix_rank_by_det
           linalg_inv_adjugate 1 circle_nodes circle_weights 2 1 x1_squared
           1 0.8 accu_one_sample 1 2 3 state_1 1 st 2
           [[3 / 5; 4 / 5]; [1; 0]] [9 / 25; 544 / 625] [q_1; q_2]
           (Fin (8 / 25)) projection_2
           {| W := [[3 / 5; 4 / 5]; [1; 0]]; fW := [9 / 25; 544 / 625];
              Q := [q_1; q_2] |}).
  - apply add_vector_pass_2.
  - cbn. apply Rleb_true. rewrite Rabs_pos_eq; lra.
  - apply greedy_body_pass_2.
Defined.

(** The bound on this run: three is the number of monomials of degree
    two in two variables, and the run ends with one basis vector. *)
Lemma greedy_basis_size_bounded_witness :
  3%nat = comb (Z.to_nat (2 + Z.of_nat (degree x1_squared) - 1)) (degree x1_squared) /\
  (length (W (vectors (stagnant_state state_1 projection_2))) <= 3)%nat.
Proof.
  destruct (greedy_basis_size_bounded
              roots_jacobi_table (randn_script decomposer_script)
              matrix_rank_by_det linalg_inv_adjugate 1 2 1 x1_squared
              accu_one_sample 0.8 (1 / 10) 1 2
              3 circle_nodes circle_weights 1 state_0
              ltac:(lia) greedy_init_circle) as [Hmax [_ Hrun]].
  split; [exact Hmax|].
  exact (proj1 (Hrun 2%nat MaxIter _ greedy_run_circle)).
Defined.

(** On the circle: the basis holds the direction (3,4)/5 and the batch
    holds that direction again. *)
Lemma vec_finder_no_survivor_witness :
  vec_finder (randn_script finder_script) 2 1 x1_squared zero_projection
             0.95 1 0.8 [[3 / 5; 4 / 5]] circle_nodes circle_weights 1 1 =
  (Raise (ValueError "attempt to get an argmax of an empty sequence"), 2%nat).
Proof.
  refine (proj2 (vec_finder_no_survivor
                   (randn_script finder_script) 2 1 x1_squared zero_projection
                   0.95 1 0.8 [[3 / 5; 4 / 5]] circle_nodes circle_weights
                   1 1 [[3 / 5; 4 / 5]] _ _ _) (Fin (1 / 2)) residual_0_norm).
  - discriminate.
  - apply (sample_spherical_script finder_script 1 3 4 5 (3 / 5) (4 / 5) []);
      [reflexivity | lra | lra | lra | lra].
  - intros v [<- | []]. exists [3 / 5; 4 / 5]. split; [left; reflexivity|].
    cbn [dot]. rewrite Rabs_pos_eq; lra.
Defined.


(** *** The projector on a singular Gram matrix *)

Lemma sphere_surface_area_2 : sphere_surface_area 2 = Ok (4 * PI).
Proof.
  unfold sphere_surface_area. change (2 + 1)%Z with 3%Z.
  rewrite ball_volume_step by lia. change (3 - 2)%Z with 1%Z.
  rewrite ball_volume_1. cbn [bind]. f_equal. field.
Qed.

Lemma residual_3_value (a b c : R) :
  f (sustract_polynomials x1_x3_squared zero_projection_3) [a; b; c]
  = a * a + c * c.
Proof. cbn. ring. Qed.

(** The norm of [x1^2 + x3^2] against the zero projection is 2/3. *)
Lemma residual_3_norm :
  poly_Lr_norm (sustract_polynomials x1_x3_squared zero_projection_3)
               octahedron_nodes octahedron_weights 1 = Ok (Fin (2 / 3)).
Proof.
  unfold poly_Lr_norm.
  change (Z.of_nat (num_var (sustract_polynomials x1_x3_squared zero_projection_3)) - 1)%Z
    with 2%Z.
  rewrite sphere_surface_area_2. cbn [bind].
  rewrite parallelized_evaluation_all.
  2:{ intros v Hv. unfold octahedron_nodes in Hv. simpl in Hv.
      repeat (destruct Hv as [<- | Hv]; [reflexivity|]). contradiction. }
  cbn [bind]. assert (HPI := PI_RGT_0).
  rewrite py_inv_ok by lra. cbn [bind].
  change (INR 1) with 1. rewrite py_inv_ok by lra. cbn [bind].
  replace (1 / 1) with 1 by field. rewrite float_power_one.
  do 2 f_equal. unfold octahedron_nodes, octahedron_weights, np_mul, np_sum.
  cbn [map combine fold_right fst snd]. rewrite !residual_3_value.
  simpl pow. field. lra.
Qed.

Lemma norm_unit_3 (a b c d : R) :
  0 <= d -> a * a + b * b + c * c = d * d -> norm [a; b; c] = d.
Proof.
  intros Hd H. unfold norm, np_sum. cbn [map fold_right].
  replace (a * a + (b * b + (c * c + 0))) with (d * d) by lra.
  apply sqrt_square. assumption.
Qed.

(** A batch of one row in space, normalised. *)
Lemma sample_spherical_script_3 (batches : list (list vec)) (k : nat)
    (a b c d a' b' c' : R) (rest : list vec) :
  nth k batches [] = [a; b; c] :: rest ->
  0 < d -> a * a + b * b + c * c = d * d ->
  a' = a / d -> b' = b / d -> c' = c / d ->
  sample_spherical (randn_script batches) k 3 1 = Ok [[a'; b'; c']].
Proof.
  intros Hk Hd H -> -> ->. unfold sample_spherical, randn_script.
  cbn [Z.ltb orb Z.compare].
  change (Z.to_nat 1) with 1%nat. rewrite Hk. cbn [firstn map].
  rewrite (norm_unit_3 a b c d) by lra. reflexivity.
Qed.

Lemma fold_left_Rmax_lt (l : list R) (a c : R) :
  a < c -> (forall x, In x l -> x < c) -> fold_left Rmax l a < c.
Proof.
  revert a. induction l as [|y l IH]; intros a Ha H; simpl; [assumption|].
  apply IH.
  - apply Rmax_lub_lt; [assumption | apply H; left; reflexivity].
  - intros x Hx. apply H. right. assumption.
Qed.

Lemma row_max_lt (l : list R) (c : R) :
  l <> [] -> (forall x, In x l -> x < c) -> row_max l < c.
Proof.
  destruct l as [|a l]; [contradiction|]. intros _ H. simpl.
  apply fold_left_Rmax_lt; [apply H; left; reflexivity|].
  intros x Hx. apply H. right. assumption.
Qed.

Lemma planar_filter_keeps (v : vec) :
  (forall w, In w (W planar_basis) -> Rabs (dot v w) < 0.9) ->
  (if negb (is_empty (W planar_basis))
   then filter (fun v => Rltb (row_max (map (fun w => Rabs (dot v w))
                                            (W planar_basis))) 0.9) [v]
   else [v]) = [v].
Proof.
  intros H. cbn [planar_basis W is_empty negb filter].
  rewrite Rltb_true; [reflexivity|].
  apply row_max_lt; [discriminate|].
  intros x Hx. apply in_map_iff in Hx. destruct Hx as [w [<- Hw]].
  apply H. exact Hw.
Qed.

Lemma projector_script_finder_0 (accu : R) :
  vec_finder (randn_script projector_script) 3 1 x1_x3_squared zero_projection_3
             accu 1 0.9 (W planar_basis) octahedron_nodes octahedron_weights 1 0 =
  (Ok (Some ([4 / 5; - 3 / 5; 0], 16 / 25,
             new_polynomial 1 [4 / 5; - 3 / 5; 0] 2, Fin (2 / 3))), 1%nat).
Proof.
  apply vec_finder_accept.
  rewrite (vec_finder_attempt_one _ _ _ _ _ _ _ _ _ _ _
             [[4 / 5; - 3 / 5; 0]] [4 / 5; - 3 / 5; 0] (2 / 3)).
  - rewrite residual_3_value.
    replace (4 / 5 * (4 / 5) + 0 * 0) with (16 / 25) by field.
    rewrite Rleb_true by (rewrite Rabs_pos_eq; lra). reflexivity.
  - apply (sample_spherical_script_3 projector_script 0 4 (-3) 0 5 _ _ _ []);
      [reflexivity | lra | lra | lra | lra | lra].
  - apply planar_filter_keeps.
    intros w Hw. cbn in Hw.
    destruct Hw as [<- | [<- | [<- | []]]]; cbn [dot].
    + replace (4 / 5 * 1 + (- 3 / 5 * 0 + (0 * 0 + 0))) with (4 / 5) by field.
      rewrite Rabs_pos_eq; lra.
    + replace (4 / 5 * 0 + (- 3 / 5 * 1 + (0 * 0 + 0))) with (- (3 / 5)) by field.
      rewrite Rabs_Ropp, Rabs_pos_eq; lra.
    + replace (4 / 5 * (3 / 5) + (- 3 / 5 * (4 / 5) + (0 * 0 + 0))) with 0 by field.
      rewrite Rabs_R0; lra.
  - apply residual_3_norm.
  - reflexivity.
Qed.

Lemma projector_script_finder_1 (accu : R) :
  vec_finder (randn_script projector_script) 3 1 x1_x3_squared zero_projection_3
             accu 1 0.9 (W planar_basis) octahedron_nodes octahedron_weights 1 1 =
  (Ok (Some ([0; 0; 1], 1, new_polynomial 1 [0; 0; 1] 2, Fin (2 / 3))), 2%nat).
Proof.
  apply vec_finder_accept.
  rewrite (vec_finder_attempt_one _ _ _ _ _ _ _ _ _ _ _
             [[0; 0; 1]] [0; 0; 1] (2 / 3)).
  - rewrite residual_3_value.
    replace (0 * 0 + 1 * 1) with 1 by field.
    rewrite Rleb_true by (rewrite Rabs_pos_eq; lra). reflexivity.
  - apply (sample_spherical_script_3 projector_script 1 0 0 1 1 _ _ _ []);
      [reflexivity | lra | lra | lra | lra | lra].
  - apply planar_filter_keeps.
    intros w Hw. cbn in Hw.
    destruct Hw as [<- | [<- | [<- | []]]]; cbn [dot].
    + replace (0 * 1 + (0 * 0 + (1 * 0 + 0))) with 0 by field.
      rewrite Rabs_R0; lra.
    + replace (0 * 0 + (0 * 1 + (1 * 0 + 0))) with 0 by field.
      rewrite Rabs_R0; lra.
    + replace (0 * (3 / 5) + (0 * (4 / 5) + (1 * 0 + 0))) with 0 by field.
      rewrite Rabs_R0; lra.
  - apply residual_3_norm.
  - reflexivity.
Qed.

(** Four directions of one plane: their squares are linearly dependent. *)
Lemma det_gram_planar :
  det (gram (W planar_basis ++ [[4 / 5; - 3 / 5; 0]]) 2) = 0.
Proof. unfold det, gram. cbn. field. Qed.

Lemma det_gram_extended :
  det (gram (W planar_basis ++ [[0; 0; 1]]) 2) = 288 / 625.
Proof. unfold det, gram. cbn. field. Qed.

Lemma linalg_inv_adjugate_ok (M : list (list R)) :
  det M <> 0 ->
  exists M', linalg_inv_adjugate M = Ok M' /\ length M' = length M.
Proof.
  intros H. unfold linalg_inv_adjugate. rewrite Reqb_false by assumption.
  eexists. split; [reflexivity|]. rewrite length_map, length_seq. reflexivity.
Qed.

Lemma py_index_ok {A : Type} (l : list A) (i : nat) :
  (i < length l)%nat -> exists a, py_index l i = Ok a.
Proof.
  intros H. unfold py_index.
  destruct (nth_error l i) as [a|] eqn:E; [exists a; reflexivity|].
  apply nth_error_None in E. lia.
Qed.

(** The projection is built whenever there is a coefficient for every
    term of a basis that is not empty. *)
Lemma build_projection_ok (Q : list custom_polynomial) (B : list R) :
  Q <> [] -> length Q = length B ->
  exists p, build_projection Q B = Ok p.
Proof.
  intros HQ Hlen. unfold build_projection.
  assert (H0 : (0 < length Q)%nat) by (destruct Q; [contradiction | simpl; lia]).
  destruct (py_index_ok Q 0 H0) as [q0 ->].
  destruct (py_index_ok B 0 ltac:(lia)) as [b0 ->]. cbn [bind].
  destruct (1 <? length Q)%nat; [|eexists; reflexivity].
  assert (Hfold : forall (l : list nat) (p : custom_polynomial),
             (forall i, In i l -> (i < length Q)%nat) ->
             exists p',
               foldM (fun projection_poly i =>
                        qi <- py_index Q i ;;
                        bi <- py_index B i ;;
                        Ok (add_polynomials projection_poly
                                            (multiply_constant qi bi)))
                     l p = Ok p').
  { induction l as [|i l IH]; intros p Hl; cbn [foldM]; [eexists; reflexivity|].
    destruct (py_index_ok Q i (Hl i (or_introl eq_refl))) as [qi ->].
    destruct (py_index_ok B i) as [bi ->];
      [rewrite <- Hlen; apply Hl; left; reflexivity|].
    cbn [bind]. apply IH. intros j Hj. apply Hl. right. assumption. }
  apply Hfold. intros i Hi. apply in_seq in Hi. lia.
Qed.

(** The nested call of the example: the direction (0,0,1) is accepted
    and appended. *)
Lemma add_vector_planar_nested (accu : R) :
  exists p,
    add_vector (randn_script projector_script) matrix_rank_by_det
               linalg_inv_adjugate 1 planar_basis octahedron_nodes
               octahedron_weights 3 1 x1_x3_squared zero_projection_3
               1 0.9 accu 1 =
    (Ok (Some (W planar_basis_extended, fW planar_basis_extended,
               Q planar_basis_extended, Fin (2 / 3), p)),
     planar_basis_extended, 2%nat).
Proof.
  cbn [add_vector]. rewrite projector_script_finder_1.
  change (degree x1_x3_squared) with 2%nat.
  pose proof det_gram_extended as Hd.
  destruct (linalg_inv_adjugate_ok (gram (W planar_basis ++ [[0; 0; 1]]) 2))
    as [M' [HM' Hlen]]; [rewrite Hd; lra|].
  unfold vec in *.
  rewrite matrix_rank_by_det_full by (rewrite Hd; lra).
  rewrite Nat.eqb_refl. cbn [negb].
  rewrite HM'. cbn [bind].
  destruct (build_projection_ok
              (Q planar_basis ++ [new_polynomial 1 [0; 0; 1] 2])
              (mat_vec M' (fW planar_basis ++ [1]))) as [p Hp].
  - discriminate.
  - unfold mat_vec. rewrite length_map. symmetry.
    etransitivity; [exact Hlen | reflexivity].
  - exists p. cbn [W fW Q] in *. rewrite Hp. reflexivity.
Qed.

(** On this example the first candidate lies in the plane of the
    basis and makes the Gram matrix singular; the nested call appends the
    direction (0,0,1) and returns its quintuple; the caller gets [None]. *)
Lemma add_vector_singular_returns_none_witness :
  add_vector (randn_script projector_script) matrix_rank_by_det
             linalg_inv_adjugate 2 planar_basis octahedron_nodes
             octahedron_weights 3 1 x1_x3_squared zero_projection_3
             1 0.9 0.95 0 =
  (Ok None, planar_basis_extended, 2%nat).
Proof.
  destruct (add_vector_planar_nested 0.95) as [p Hp].
  refine (proj1 (add_vector_singular_returns_none
                   (randn_script projector_script) matrix_rank_by_det
                   linalg_inv_adjugate octahedron_nodes octahedron_weights
                   3 1 x1_x3_squared 1 0.9 0.95 1 planar_basis
                   zero_projection_3 0 1
                   [4 / 5; - 3 / 5; 0] (16 / 25)
                   (new_polynomial 1 [4 / 5; - 3 / 5; 0] 2) (Fin (2 / 3))
                   (projector_script_finder_0 0.95) _) _ _ _ Hp).
  apply matrix_rank_by_det_singular; [discriminate | apply det_gram_planar].
Defined.

(** * Further properties *)

(** ** Ball volume and surface area *)

Lemma ball_volume_even (m : nat) :
  ball_volume (Z.of_nat (2 * m)) = Ok (PI ^ m / INR (fact m)).
Proof.
  induction m as [|m IH].
  - change (Z.of_nat (2 * 0)) with 0%Z. rewrite ball_volume_0.
    f_equal. simpl. field.
  - rewrite ball_volume_step by lia.
    replace (Z.of_nat (2 * S m) - 2)%Z with (Z.of_nat (2 * m)) by lia.
    rewrite IH. cbn [bind]. f_equal.
    rewrite <- INR_IZR_INZ.
    replace (fact (S m)) with (S m * fact m)%nat by reflexivity.
    rewrite !mult_INR, !S_INR. change (INR 2) with 2.
    assert (Hf := INR_fact_neq_0 m). assert (Hm := pos_INR m).
    rewrite <- tech_pow_Rmult. change (INR 0) with 0.
    generalize (PI ^ m). intros p. field. split; [assumption | lra].
Qed.

Lemma ball_volume_odd (m : nat) :
  ball_volume (Z.of_nat (2 * m + 1))
  = Ok (2 * (4 * PI) ^ m * INR (fact m) / INR (fact (2 * m + 1))).
Proof.
  induction m as [|m IH].
  - change (Z.of_nat (2 * 0 + 1)) with 1%Z. rewrite ball_volume_1.
    f_equal. simpl. field.
  - rewrite ball_volume_step by lia.
    replace (Z.of_nat (2 * S m + 1) - 2)%Z with (Z.of_nat (2 * m + 1)) by lia.
    rewrite IH. cbn [bind]. f_equal.
    rewrite <- INR_IZR_INZ.
    replace (2 * S m + 1)%nat with (S (S (2 * m + 1))) by lia.
    replace (fact (S (S (2 * m + 1))))
      with (S (S (2 * m + 1)) * (S (2 * m + 1) * fact (2 * m + 1)))%nat
      by reflexivity.
    replace (fact (S m)) with (S m * fact m)%nat by reflexivity.
    rewrite !mult_INR, !S_INR, !plus_INR, !mult_INR. change (INR 2) with 2.
    change (INR 1) with 1.
    assert (Hf := INR_fact_neq_0 (2 * m + 1)). assert (Hm := pos_INR m).
    rewrite <- tech_pow_Rmult. change (INR 0) with 0.
    generalize ((4 * PI) ^ m). intros p. field.
    repeat split; (assumption || lra).
Qed.

(** X1: [ball_volume] raises for every negative dimension and returns a
    positive number for every other one; [sphere_surface_area(k)] is
    positive for [k >= 0], is 0 for [k = -1] and raises for [k < -1]. *)
Theorem ball_volume_domain :
  (forall n : Z, (n < 0)%Z -> exists msg, ball_volume n = Raise (ValueError msg)) /\
  (forall n : Z, (0 <= n)%Z -> exists v, ball_volume n = Ok v /\ 0 < v) /\
  (forall k : Z, (0 <= k)%Z -> exists a, sphere_surface_area k = Ok a /\ 0 < a) /\
  sphere_surface_area (-1) = Ok 0 /\
  (forall k : Z, (k < -1)%Z ->
     exists msg, sphere_surface_area k = Raise (ValueError msg)).
Proof.
  split; [|split; [|split; [|split]]].
  - intros n Hn. eexists. apply ball_volume_negative. assumption.
  - apply ball_volume_total.
  - intros k Hk. destruct (ball_volume_total (k + 1)) as [v [Hv Hpos]]; [lia|].
    exists (IZR (k + 1) * v). unfold sphere_surface_area. rewrite Hv.
    split; [reflexivity|].
    apply Rmult_lt_0_compat; [|assumption]. apply IZR_lt. lia.
  - unfold sphere_surface_area. change (-1 + 1)%Z with 0%Z.
    rewrite ball_volume_0. cbn [bind]. f_equal. ring.
  - intros k Hk. unfold sphere_surface_area.
    rewrite ball_volume_negative by lia. eexists. reflexivity.
Qed.

(** The dimensions -3 and 3. *)
Lemma ball_volume_domain_witness :
  (exists msg, ball_volume (-3) = Raise (ValueError msg)) /\
  (exists v, ball_volume 3 = Ok v /\ 0 < v).
Proof.
  destruct ball_volume_domain as [Hneg [Hpos _]].
  split; [apply Hneg; lia | apply Hpos; lia].
Defined.

(** X2: the recursion computes the closed forms of the volume of the
    ball: [pi^m / m!] in the dimension [2m] and
    [2 (4 pi)^m m! / (2m+1)!] in the dimension [2m+1]. *)
Theorem ball_volume_closed_form (m : nat) :
  ball_volume (Z.of_nat (2 * m)) = Ok (PI ^ m / INR (fact m)) /\
  ball_volume (Z.of_nat (2 * m + 1))
  = Ok (2 * (4 * PI) ^ m * INR (fact m) / INR (fact (2 * m + 1))).
Proof. split; [apply ball_volume_even | apply ball_volume_odd]. Qed.

(** ** Evaluation and arithmetic of polynomials *)

Lemma evaluate_wrong_length (p : custom_polynomial) (w : vec) :
  length w <> num_var p ->
  evaluate p w = Raise (PyException "This polynomial cannot be evaluated").
Proof.
  intros H. unfold evaluate.
  destruct (Nat.eqb_spec (num_var p) (length w)) as [E|E]; [congruence|].
  reflexivity.
Qed.

Lemma evaluate_right_length (p : custom_polynomial) (w : vec) :
  length w = num_var p -> evaluate p w = Ok (f p w).
Proof.
  intros H. unfold evaluate. rewrite H, Nat.eqb_refl. reflexivity.
Qed.

(** The batch evaluation of the model, which goes point by point. *)
Lemma parallelized_evaluation_dimension_cases (p : custom_polynomial) (V : list vec) :
  (Forall (fun v => length v = num_var p) V ->
   parallelized_evaluation p V = Ok (map (f p) V)) /\
  (~ Forall (fun v => length v = num_var p) V ->
   parallelized_evaluation p V
   = Raise (PyException "This polynomial cannot be evaluated")).
Proof.
  split.
  - intros H. apply parallelized_evaluation_all.
    apply Forall_forall. assumption.
  - unfold parallelized_evaluation.
    induction V as [|v V IH]; intros H; [exfalso; apply H; constructor|].
    cbn [mapM]. unfold evaluate_pol at 1.
    destruct (Nat.eq_dec (length v) (num_var p)) as [E|E].
    + rewrite evaluate_right_length by assumption. cbn [bind].
      rewrite IH; [reflexivity|].
      intros HV. apply H. constructor; assumption.
    + rewrite evaluate_wrong_length by assumption. reflexivity.
Qed.




Lemma dot_scale (t : R) (w v : vec) :
  dot (map (Rmult t) w) v = t * dot w v.
Proof.
  revert v. induction w as [|x w IH]; intros v; simpl; [ring|].
  destruct v as [|y v]; [ring|]. rewrite IH. ring.
Qed.

Lemma subs_scale (e : sym_expr) (d : nat) (t : R) (w : vec) :
  expr_degree e d -> subs e (map (Rmult t) w) = t ^ d * subs e w.
Proof.
  induction e as [v d'|c e IH|e1 IH1 e2 IH2|e1 IH1 e2 IH2]; simpl.
  - intros ->. rewrite dot_scale. apply Rpow_mult_distr.
  - intros H. rewrite IH by assumption. ring.
  - intros [H1 H2]. rewrite IH1, IH2 by assumption. ring.
  - intros [H1 H2]. rewrite IH1, IH2 by assumption. ring.
Qed.

(** X4: the constructor establishes the invariant of the class, and
    scaling, adding and subtracting keep it when the operands have one
    number of variables and one degree. *)
Theorem well_formed_preserved :
  (forall (const : R) (v : vec) (d : nat), well_formed (new_polynomial const v d)) /\
  (forall (p : custom_polynomial) (c : R),
     well_formed p -> well_formed (multiply_constant p c)) /\
  (forall p q : custom_polynomial,
     well_formed p -> well_formed q ->
     num_var q = num_var p -> degree q = degree p ->
     well_formed (add_polynomials p q) /\
     well_formed (sustract_polynomials p q)).
Proof.
  split; [|split].
  - intros const v d. repeat split.
  - intros p c [Hdim [Hdeg Hf]]. repeat split; assumption.
  - intros p q [Hdim [Hdeg Hf]] [Hdimq [Hdegq Hfq]] Hn Hd.
    rewrite Hn in Hdimq. rewrite Hd in Hdegq.
    split; repeat split; assumption.
Qed.

(** The sum of two squares in three variables. *)
Lemma well_formed_preserved_witness :
  well_formed (add_polynomials (new_polynomial 1 [1; 0; 0] 2)
                               (new_polynomial 1 [0; 0; 1] 2)).
Proof.
  destruct well_formed_preserved as [Hnew [_ Hadd]].
  apply (Hadd (new_polynomial 1 [1; 0; 0] 2) (new_polynomial 1 [0; 0; 1] 2));
    [apply Hnew | apply Hnew | reflexivity | reflexivity].
Defined.

(** X5: a polynomial of the class is homogeneous of its degree: its
    value at [t w] is [t^d] times its value at [w]; for an even degree it
    takes one value at [w] and at [-w]. *)
Theorem polynomial_homogeneous (p : custom_polynomial) (t : R) (w : vec) :
  well_formed p ->
  length w = num_var p ->
  evaluate p (map (Rmult t) w) = Ok (t ^ degree p * f p w) /\
  (Nat.Even (degree p) -> evaluate p (map (Rmult (-1)) w) = evaluate p w).
Proof.
  intros [_ [Hdeg Hf]] Hlen.
  assert (Hs : forall s, evaluate p (map (Rmult s) w) = Ok (s ^ degree p * f p w)).
  { intros s. rewrite evaluate_right_length by (rewrite length_map; assumption).
    rewrite !Hf. rewrite (subs_scale _ (degree p)) by assumption. reflexivity. }
  split; [apply Hs|].
  intros [m Hm]. rewrite Hs. rewrite evaluate_right_length by assumption.
  f_equal. rewrite Hm, pow_mult.
  replace ((-1) ^ 2) with 1 by (simpl; ring). rewrite pow1. ring.
Qed.

(** The polynomial [7 <(1,2,3),x>^4] at twice the point (1,0,0). *)
Lemma polynomial_homogeneous_witness :
  evaluate (new_polynomial 7 [1; 2; 3] 4) (map (Rmult 2) [1; 0; 0])
  = Ok (2 ^ 4 * f (new_polynomial 7 [1; 2; 3] 4) [1; 0; 0]).
Proof.
  apply (polynomial_homogeneous (new_polynomial 7 [1; 2; 3] 4) 2 [1; 0; 0]).
  - repeat split.
  - reflexivity.
Defined.

(** X6: the arithmetic is pointwise: the scaled polynomial, the sum and
    the difference evaluate to the scaled value, the sum and the
    difference of the values, and a polynomial minus itself evaluates to
    zero everywhere. *)
Theorem arithmetic_pointwise (p q : custom_polynomial) (c : R) (w : vec) :
  well_formed p -> well_formed q ->
  num_var q = num_var p ->
  length w = num_var p ->
  evaluate (multiply_constant p c) w = Ok (c * f p w) /\
  evaluate (add_polynomials p q) w = Ok (f p w + f q w) /\
  evaluate (sustract_polynomials p q) w = Ok (f p w - f q w) /\
  evaluate (sustract_polynomials p p) w = Ok 0.
Proof.
  intros [_ [_ Hf]] [_ [_ Hfq]] Hn Hlen.
  repeat split; rewrite evaluate_right_length by exact Hlen;
    f_equal; cbn; rewrite ?Hf, ?Hfq; ring.
Qed.

(** The squares of the first and of the third coordinate, at (3,4,5). *)
Lemma arithmetic_pointwise_witness :
  let p := new_polynomial 1 [1; 0; 0] 2 in
  let q := new_polynomial 1 [0; 0; 1] 2 in
  evaluate (add_polynomials p q) [3; 4; 5] = Ok (f p [3; 4; 5] + f q [3; 4; 5]).
Proof.
  intros p q.
  apply (arithmetic_pointwise p q 1 [3; 4; 5]);
    [repeat split | repeat split | reflexivity | reflexivity].
Defined.

(** ** The Lr-norm for an even exponent *)

Lemma sphere_surface_area_positive (k : Z) :
  (0 <= k)%Z -> exists a, sphere_surface_area k = Ok a /\ 0 < a.
Proof.
  intros Hk. destruct (ball_volume_total (k + 1)) as [v [Hv Hpos]]; [lia|].
  exists (IZR (k + 1) * v). unfold sphere_surface_area. rewrite Hv.
  split; [reflexivity|].
  apply Rmult_lt_0_compat; [|assumption]. apply IZR_lt. lia.
Qed.

Lemma pow_even_nonneg (x : R) (r : nat) : Nat.Even r -> 0 <= x ^ r.
Proof.
  intros [m ->]. rewrite pow_mult. apply pow_le. apply pow2_ge_0.
Qed.

Lemma np_sum_np_mul_nonneg (WX es : list R) :
  (forall w, In w WX -> 0 <= w) -> (forall e, In e es -> 0 <= e) ->
  0 <= np_sum (np_mul WX es).
Proof.
  revert es. induction WX as [|w WX IH]; intros es HW He; [simpl; lra|].
  destruct es as [|e es]; [simpl; lra|].
  unfold np_mul, np_sum in *. cbn [combine map fold_right fst snd].
  apply Rplus_le_le_0_compat.
  - apply Rmult_le_pos; [apply HW | apply He]; left; reflexivity.
  - apply IH; intros x Hx; [apply HW | apply He]; right; assumption.
Qed.

Lemma np_sum_np_mul_scale (c : R) (WX es : list R) :
  np_sum (np_mul WX (map (Rmult c) es)) = c * np_sum (np_mul WX es).
Proof.
  revert es. induction WX as [|w WX IH]; intros es; [simpl; ring|].
  destruct es as [|e es]; [simpl; ring|].
  unfold np_mul, np_sum in *. cbn [combine map fold_right fst snd].
  rewrite IH. ring.
Qed.

Lemma float_power_nonneg (s y : R) :
  0 <= s -> 0 < y -> exists x, float_power s y = Fin x /\ 0 <= x.
Proof.
  intros Hs Hy. unfold float_power.
  destruct (Rlt_dec 0 s) as [Hpos|Hnpos].
  - rewrite Rltb_true by assumption. eexists. split; [reflexivity|].
    left. apply exp_pos.
  - rewrite Rltb_false by lra. rewrite Reqb_true by lra.
    rewrite Rltb_true by assumption. exists 0. split; [reflexivity | lra].
Qed.

(** The root of order [r] undoes the power [r] of an absolute value. *)
Lemma Rpower_pow_root (c : R) (r : nat) :
  c <> 0 -> Nat.Even r -> r <> 0%nat -> Rpower (c ^ r) (1 / INR r) = Rabs c.
Proof.
  intros Hc Hr Hr0.
  assert (Habs : 0 < Rabs c) by (apply Rabs_pos_lt; assumption).
  assert (HINR : 0 < INR r) by (apply lt_0_INR; lia).
  rewrite <- (pow_even_Rabs c r Hr).
  rewrite <- Rpower_pow by assumption.
  rewrite Rpower_mult.
  replace (INR r * (1 / INR r)) with 1 by (field; lra).
  apply Rpower_1. assumption.
Qed.

Lemma float_power_scale (c s x : R) (r : nat) :
  0 <= s -> Nat.Even r -> r <> 0%nat ->
  float_power s (1 / INR r) = Fin x ->
  float_power (c ^ r * s) (1 / INR r) = Fin (Rabs c * x).
Proof.
  intros Hs Hr Hr0 Hx.
  assert (HINR : 0 < INR r) by (apply lt_0_INR; lia).
  assert (Hy : 0 < 1 / INR r) by (apply Rdiv_lt_0_compat; lra).
  unfold float_power in *.
  destruct (Rlt_dec 0 s) as [Hpos|Hnpos].
  - rewrite Rltb_true in Hx by assumption. inversion Hx; subst x; clear Hx.
    destruct (Req_dec_T c 0) as [->|Hc].
    + rewrite pow_i by lia. rewrite Rmult_0_l.
      rewrite Rltb_false by lra. rewrite Reqb_true by reflexivity.
      rewrite Rltb_true by assumption. rewrite Rabs_R0. f_equal. ring.
    + assert (Hcr : 0 < c ^ r).
      { rewrite <- (pow_even_Rabs c r Hr). apply pow_lt.
        apply Rabs_pos_lt. assumption. }
      rewrite Rltb_true by (apply Rmult_lt_0_compat; assumption).
      f_equal. rewrite <- Rpower_mult_distr by assumption.
      rewrite Rpower_pow_root by assumption. reflexivity.
  - assert (s = 0) by lra. subst s.
    rewrite Rltb_false in Hx by lra. rewrite Reqb_true in Hx by reflexivity.
    rewrite Rltb_true in Hx by assumption. inversion Hx; subst x.
    rewrite Rmult_0_r. rewrite Rltb_false by lra.
    rewrite Reqb_true by reflexivity. rewrite Rltb_true by assumption.
    f_equal. ring.
Qed.

(** The norm with all intermediate values named. *)
Lemma poly_Lr_norm_unfold (p : custom_polynomial) (X : list vec) (WX : list R)
    (r : nat) (a : R) :
  sphere_surface_area (Z.of_nat (num_var p) - 1) = Ok a -> a <> 0 ->
  Forall (fun v => length v = num_var p) X -> r <> 0%nat ->
  poly_Lr_norm p X WX r =
  Ok (float_power (1 / a * np_sum (np_mul WX (map (fun e => e ^ r) (map (f p) X))))
                  (1 / INR r)).
Proof.
  intros Ha Ha0 HX Hr. unfold poly_Lr_norm. rewrite Ha. cbn [bind].
  rewrite parallelized_evaluation_all by (apply Forall_forall; assumption).
  cbn [bind]. rewrite py_inv_ok by assumption. cbn [bind].
  rewrite py_inv_ok by (apply not_0_INR; assumption). reflexivity.
Qed.

Lemma poly_Lr_norm_even_defined (p : custom_polynomial) (X : list vec)
    (WX : list R) (r : nat) :
  (1 <= num_var p)%nat ->
  Forall (fun v => length v = num_var p) X ->
  (forall w, In w WX -> 0 <= w) ->
  Nat.Even r -> r <> 0%nat ->
  exists x, poly_Lr_norm p X WX r = Ok (Fin x) /\ 0 <= x.
Proof.
  intros Hn HX HW Hr Hr0.
  destruct (sphere_surface_area_positive (Z.of_nat (num_var p) - 1))
    as [a [Ha Hpos]]; [lia|].
  rewrite (poly_Lr_norm_unfold p X WX r a) by (assumption || lra).
  destruct (float_power_nonneg
              (1 / a * np_sum (np_mul WX (map (fun e => e ^ r) (map (f p) X))))
              (1 / INR r)) as [x [Hx Hx0]].
  - apply Rmult_le_pos.
    + left. apply Rdiv_lt_0_compat; lra.
    + apply np_sum_np_mul_nonneg; [assumption|].
      intros e He. apply in_map_iff in He. destruct He as [y [<- _]].
      apply pow_even_nonneg. assumption.
  - apply Rdiv_lt_0_compat; [lra|]. apply lt_0_INR. lia.
  - exists x. rewrite Hx. split; [reflexivity | assumption].
Qed.

(** X7: for an even exponent [r >= 2], one weight for each node, none
    of them negative, and nodes of the dimension of the polynomial, the
    norm is a number, not [nan], and it is not negative. *)
Theorem poly_Lr_norm_even_nonneg (p : custom_polynomial) (X : list vec)
    (WX : list R) (r : nat) :
  (1 <= num_var p)%nat ->
  Forall (fun v => length v = num_var p) X ->
  length WX = length X ->
  (forall w, In w WX -> 0 <= w) ->
  Nat.Even r -> r <> 0%nat ->
  exists x, poly_Lr_norm p X WX r = Ok (Fin x) /\ 0 <= x.
Proof.
  intros Hn HX _ HW Hr Hr0. apply poly_Lr_norm_even_defined; assumption.
Qed.

Lemma circle_nodes_plane (p : custom_polynomial) :
  num_var p = 2%nat -> Forall (fun v : vec => length v = num_var p) circle_nodes.
Proof. intros ->. repeat constructor. Qed.

Lemma circle_weights_nonneg (w : R) : In w circle_weights -> 0 <= w.
Proof.
  pose proof PI_RGT_0. intros [<- | [<- | [<- | [<- | []]]]]; lra.
Qed.

(** The polynomial [-x1^2] on the rule of the circle, [r = 2]. *)
Lemma poly_Lr_norm_even_nonneg_witness :
  exists x,
    poly_Lr_norm minus_x1_squared circle_nodes circle_weights 2 = Ok (Fin x) /\
    0 <= x.
Proof.
  apply poly_Lr_norm_even_nonneg.
  - cbn. lia.
  - apply circle_nodes_plane. reflexivity.
  - reflexivity.
  - exact circle_weights_nonneg.
  - exists 1%nat. reflexivity.
  - discriminate.
Defined.

(** X8: for an even exponent [r >= 2] and one weight for each node, none
    of them negative, the norm of [c] times a polynomial is [|c|] times
    the norm of the polynomial. *)
Theorem poly_Lr_norm_scale (p : custom_polynomial) (X : list vec)
    (WX : list R) (r : nat) (c x : R) :
  well_formed p ->
  (1 <= num_var p)%nat ->
  Forall (fun v => length v = num_var p) X ->
  length WX = length X ->
  (forall w, In w WX -> 0 <= w) ->
  Nat.Even r -> r <> 0%nat ->
  poly_Lr_norm p X WX r = Ok (Fin x) ->
  poly_Lr_norm (multiply_constant p c) X WX r = Ok (Fin (Rabs c * x)).
Proof.
  intros [_ [_ Hf]] Hn HX _ HW Hr Hr0 Hnorm.
  destruct (sphere_surface_area_positive (Z.of_nat (num_var p) - 1))
    as [a [Ha Hpos]]; [lia|].
  rewrite (poly_Lr_norm_unfold p X WX r a) in Hnorm by (assumption || lra).
  rewrite (poly_Lr_norm_unfold (multiply_constant p c) X WX r a)
    by (assumption || lra).
  f_equal.
  replace (map (fun e => e ^ r) (map (f (multiply_constant p c)) X))
    with (map (Rmult (c ^ r)) (map (fun e => e ^ r) (map (f p) X))).
  2:{ rewrite !map_map. apply map_ext. intros w. cbn.
      rewrite <- Hf. apply eq_sym, Rpow_mult_distr. }
  rewrite np_sum_np_mul_scale.
  replace (1 / a * (c ^ r * np_sum (np_mul WX (map (fun e => e ^ r) (map (f p) X)))))
    with (c ^ r * (1 / a * np_sum (np_mul WX (map (fun e => e ^ r) (map (f p) X)))))
    by ring.
  apply float_power_scale; try assumption.
  - apply Rmult_le_pos.
    + left. apply Rdiv_lt_0_compat; lra.
    + apply np_sum_np_mul_nonneg; [assumption|].
      intros e He. apply in_map_iff in He. destruct He as [y [<- _]].
      apply pow_even_nonneg. assumption.
  - inversion Hnorm. reflexivity.
Qed.

(** Three times the polynomial [-x1^2] on the rule of the circle,
    [r = 2]. *)
Lemma poly_Lr_norm_scale_witness :
  exists x,
    poly_Lr_norm minus_x1_squared circle_nodes circle_weights 2 = Ok (Fin x) /\
    poly_Lr_norm (multiply_constant minus_x1_squared 3)
                 circle_nodes circle_weights 2 = Ok (Fin (Rabs 3 * x)).
Proof.
  assert (Hr : Nat.Even 2) by (exists 1%nat; reflexivity).
  destruct (poly_Lr_norm_even_defined minus_x1_squared circle_nodes
              circle_weights 2 ltac:(cbn; lia)
              (circle_nodes_plane minus_x1_squared eq_refl)
              circle_weights_nonneg Hr ltac:(discriminate))
    as [x [Hx _]].
  exists x. split; [exact Hx|].
  apply (poly_Lr_norm_scale minus_x1_squared circle_nodes circle_weights 2 3 x).
  - repeat split.
  - cbn. lia.
  - apply circle_nodes_plane. reflexivity.
  - reflexivity.
  - exact circle_weights_nonneg.
  - exact Hr.
  - discriminate.
  - exact Hx.
Defined.



(** ** The quadrature rule on the sphere *)

Lemma np_sum_app (a b : list R) : np_sum (a ++ b) = np_sum a + np_sum b.
Proof.
  induction a as [|x a IH]; simpl.
  - ring.
  - unfold np_sum in *. simpl. rewrite IH. ring.
Qed.

Lemma np_sum_map_scale (c : R) (l : list R) :
  np_sum (map (fun y => c * y) l) = c * np_sum l.
Proof.
  induction l as [|x l IH]; unfold np_sum in *; simpl.
  - ring.
  - rewrite IH. ring.
Qed.

(** The sum of all products is the product of the sums. *)
Lemma np_sum_list_prod (A B : list R) :
  np_sum (map (fun c => fst c * snd c) (list_prod A B)) = np_sum A * np_sum B.
Proof.
  induction A as [|a A IH]; simpl.
  - unfold np_sum. simpl. ring.
  - rewrite map_app, np_sum_app, IH, map_map. simpl.
    rewrite np_sum_map_scale. unfold np_sum. simpl. ring.
Qed.

Lemma squares_scale (s : R) (y : vec) :
  np_sum (map (fun x => x * x) (map (fun t => s * t) y))
  = s * s * np_sum (map (fun x => x * x) y).
Proof.
  induction y as [|t y IH]; unfold np_sum in *; simpl.
  - ring.
  - rewrite IH. ring.
Qed.

Lemma custom_flatten_length (z : R) (y : vec) :
  length (custom_flatten (z, y)) = S (length y).
Proof. unfold custom_flatten. simpl. rewrite length_map. reflexivity. Qed.

(** A point of the sphere one dimension lower, lifted to the height [z]
    with [-1 <= z <= 1], is a point of the sphere. *)
Lemma custom_flatten_unit (z : R) (y : vec) :
  -1 <= z <= 1 -> norm y = 1 -> norm (custom_flatten (z, y)) = 1.
Proof.
  intros Hz Hy. unfold norm in *.
  assert (Hs : np_sum (map (fun x => x * x) y) = 1).
  { assert (H0 : 0 <= np_sum (map (fun x => x * x) y)).
    { clear. induction y as [|t y IH]; unfold np_sum in *; simpl; [lra|].
      generalize (Rle_0_sqr t). unfold Rsqr. lra. }
    rewrite <- (sqrt_sqrt _ H0). rewrite Hy. ring. }
  unfold custom_flatten. cbn [fst snd map].
  replace (np_sum (z * z :: map (fun x => x * x)
                              (map (fun y0 => sqrt (1 - z ^ 2) * y0) y)))
    with (z * z + np_sum (map (fun x => x * x)
                              (map (fun y0 => sqrt (1 - z ^ 2) * y0) y)))
    by reflexivity.
  rewrite squares_scale, Hs, sqrt_sqrt by nra.
  replace (z * z + (1 - z ^ 2) * 1) with 1 by ring.
  apply sqrt_1.
Qed.

Section QuadratureRule.

Variable roots_jacobi : nat -> R -> R -> res (list R * list R).
Variable deg : nat.

Lemma spherical_quadrature_inversion (n : Z) (X : list vec) (WX : list R) :
  spherical_quadrature roots_jacobi n deg = Ok (X, WX) ->
  (n = 1%Z /\ X = [[1]; [-1]] /\ WX = [1; 1]) \/
  ((1 < n)%Z /\
   exists Y WY Z WZ,
     spherical_quadrature roots_jacobi (n - 1) deg = Ok (Y, WY) /\
     roots_jacobi deg (IZR (n - 3) / 2) (IZR (n - 3) / 2) = Ok (Z, WZ) /\
     X = map custom_flatten (list_prod Z Y) /\
     WX = map (fun c => fst c * snd c) (list_prod WZ WY)).
Proof.
  intros H.
  destruct (Z_lt_dec n 1) as [Hlt | Hge].
  - rewrite spherical_quadrature_invalid in H by assumption. discriminate H.
  - destruct (Z.eq_dec n 1) as [-> | Hne].
    + rewrite spherical_quadrature_base in H. inversion H. left. auto.
    + right. split; [lia|].
      rewrite spherical_quadrature_step in H by lia.
      destruct (spherical_quadrature roots_jacobi (n - 1) deg)
        as [[Y WY] | e]; cbn [bind] in H; [|discriminate H].
      destruct (roots_jacobi deg (IZR (n - 3) / 2) (IZR (n - 3) / 2))
        as [[Z WZ] | e]; cbn [bind] in H; [|discriminate H].
      inversion H. exists Y, WY, Z, WZ. auto.
Qed.

Lemma spherical_quadrature_ind (P : Z -> list vec -> list R -> Prop) :
  P 1%Z [[1]; [-1]] [1; 1] ->
  (forall n Y WY Z WZ,
     (1 < n)%Z ->
     spherical_quadrature roots_jacobi (n - 1) deg = Ok (Y, WY) ->
     P (n - 1)%Z Y WY ->
     roots_jacobi deg (IZR (n - 3) / 2) (IZR (n - 3) / 2) = Ok (Z, WZ) ->
     P n (map custom_flatten (list_prod Z Y))
         (map (fun c => fst c * snd c) (list_prod WZ WY))) ->
  forall n X WX,
    spherical_quadrature roots_jacobi n deg = Ok (X, WX) -> P n X WX.
Proof.
  intros Hbase Hstep n.
  assert (H : forall m : nat, forall n X WX, Z.to_nat n = m ->
             spherical_quadrature roots_jacobi n deg = Ok (X, WX) -> P n X WX).
  { induction m as [|m IH]; intros n0 X WX Hm Hq.
    - destruct (spherical_quadrature_inversion _ _ _ Hq)
        as [[-> _] | [Hn _]]; [discriminate Hm | lia].
    - destruct (spherical_quadrature_inversion _ _ _ Hq)
        as [[-> [-> ->]] | [Hn [Y [WY [Z [WZ [HY [HZ [-> ->]]]]]]]]].
      + exact Hbase.
      + apply Hstep; try assumption. apply IH; [lia | assumption]. }
  intros X WX. apply (H (Z.to_nat n)). reflexivity.
Qed.

(** X10: when the Gauss-Jacobi nodes lie in [-1, 1], every node of the
    rule for the dimension [n] has [n] coordinates and lies on the unit
    sphere. *)
Theorem spherical_quadrature_unit_nodes (n : Z) (X : list vec) (WX : list R) :
  (forall a b Z WZ, roots_jacobi deg a b = Ok (Z, WZ) ->
                    Forall (fun z => -1 <= z <= 1) Z) ->
  spherical_quadrature roots_jacobi n deg = Ok (X, WX) ->
  Forall (fun x => length x = Z.to_nat n /\ norm x = 1) X.
Proof.
  intros Hj. revert n X WX.
  apply (spherical_quadrature_ind
           (fun n X _ => Forall (fun x => length x = Z.to_nat n /\ norm x = 1) X)).
  - repeat constructor.
    + unfold norm, np_sum. simpl.
      replace (1 * 1 + 0) with 1 by ring. apply sqrt_1.
    + unfold norm, np_sum. simpl.
      replace (-1 * -1 + 0) with 1 by ring. apply sqrt_1.
  - intros n Y WY Z WZ Hn _ IH HZ.
    apply Forall_forall. intros x Hx.
    apply in_map_iff in Hx. destruct Hx as [[z y] [<- Hin]].
    apply in_prod_iff in Hin. destruct Hin as [Hz Hy].
    rewrite Forall_forall in IH. destruct (IH y Hy) as [Hlen Hnorm].
    pose proof (Hj _ _ _ _ HZ) as Hrange. rewrite Forall_forall in Hrange.
    split.
    + rewrite custom_flatten_length, Hlen. lia.
    + apply custom_flatten_unit; auto.
Qed.

(** X11: when [roots_jacobi] returns [deg] nodes with [deg] positive
    weights, the rule for the dimension [n] has [2 deg^(n-1)] nodes, as
    many weights, and every weight is positive. *)
Theorem spherical_quadrature_size (n : Z) (X : list vec) (WX : list R) :
  (forall a b Z WZ, roots_jacobi deg a b = Ok (Z, WZ) ->
                    length Z = deg /\ length WZ = deg /\
                    Forall (fun w => 0 < w) WZ) ->
  spherical_quadrature roots_jacobi n deg = Ok (X, WX) ->
  length X = (2 * deg ^ Z.to_nat (n - 1))%nat /\
  length WX = length X /\
  Forall (fun w => 0 < w) WX.
Proof.
  intros Hj. revert n X WX.
  apply (spherical_quadrature_ind
           (fun n X WX => length X = (2 * deg ^ Z.to_nat (n - 1))%nat /\
                          length WX = length X /\
                          Forall (fun w => 0 < w) WX)).
  - split; [reflexivity|]. split; [reflexivity|].
    constructor; [lra | constructor; [lra | constructor]].
  - intros n Y WY Z WZ Hn _ [IHlen [IHw IHpos]] HZ.
    destruct (Hj _ _ _ _ HZ) as [HlZ [HlW Hpos]].
    rewrite !length_map, !length_prod, HlZ, HlW, IHw, IHlen.
    split; [|split; [reflexivity|]].
    + replace (Z.to_nat (n - 1)) with (S (Z.to_nat (n - 1 - 1))) by lia.
      rewrite Nat.pow_succ_r'. lia.
    + apply Forall_forall. intros w Hw.
      apply in_map_iff in Hw. destruct Hw as [[a b] [<- Hin]].
      apply in_prod_iff in Hin. destruct Hin as [Ha Hb].
      rewrite Forall_forall in Hpos, IHpos. cbn [fst snd].
      apply Rmult_lt_0_compat; auto.
Qed.

(** X12: when the Gauss-Jacobi weights for the parameter [(m-3)/2] sum to
    the integral of their weight function, which is the area of the
    sphere of dimension [m-1] over the area of the sphere of dimension
    [m-2], the weights of the rule for the dimension [n] sum to the area
    of the sphere of dimension [n-1], the constant by which both norms
    divide. *)
Theorem spherical_quadrature_total_weight (n : Z) (X : list vec) (WX : list R) :
  (forall (m : Z) Z WZ a b,
     (1 < m <= n)%Z ->
     roots_jacobi deg (IZR (m - 3) / 2) (IZR (m - 3) / 2) = Ok (Z, WZ) ->
     sphere_surface_area (m - 1) = Ok a ->
     sphere_surface_area (m - 2) = Ok b ->
     np_sum WZ * b = a) ->
  spherical_quadrature roots_jacobi n deg = Ok (X, WX) ->
  sphere_surface_area (n - 1) = Ok (np_sum WX).
Proof.
  intros Hj Hq. revert n X WX Hq Hj.
  apply (spherical_quadrature_ind
           (fun n X WX =>
              (forall (m : Z) Z WZ a b,
                 (1 < m <= n)%Z ->
                 roots_jacobi deg (IZR (m - 3) / 2) (IZR (m - 3) / 2) = Ok (Z, WZ) ->
                 sphere_surface_area (m - 1) = Ok a ->
                 sphere_surface_area (m - 2) = Ok b ->
                 np_sum WZ * b = a) ->
              sphere_surface_area (n - 1) = Ok (np_sum WX))).
  - intros _. change (1 - 1)%Z with 0%Z. rewrite sphere_surface_area_0.
    f_equal. unfold np_sum. simpl. ring.
  - intros n Y WY Z WZ Hn _ IH HZ Hj.
    assert (HY : sphere_surface_area (n - 1 - 1) = Ok (np_sum WY)).
    { apply IH. intros m Z0 WZ0 a b Hm. apply Hj. lia. }
    destruct (sphere_surface_area_positive (n - 1)) as [a [Ha _]]; [lia|].
    rewrite Ha. f_equal. rewrite np_sum_list_prod. symmetry.
    apply (Hj n Z WZ a (np_sum WY)); try assumption; [lia|].
    replace (n - 2)%Z with (n - 1 - 1)%Z by lia. exact HY.
Qed.

End QuadratureRule.

Lemma roots_jacobi_table_inversion (deg : nat) (a b : R) (Z WZ : list R) :
  roots_jacobi_table deg a b = Ok (Z, WZ) ->
  deg = 2%nat /\ Z = [- / sqrt 2; / sqrt 2] /\ WZ = [PI / 2; PI / 2].
Proof.
  unfold roots_jacobi_table. intros H.
  destruct (deg =? 2)%nat eqn:E; cbn [andb] in H; [|discriminate H].
  destruct (Reqb a (-1 / 2) && Reqb b (-1 / 2))%bool; [|discriminate H].
  inversion H. apply Nat.eqb_eq in E. auto.
Qed.

Lemma inv_sqrt2_range : 0 < / sqrt 2 <= 1.
Proof.
  assert (H1 : 1 <= sqrt 2).
  { rewrite <- sqrt_1 at 1. apply sqrt_le_1_alt. lra. }
  split.
  - apply Rinv_0_lt_compat. lra.
  - rewrite <- Rinv_1. apply Rinv_le_contravar; lra.
Qed.

(** The four nodes of the rule on the circle. *)
Lemma spherical_quadrature_unit_nodes_witness :
  Forall (fun x => length x = Z.to_nat 2 /\ norm x = 1) circle_nodes.
Proof.
  apply (spherical_quadrature_unit_nodes roots_jacobi_table 2 2
           circle_nodes circle_weights).
  - intros a b Z WZ H.
    destruct (roots_jacobi_table_inversion _ _ _ _ _ H) as [_ [-> _]].
    pose proof inv_sqrt2_range.
    constructor; [lra | constructor; [lra | constructor]].
  - exact spherical_quadrature_circle.
Defined.

(** The rule on the circle for the degree two has [2 * 2^1] nodes. *)
Lemma spherical_quadrature_size_witness :
  length circle_nodes = (2 * 2 ^ Z.to_nat (2 - 1))%nat /\
  length circle_weights = length circle_nodes /\
  Forall (fun w => 0 < w) circle_weights.
Proof.
  apply (spherical_quadrature_size roots_jacobi_table 2 2
           circle_nodes circle_weights).
  - intros a b Z WZ H.
    destruct (roots_jacobi_table_inversion _ _ _ _ _ H) as [_ [-> ->]].
    pose proof PI_RGT_0.
    split; [reflexivity|]. split; [reflexivity|].
    constructor; [lra | constructor; [lra | constructor]].
  - exact spherical_quadrature_circle.
Defined.

(** The weights of the rule on the circle sum to its length [2 pi]. *)
Lemma spherical_quadrature_total_weight_witness :
  sphere_surface_area (2 - 1) = Ok (np_sum circle_weights).
Proof.
  apply (spherical_quadrature_total_weight roots_jacobi_table 2 2
           circle_nodes circle_weights).
  - intros m Z WZ a b Hm H Ha Hb.
    assert (m = 2%Z) by lia. subst m.
    destruct (roots_jacobi_table_inversion _ _ _ _ _ H) as [_ [_ ->]].
    change (2 - 1)%Z with 1%Z in Ha. change (2 - 2)%Z with 0%Z in Hb.
    rewrite sphere_surface_area_1 in Ha. rewrite sphere_surface_area_0 in Hb.
    inversion Ha. inversion Hb. unfold np_sum. simpl. field.
  - exact spherical_quadrature_circle.
Defined.

(** ** Sampling on the sphere and the size of a batch *)

Lemma squares_nonneg (v : vec) : 0 <= np_sum (map (fun x => x * x) v).
Proof.
  induction v as [|t v IH]; unfold np_sum in *; simpl; [lra|].
  generalize (Rle_0_sqr t). unfold Rsqr. lra.
Qed.

Lemma squares_div (c : R) (v : vec) :
  np_sum (map (fun x => x * x) (map (fun x => x / c) v))
  = / c * / c * np_sum (map (fun x => x * x) v).
Proof.
  induction v as [|t v IH]; unfold np_sum in *; simpl.
  - ring.
  - rewrite IH. unfold Rdiv. ring.
Qed.

(** A row that is not zero, divided by its norm, has the norm one. *)
Lemma normalised_row_unit (g : vec) :
  norm g <> 0 -> norm (map (fun x => x / norm g) g) = 1.
Proof.
  intros Hg. unfold norm at 1. rewrite squares_div.
  assert (Hs : norm g * norm g = np_sum (map (fun x => x * x) g)).
  { unfold norm. apply sqrt_sqrt. apply squares_nonneg. }
  rewrite <- Hs.
  replace (/ norm g * / norm g * (norm g * norm g)) with 1 by (field; assumption).
  apply sqrt_1.
Qed.

(** X13: [sample_spherical] raises for a negative size or dimension;
    otherwise it returns one row for each row that [randn] drew, of the
    same length, and every row that was not drawn as the zero vector has
    the norm one. *)
Theorem sample_spherical_rows (randn : nat -> nat -> nat -> list vec)
    (k : nat) (n size : Z) :
  ((size < 0)%Z \/ (n < 0)%Z ->
   exists msg, sample_spherical randn k n size = Raise (ValueError msg)) /\
  ((0 <= size)%Z -> (0 <= n)%Z ->
   exists V,
     sample_spherical randn k n size = Ok V /\
     Forall2 (fun g v => length v = length g /\ (norm g <> 0 -> norm v = 1))
             (randn k (Z.to_nat size) (Z.to_nat n)) V).
Proof.
  unfold sample_spherical. split.
  - intros H.
    replace ((size <? 0) || (n <? 0))%Z%bool with true.
    + eexists. reflexivity.
    + symmetry. apply orb_true_iff.
      destruct H; [left | right]; apply Z.ltb_lt; assumption.
  - intros Hs Hn.
    replace ((size <? 0) || (n <? 0))%Z%bool with false.
    + eexists. split; [reflexivity|].
      induction (randn k (Z.to_nat size) (Z.to_nat n)) as [|g G IH];
        cbn [map]; constructor; [|exact IH].
      split; [apply length_map | apply normalised_row_unit].
    + symmetry. apply orb_false_iff. split; apply Z.ltb_ge; assumption.
Qed.

(** The batch with the one row (3, 4), and a call with the size -1. *)
Lemma sample_spherical_rows_witness :
  (exists msg,
     sample_spherical (randn_script decomposer_script) 0 2 (-1)
     = Raise (ValueError msg)) /\
  (exists V,
     sample_spherical (randn_script decomposer_script) 0 2 1 = Ok V /\
     Forall2 (fun g v => length v = length g /\ (norm g <> 0 -> norm v = 1))
             [[3; 4]] V).
Proof.
  split.
  - apply (proj1 (sample_spherical_rows (randn_script decomposer_script) 0 2 (-1))).
    left. lia.
  - apply (proj2 (sample_spherical_rows (randn_script decomposer_script) 0 2 1));
      lia.
Defined.

(** The number that multiplies [t] in [sample_size], for [r >= 1]. *)
Lemma sample_size_unfold (n : Z) (deg r : nat) (accu : R) :
  (1 <= n)%Z -> (1 <= r)%nat ->
  sample_size n deg r accu =
  math_ceil
    (fl_scale (fl_neg (np_log (1 - accu)))
       (Rmin (INR (2 * r) ^ (deg * r))
             (INR (comb (r * deg + Z.to_nat (n - 1)) (r * deg))))).
Proof.
  intros Hn Hr. unfold sample_size, math_comb.
  replace (Z.of_nat (r * deg) + n - 1 <? 0)%Z with false
    by (symmetry; apply Z.ltb_ge; lia).
  replace (Z.of_nat (r * deg) <? 0)%Z with false
    by (symmetry; apply Z.ltb_ge; lia).
  cbn [bind].
  assert (Hpos : 0 < INR (2 * r)) by (apply lt_0_INR; lia).
  rewrite py_inv_ok by lra. cbn [bind].
  rewrite Rmin_pow by apply pow_nonneg_nonneg.
  rewrite pow_nonneg_a, pow_nonneg_b by assumption.
  replace (Z.to_nat (Z.of_nat (r * deg) + n - 1))
    with (r * deg + Z.to_nat (n - 1))%nat by lia.
  rewrite Nat2Z.id. reflexivity.
Qed.

Lemma sample_factor_ge_1 (n : Z) (deg r : nat) :
  (1 <= r)%nat ->
  1 <= Rmin (INR (2 * r) ^ (deg * r))
            (INR (comb (r * deg + Z.to_nat (n - 1)) (r * deg))).
Proof.
  intros Hr. apply Rmin_glb.
  - apply pow_R1_Rle. change 1 with (INR 1). apply le_INR. lia.
  - change 1 with (INR 1). apply le_INR. apply comb_pos. lia.
Qed.

Lemma Zceil_pos (x : R) : 0 < x -> (1 <= Zceil x)%Z.
Proof.
  intros Hx. unfold Zceil.
  destruct (base_Int_part (- x)) as [H1 _].
  assert (H : (Int_part (- x) < 0)%Z).
  { apply lt_IZR. lra. }
  lia.
Qed.

Lemma Zceil_nonpos (x : R) : x <= 0 -> (Zceil x <= 0)%Z.
Proof.
  intros Hx. unfold Zceil.
  destruct (base_Int_part (- x)) as [_ H2].
  assert (H : (-1 < Int_part (- x))%Z).
  { apply lt_IZR. lra. }
  lia.
Qed.

Lemma ln_neg (x : R) : 0 < x < 1 -> ln x < 0.
Proof.
  intros Hx. rewrite <- ln_1. apply ln_increasing; lra.
Qed.

(** X14: for a dimension [n >= 1], an exponent [r >= 1] and an accuracy
    strictly between 0 and 1, [sample_size] returns a positive integer,
    so that the batch size [min(size, 100000)] that
    [greedy_approximation] derives from it lies between 1 and 100000. *)
Theorem sample_size_positive (n : Z) (deg r : nat) (accu : R) :
  (1 <= n)%Z -> (1 <= r)%nat -> 0 < accu < 1 ->
  exists s, sample_size n deg r accu = Ok s /\ (1 <= s)%Z /\
            (1 <= py_min s 100000 <= 100000)%Z.
Proof.
  intros Hn Hr Haccu.
  rewrite sample_size_unfold by assumption.
  unfold np_log. rewrite Rltb_true by lra. cbn [fl_neg fl_scale math_ceil].
  eexists. split; [reflexivity|].
  pose proof (sample_factor_ge_1 n deg r Hr) as Hf.
  pose proof (ln_neg (1 - accu) ltac:(lra)) as Hl.
  assert (Hs : (1 <= Zceil (- ln (1 - accu) *
                  Rmin (INR (2 * r) ^ (deg * r))
                       (INR (comb (r * deg + Z.to_nat (n - 1)) (r * deg)))))%Z).
  { apply Zceil_pos. apply Rmult_lt_0_compat; lra. }
  split; [exact Hs|].
  unfold py_min.
  destruct (100000 <? _)%Z eqn:E; [lia|]. apply Z.ltb_ge in E. lia.
Qed.

Lemma sample_size_positive_witness :
  exists s, sample_size 2 2 1 (1 / 2) = Ok s /\ (1 <= s)%Z /\
            (1 <= py_min s 100000 <= 100000)%Z.
Proof. apply (sample_size_positive 2 2 1 (1 / 2)); [lia | lia | lra]. Defined.

(** X15: outside that domain, for [n >= 1]: the accuracy 1 ends in
    [OverflowError] (the logarithm is minus infinity), an accuracy above
    1 in [ValueError] (the logarithm is [nan]), the exponent [r = 0] in
    [ZeroDivisionError]; an accuracy at or below 0 raises nothing and
    returns a size that is not positive. *)
Theorem sample_size_outside_domain (n : Z) (deg r : nat) (accu : R) :
  (1 <= n)%Z ->
  ((1 <= r)%nat -> accu = 1 ->
   exists msg, sample_size n deg r accu = Raise (OverflowError msg)) /\
  ((1 <= r)%nat -> 1 < accu ->
   exists msg, sample_size n deg r accu = Raise (ValueError msg)) /\
  (r = 0%nat -> sample_size n deg r accu = Raise ZeroDivisionError) /\
  ((1 <= r)%nat -> accu <= 0 ->
   exists s, sample_size n deg r accu = Ok s /\ (s <= 0)%Z).
Proof.
  intros Hn. split; [|split; [|split]].
  - intros Hr ->. rewrite sample_size_unfold by assumption.
    replace (1 - 1) with 0 by ring.
    unfold np_log. rewrite Rltb_false by lra. rewrite Reqb_true by reflexivity.
    cbn [fl_neg fl_scale]. pose proof (sample_factor_ge_1 n deg r Hr) as Hf.
    rewrite Rltb_true by lra. eexists. reflexivity.
  - intros Hr Haccu. rewrite sample_size_unfold by assumption.
    unfold np_log. rewrite Rltb_false by lra. rewrite Reqb_false by lra.
    eexists. reflexivity.
  - intros ->. unfold sample_size, math_comb.
    replace (Z.of_nat (0 * deg) + n - 1 <? 0)%Z with false
      by (symmetry; apply Z.ltb_ge; lia).
    replace (Z.of_nat (0 * deg) <? 0)%Z with false
      by (symmetry; apply Z.ltb_ge; lia).
    cbn [bind]. change (INR (2 * 0)) with 0. rewrite py_inv_zero. reflexivity.
  - intros Hr Haccu. rewrite sample_size_unfold by assumption.
    unfold np_log. rewrite Rltb_true by lra. cbn [fl_neg fl_scale math_ceil].
    eexists. split; [reflexivity|]. apply Zceil_nonpos.
    pose proof (sample_factor_ge_1 n deg r Hr) as Hf.
    assert (Hl : 0 <= ln (1 - accu)).
    { rewrite <- ln_1. destruct (Req_dec accu 0) as [-> | Hne].
      - replace (1 - 0) with 1 by ring. lra.
      - left. apply ln_increasing; lra. }
    nra.
Qed.

Lemma sample_size_outside_domain_witness :
  (exists msg, sample_size 2 2 1 1 = Raise (OverflowError msg)) /\
  (exists msg, sample_size 2 2 1 2 = Raise (ValueError msg)) /\
  sample_size 2 2 0 (1 / 2) = Raise ZeroDivisionError /\
  (exists s, sample_size 2 2 1 0 = Ok s /\ (s <= 0)%Z).
Proof.
  destruct (sample_size_outside_domain 2 2 1 1 ltac:(lia)) as [H1 _].
  destruct (sample_size_outside_domain 2 2 1 2 ltac:(lia)) as [_ [H2 _]].
  destruct (sample_size_outside_domain 2 2 0 (1 / 2) ltac:(lia)) as [_ [_ [H3 _]]].
  destruct (sample_size_outside_domain 2 2 1 0 ltac:(lia)) as [_ [_ [_ H4]]].
  split; [apply H1; [lia | reflexivity]|].
  split; [apply H2; [lia | lra]|].
  split; [apply H3; reflexivity|].
  apply H4; [lia | lra].
Defined.

(** ** What [vec_finder] returns *)

(** [argmax_from] scans the rest [l] of an array whose part [pre] it has
    seen: it returns the position of an entry that is as large as any
    other, and that entry is the maximum that [np.max] computes. *)
Lemma argmax_from_spec (l : list R) :
  forall (pre : list R) (best : R) (besti : nat),
    (besti < length pre)%nat ->
    nth besti pre 0 = best ->
    (forall x, In x pre -> x <= best) ->
    (argmax_from best besti (length pre) l < length (pre ++ l))%nat /\
    nth (argmax_from best besti (length pre) l) (pre ++ l) 0
    = fold_left Rmax l best /\
    (forall x, In x (pre ++ l) -> x <= fold_left Rmax l best).
Proof.
  induction l as [|x l IH]; intros pre best besti Hlt Hnth Hmax.
  - cbn [argmax_from fold_left]. rewrite app_nil_r. auto.
  - cbn [argmax_from fold_left].
    replace (pre ++ x :: l) with ((pre ++ [x]) ++ l)
      by (rewrite <- app_assoc; reflexivity).
    replace (S (length pre)) with (length (pre ++ [x]))
      by (rewrite length_app; simpl; lia).
    unfold Rltb. destruct (Rlt_dec best x) as [Hbx | Hbx].
    + replace (Rmax best x) with x by (symmetry; apply Rmax_right; lra).
      apply IH.
      * rewrite length_app. simpl. lia.
      * rewrite app_nth2 by lia. rewrite Nat.sub_diag. reflexivity.
      * intros y Hy. apply in_app_or in Hy.
        destruct Hy as [Hy | [<- | []]]; [|lra].
        specialize (Hmax y Hy). lra.
    + replace (Rmax best x) with best by (symmetry; apply Rmax_left; lra).
      apply IH.
      * rewrite length_app. simpl. lia.
      * rewrite app_nth1 by assumption. assumption.
      * intros y Hy. apply in_app_or in Hy.
        destruct Hy as [Hy | [<- | []]]; [auto | lra].
Qed.

(** [np.argmax] and [np.max] agree: the entry at the position of the
    first is the second, and no entry is larger. *)
Lemma np_argmax_np_max (l : list R) (j : nat) (m : R) :
  np_argmax l = Ok j -> np_max l = Ok m ->
  (j < length l)%nat /\ nth j l 0 = m /\ forall x, In x l -> x <= m.
Proof.
  destruct l as [|x l]; [discriminate|].
  cbn [np_argmax np_max]. intros Hj Hm. inversion Hj. inversion Hm.
  apply (argmax_from_spec l [x] x 0%nat).
  - simpl. lia.
  - reflexivity.
  - intros y [<- | []]. lra.
Qed.

Section FinderResult.

Variable randn : nat -> nat -> nat -> list vec.
Variables (n : Z) (r : nat) (poly projection_poly : custom_polynomial).
Variables (accu : R) (max_size : Z) (inner : R) (W X : list vec) (WX : list R).

(** The rows of a batch [V] that the filter on the inner products with
    the directions of [W] lets through. *)
Let survivors (V : list vec) : list vec :=
  if negb (is_empty W)
  then filter (fun v => Rltb (row_max (map (fun w => Rabs (dot v w)) W)) inner) V
  else V.

Let poly_diff : custom_polynomial := sustract_polynomials poly projection_poly.

(** A quadruple comes out of the first batch of the call only. *)
Lemma vec_finder_some (tries k : nat) (q : quadruple) (k' : nat) :
  vec_finder randn n r poly projection_poly accu max_size inner W X WX tries k
  = (Ok (Some q), k') ->
  vec_finder_attempt randn n r poly projection_poly max_size inner W X WX k
  = Ok (Accept q) /\ k' = S k.
Proof.
  intros H.
  destruct (vec_finder_attempt randn n r poly projection_poly max_size inner
                               W X WX k) as [[q' |] | e] eqn:Hat.
  - rewrite (vec_finder_accept _ _ _ _ _ _ _ _ _ _ _ _ _ _ Hat) in H.
    inversion H. auto.
  - destruct (le_dec (S tries) max_tries) as [Hle | Hgt].
    + rewrite vec_finder_retry in H by assumption.
      destruct (vec_finder randn n r poly projection_poly accu max_size inner
                           W X WX (S tries) (S k)) as [[o | e] k1];
        simpl in H; inversion H.
    + rewrite vec_finder_exhausted in H by (assumption || lia).
      inversion H.
  - rewrite (vec_finder_raise _ _ _ _ _ _ _ _ _ _ _ _ _ _ Hat) in H.
    inversion H.
Qed.

Lemma vec_finder_attempt_accept (k : nat) (v : vec) (fv : R)
    (q : custom_polynomial) (lrnorm : fl) :
  vec_finder_attempt randn n r poly projection_poly max_size inner W X WX k
  = Ok (Accept (v, fv, q, lrnorm)) ->
  poly_Lr_norm poly_diff X WX r = Ok lrnorm /\
  q = new_polynomial 1 v (degree poly) /\
  fv = f poly_diff v /\
  fl_leb (fl_scale lrnorm 0.5) (Fin (Rabs fv)) = true /\
  exists V,
    sample_spherical randn k n max_size = Ok V /\
    In v (survivors V) /\
    Forall (fun u => length u = num_var poly) (survivors V) /\
    (forall u, In u (survivors V) -> Rabs (f poly_diff u) <= Rabs fv).
Proof.
  unfold vec_finder_attempt. fold poly_diff.
  destruct (sample_spherical randn k n max_size) as [V | e]; cbn [bind];
    [|discriminate].
  fold (survivors V).
  destruct (poly_Lr_norm poly_diff X WX r) as [lr | e]; cbn [bind];
    [|discriminate].
  destruct (parallelized_evaluation_dimension_cases poly_diff (survivors V))
    as [Hgood Hbad].
  destruct (Forall_dec (fun u : vec => length u = num_var poly_diff)
              (fun u => Nat.eq_dec (length u) (num_var poly_diff))
              (survivors V)) as [Hall | Hnot].
  2:{ rewrite (Hbad Hnot). cbn [bind]. discriminate. }
  rewrite (Hgood Hall). cbn [bind].
  destruct (np_argmax (map Rabs (map (f poly_diff) (survivors V))))
    as [j | e] eqn:Hj; cbn [bind]; [|discriminate].
  unfold py_index.
  destruct (nth_error (survivors V) j) as [v0 |] eqn:Hv; cbn [bind];
    [|discriminate].
  destruct (nth_error (map (f poly_diff) (survivors V)) j) as [fv0 |] eqn:Hfv;
    cbn [bind]; [|discriminate].
  destruct (np_max (map Rabs (map (f poly_diff) (survivors V))))
    as [m | e] eqn:Hm; cbn [bind]; [|discriminate].
  destruct (fl_leb (fl_scale lr 0.5) (Fin m)) eqn:Htest; [|discriminate].
  intros H. inversion H. subst v0 fv0 q lr. clear H.
  destruct (np_argmax_np_max _ _ _ Hj Hm) as [Hlen [Hnth Hle]].
  assert (Hfv' : fv = f poly_diff v).
  { rewrite nth_error_map, Hv in Hfv. inversion Hfv. reflexivity. }
  assert (Hmv : m = Rabs fv).
  { rewrite <- Hnth.
    apply nth_error_nth.
    rewrite nth_error_map, Hfv. reflexivity. }
  split; [reflexivity|]. split; [reflexivity|]. split; [exact Hfv'|].
  split; [rewrite <- Hmv; exact Htest|].
  exists V. split; [reflexivity|].
  split; [apply nth_error_In with j; exact Hv|].
  split; [exact Hall|].
  intros u Hu. rewrite <- Hmv. apply Hle.
  apply in_map. apply in_map. exact Hu.
Qed.

(** What is known of a quadruple that [vec_finder] returns. *)
Lemma vec_finder_found (tries k : nat) (v : vec) (fv : R)
    (q : custom_polynomial) (lrnorm : fl) (k' : nat) :
  vec_finder randn n r poly projection_poly accu max_size inner W X WX tries k
  = (Ok (Some (v, fv, q, lrnorm)), k') ->
  k' = S k /\
  poly_Lr_norm (sustract_polynomials poly projection_poly) X WX r = Ok lrnorm /\
  q = new_polynomial 1 v (degree poly) /\
  fv = f (sustract_polynomials poly projection_poly) v /\
  fl_leb (fl_scale lrnorm 0.5) (Fin (Rabs fv)) = true /\
  length v = num_var poly /\
  (forall w, In w W -> Rabs (dot v w) < inner) /\
  exists V,
    sample_spherical randn k n max_size = Ok V /\ In v V /\
    forall u, In u V ->
      (forall w, In w W -> Rabs (dot u w) < inner) ->
      Rabs (f (sustract_polynomials poly projection_poly) u) <= Rabs fv.
Proof.
  intros H. destruct (vec_finder_some _ _ _ _ H) as [Hat ->].
  destruct (vec_finder_attempt_accept _ _ _ _ _ Hat)
    as [Hnorm [Hq [Hfv [Htest [V [HV [Hin [Hall Hmax]]]]]]]].
  fold poly_diff.
  split; [reflexivity|]. split; [exact Hnorm|]. split; [exact Hq|].
  split; [exact Hfv|]. split; [exact Htest|].
  split; [rewrite Forall_forall in Hall; apply Hall; exact Hin|].
  assert (Hsurv : forall u, In u (survivors V) <->
                    In u V /\ (W <> [] ->
                      Rltb (row_max (map (fun w => Rabs (dot u w)) W)) inner
                      = true)).
  { intros u. unfold survivors. destruct W as [|w0 W0]; cbn [is_empty negb].
    - split; [intros Hu; split; [exact Hu | intros C; contradiction C; reflexivity]
             | intros [Hu _]; exact Hu].
    - rewrite filter_In. split; intros [Hu Hf]; split; auto.
      apply Hf. discriminate. }
  split.
  - intros w Hw. apply Hsurv in Hin. destruct Hin as [_ Hf].
    assert (HW : W <> []) by (intros C; rewrite C in Hw; exact Hw).
    specialize (Hf HW). unfold Rltb in Hf.
    destruct (Rlt_dec _ inner) as [Hlt | Hge]; [|discriminate Hf].
    eapply Rle_lt_trans; [|exact Hlt].
    apply row_max_ge. apply (in_map (fun w => Rabs (dot v w))). exact Hw.
  - exists V. split; [exact HV|]. split; [apply Hsurv in Hin; tauto|].
    intros u Hu Hfar. apply Hmax. apply Hsurv. split; [exact Hu|].
    intros HW. apply Rltb_true.
    destruct W as [|w0 W0]; [contradiction HW; reflexivity|].
    apply row_max_lt.
    + discriminate.
    + intros x Hx. apply in_map_iff in Hx. destruct Hx as [w [<- Hw]].
      apply Hfar. exact Hw.
Qed.

(** X16: a quadruple [(v, fv, q, lrnorm)] that comes out of [vec_finder]
    was found in the first batch of the call: [lrnorm] is the norm of
    [poly - projection_poly] on the rule, [v] is a row of the batch that
    passed the filter, so that its inner product with every direction of
    [W] is below [inner] in absolute value, [fv] is the value of
    [poly - projection_poly] at [v], no other surviving row has a larger
    absolute value, half of the norm is at most [|fv|], and [q] is the
    power of the linear form of [v]. *)
Theorem vec_finder_result (tries k : nat) (v : vec) (fv : R)
    (q : custom_polynomial) (lrnorm : fl) (k' : nat) :
  vec_finder randn n r poly projection_poly accu max_size inner W X WX tries k
  = (Ok (Some (v, fv, q, lrnorm)), k') ->
  k' = S k /\
  poly_Lr_norm (sustract_polynomials poly projection_poly) X WX r = Ok lrnorm /\
  q = new_polynomial 1 v (degree poly) /\
  fv = f (sustract_polynomials poly projection_poly) v /\
  fl_leb (fl_scale lrnorm 0.5) (Fin (Rabs fv)) = true /\
  length v = num_var poly /\
  (forall w, In w W -> Rabs (dot v w) < inner) /\
  exists V,
    sample_spherical randn k n max_size = Ok V /\ In v V /\
    forall u, In u V ->
      (forall w, In w W -> Rabs (dot u w) < inner) ->
      Rabs (f (sustract_polynomials poly projection_poly) u) <= Rabs fv.
Proof. apply vec_finder_found. Qed.

(** X17: a call of [vec_finder] with the counter [tries <= 10] draws at
    least one batch and at most [10 - tries + 1] batches, ten for the
    default [tries = 1], whatever it returns. *)
Theorem vec_finder_batches (tries k : nat) :
  (tries <= max_tries)%nat ->
  (S k <= snd (vec_finder randn n r poly projection_poly accu max_size inner
                          W X WX tries k)
   <= k + (max_tries + 1 - tries))%nat.
Proof.
  assert (Hmt : max_tries = 10%nat) by reflexivity.
  remember (max_tries - tries)%nat as d eqn:Hd.
  revert tries k Hd. induction d as [|d IH]; intros tries k Hd Hle.
  - destruct (vec_finder_attempt randn n r poly projection_poly max_size inner
                                 W X WX k) as [[q |] | e] eqn:Hat.
    + rewrite (vec_finder_accept _ _ _ _ _ _ _ _ _ _ _ _ _ _ Hat). cbn [snd]. lia.
    + rewrite vec_finder_exhausted by (assumption || lia). cbn [snd]. lia.
    + rewrite (vec_finder_raise _ _ _ _ _ _ _ _ _ _ _ _ _ _ Hat). cbn [snd]. lia.
  - destruct (vec_finder_attempt randn n r poly projection_poly max_size inner
                                 W X WX k) as [[q |] | e] eqn:Hat.
    + rewrite (vec_finder_accept _ _ _ _ _ _ _ _ _ _ _ _ _ _ Hat). cbn [snd]. lia.
    + rewrite vec_finder_retry by (assumption || lia).
      specialize (IH (S tries) (S k) ltac:(lia) ltac:(lia)).
      destruct (vec_finder randn n r poly projection_poly accu max_size inner
                           W X WX (S tries) (S k)) as [[o | e] k1];
        cbn [dropped snd] in *; lia.
    + rewrite (vec_finder_raise _ _ _ _ _ _ _ _ _ _ _ _ _ _ Hat). cbn [snd]. lia.
Qed.

End FinderResult.

(** The first pass of the worked example on the circle: the direction
    (3,4)/5 for the polynomial [x1^2] and the zero projection. *)
Lemma vec_finder_result_witness :
  1%nat = 1%nat /\
  poly_Lr_norm (sustract_polynomials x1_squared zero_projection)
               circle_nodes circle_weights 1 = Ok (Fin (1 / 2)) /\
  q_1 = new_polynomial 1 [3 / 5; 4 / 5] (degree x1_squared) /\
  9 / 25 = f (sustract_polynomials x1_squared zero_projection) [3 / 5; 4 / 5] /\
  fl_leb (fl_scale (Fin (1 / 2)) 0.5) (Fin (Rabs (9 / 25))) = true /\
  length [3 / 5; 4 / 5] = num_var x1_squared /\
  (forall w : vec, In w [] -> Rabs (dot [3 / 5; 4 / 5] w) < 0.8) /\
  exists V,
    sample_spherical (randn_script decomposer_script) 0 2 1 = Ok V /\
    In [3 / 5; 4 / 5] V /\
    forall u, In u V ->
      (forall w : vec, In w [] -> Rabs (dot u w) < 0.8) ->
      Rabs (f (sustract_polynomials x1_squared zero_projection) u)
      <= Rabs (9 / 25).
Proof.
  exact (vec_finder_result (randn_script decomposer_script) 2 1 x1_squared
           zero_projection (1 / 2) 1 0.8 [] circle_nodes circle_weights 1 0
           [3 / 5; 4 / 5] (9 / 25) q_1 (Fin (1 / 2)) 1
           (decomposer_script_finder_0 (1 / 2))).
Defined.

Lemma vec_finder_batches_witness :
  (1 <= snd (vec_finder (randn_script finder_script) 2 1 x1_squared
                        zero_projection 0.95 1 0.8 [] circle_nodes
                        circle_weights 1 0)
   <= 0 + (max_tries + 1 - 1))%nat.
Proof.
  apply (vec_finder_batches (randn_script finder_script) 2 1 x1_squared
           zero_projection 0.95 1 0.8 [] circle_nodes circle_weights 1 0).
  unfold max_tries. lia.
Defined.

(** ** The projection that [add_vector] builds *)

Lemma dot_comm (u : vec) : forall v : vec, dot u v = dot v u.
Proof.
  induction u as [|x u IH]; intros [|y v]; cbn [dot]; try reflexivity.
  rewrite IH. ring.
Qed.

Lemma np_sum_np_mul_dot (a b : list R) : np_sum (np_mul a b) = dot a b.
Proof.
  revert b. induction a as [|x a IH]; intros [|y b]; try reflexivity.
  unfold np_mul, np_sum in *. cbn [combine map fold_right fst snd dot].
  rewrite IH. reflexivity.
Qed.

Lemma py_index_middle {A : Type} (pre : list A) (a : A) (post : list A) :
  py_index (pre ++ a :: post) (length pre) = Ok a.
Proof.
  unfold py_index. rewrite nth_error_app2 by lia.
  rewrite Nat.sub_diag. reflexivity.
Qed.

Lemma py_index_end {A : Type} (l : list A) :
  py_index l (length l) = Raise (IndexError "list index out of range").
Proof.
  unfold py_index.
  replace (nth_error l (length l)) with (@None A); [reflexivity|].
  symmetry. apply nth_error_None. lia.
Qed.

(** The loop of [add_vector] over the positions [len(Qpre) ..] of the
    lists, when there is a coefficient for every polynomial. *)
Lemma projection_fold (Qs : list custom_polynomial) :
  forall (Bs : list R) (Qpre : list custom_polynomial) (Bpre : list R)
         (acc : custom_polynomial),
    length Qpre = length Bpre ->
    (length Qs <= length Bs)%nat ->
    exists p,
      foldM (fun projection_poly i =>
               qi <- py_index (Qpre ++ Qs) i ;;
               bi <- py_index (Bpre ++ Bs) i ;;
               Ok (add_polynomials projection_poly (multiply_constant qi bi)))
            (seq (length Qpre) (length Qs)) acc = Ok p /\
      num_var p = num_var acc /\ degree p = degree acc /\
      (forall w, subs (expr p) w
                 = subs (expr acc) w
                   + dot Bs (map (fun q => subs (expr q) w) Qs)) /\
      ((forall w, f acc w = subs (expr acc) w) ->
       forall w, f p w = subs (expr p) w).
Proof.
  induction Qs as [|q Qs IH]; intros Bs Qpre Bpre acc Hpre Hlen.
  - exists acc. cbn [length seq foldM map].
    split; [reflexivity|]. split; [reflexivity|]. split; [reflexivity|].
    split; [|auto]. intros w. destruct Bs; cbn [dot]; ring.
  - destruct Bs as [|b Bs]; [simpl in Hlen; lia|].
    cbn [length seq foldM]. rewrite py_index_middle. cbn [bind].
    replace (py_index (Bpre ++ b :: Bs) (length Qpre)) with (Ok b)
      by (rewrite Hpre; symmetry; apply py_index_middle).
    cbn [bind].
    destruct (IH Bs (Qpre ++ [q]) (Bpre ++ [b])
                 (add_polynomials acc (multiply_constant q b)))
      as [p [Hp [Hnv [Hdeg [Hval Hf]]]]].
    + rewrite !length_app. simpl. lia.
    + simpl in Hlen. lia.
    + rewrite <- !app_assoc in Hp. cbn [app] in Hp.
      rewrite length_app in Hp. cbn [length] in Hp.
      rewrite Nat.add_1_r in Hp.
      exists p. split; [exact Hp|].
      split; [rewrite Hnv; reflexivity|].
      split; [rewrite Hdeg; reflexivity|].
      split.
      * intros w. rewrite Hval. cbn [add_polynomials multiply_constant expr subs
                                      map dot]. ring.
      * intros _. apply Hf. intros w. reflexivity.
Qed.

(** The same loop when the coefficients run out first. *)
Lemma projection_fold_short (Qs : list custom_polynomial) :
  forall (Bs : list R) (Qpre : list custom_polynomial) (Bpre : list R)
         (acc : custom_polynomial),
    length Qpre = length Bpre ->
    (length Bs < length Qs)%nat ->
    foldM (fun projection_poly i =>
             qi <- py_index (Qpre ++ Qs) i ;;
             bi <- py_index (Bpre ++ Bs) i ;;
             Ok (add_polynomials projection_poly (multiply_constant qi bi)))
          (seq (length Qpre) (length Qs)) acc
    = Raise (IndexError "list index out of range").
Proof.
  induction Qs as [|q Qs IH]; intros Bs Qpre Bpre acc Hpre Hlen.
  - simpl in Hlen. lia.
  - cbn [length seq foldM]. rewrite py_index_middle. cbn [bind].
    destruct Bs as [|b Bs].
    + replace (py_index (Bpre ++ []) (length Qpre))
        with (@Raise R (IndexError "list index out of range"))
        by (rewrite app_nil_r, Hpre; symmetry; apply py_index_end).
      reflexivity.
    + replace (py_index (Bpre ++ b :: Bs) (length Qpre)) with (Ok b)
        by (rewrite Hpre; symmetry; apply py_index_middle).
      cbn [bind].
      specialize (IH Bs (Qpre ++ [q]) (Bpre ++ [b])
                     (add_polynomials acc (multiply_constant q b))).
      rewrite <- !app_assoc in IH. cbn [app] in IH.
      rewrite length_app in IH. cbn [length] in IH.
      rewrite Nat.add_1_r in IH. apply IH.
      * rewrite !length_app. simpl. lia.
      * simpl in Hlen. lia.
Qed.

Lemma build_projection_cases (Q : list custom_polynomial) (B : list R) :
  (Q = [] \/ (length B < length Q)%nat ->
   build_projection Q B = Raise (IndexError "list index out of range")) /\
  (Q <> [] -> (length Q <= length B)%nat ->
   exists p,
     build_projection Q B = Ok p /\
     num_var p = num_var (hd p Q) /\ degree p = degree (hd p Q) /\
     forall w, f p w = dot B (map (fun q => subs (expr q) w) Q)).
Proof.
  unfold build_projection. split.
  - intros [-> | Hlen]; [reflexivity|].
    destruct Q as [|q0 Q]; [reflexivity|].
    change (py_index (q0 :: Q) 0) with (Ok q0). cbn [bind].
    destruct B as [|b0 B]; [reflexivity|].
    change (py_index (b0 :: B) 0) with (Ok b0). cbn [bind].
    simpl in Hlen.
    replace (1 <? length (q0 :: Q))%nat with true
      by (symmetry; apply Nat.ltb_lt; simpl; lia).
    replace (length (q0 :: Q) - 1)%nat with (length Q) by (simpl; lia).
    apply (projection_fold_short Q B [q0] [b0]); [reflexivity | lia].
  - intros HQ Hlen.
    destruct Q as [|q0 Q]; [contradiction HQ; reflexivity|].
    destruct B as [|b0 B]; [simpl in Hlen; lia|].
    change (py_index (q0 :: Q) 0) with (Ok q0).
    change (py_index (b0 :: B) 0) with (Ok b0). cbn [bind].
    replace (length (q0 :: Q) - 1)%nat with (length Q) by (simpl; lia).
    destruct (projection_fold Q B [q0] [b0] (multiply_constant q0 b0)
                eq_refl ltac:(simpl in Hlen; lia))
      as [p [Hp [Hnv [Hdeg [Hval Hf]]]]].
    destruct (1 <? length (q0 :: Q))%nat eqn:E.
    + exists p. split; [exact Hp|]. split; [exact Hnv|]. split; [exact Hdeg|].
      intros w. rewrite Hf by (intros w0; reflexivity).
      rewrite Hval. cbn [multiply_constant expr subs map dot]. ring.
    + apply Nat.ltb_ge in E. destruct Q as [|q1 Q]; [|simpl in E; lia].
      exists (multiply_constant q0 b0).
      split; [reflexivity|]. split; [reflexivity|]. split; [reflexivity|].
      intros w. cbn [multiply_constant f lambdify expr subs map dot].
      destruct B; cbn [dot]; ring.
Qed.

(** X18: the polynomial that [add_vector] builds from the list [Q] and
    the coefficients [B] is the sum of [B[i] * Q[i]] over the positions
    of [Q], in the variables and of the degree of [Q[0]]; an empty [Q]
    and a [B] shorter than [Q] raise [IndexError]. *)
Theorem build_projection_value (Q : list custom_polynomial) (B : list R) :
  (Q = [] \/ (length B < length Q)%nat ->
   build_projection Q B = Raise (IndexError "list index out of range")) /\
  (Q <> [] -> (length Q <= length B)%nat ->
   exists p,
     build_projection Q B = Ok p /\
     num_var p = num_var (hd p Q) /\ degree p = degree (hd p Q) /\
     forall w, f p w = dot B (map (fun q => subs (expr q) w) Q)).
Proof. apply build_projection_cases. Qed.

(** The two terms of [projection_2], and a list of coefficients that is
    too short. *)
Lemma build_projection_value_witness :
  build_projection [q_1; q_2] [729 / 13600]
  = Raise (IndexError "list index out of range") /\
  exists p,
    build_projection [q_1; q_2] [729 / 13600; 463 / 544] = Ok p /\
    num_var p = num_var (hd p [q_1; q_2]) /\
    degree p = degree (hd p [q_1; q_2]) /\
    forall w, f p w = dot [729 / 13600; 463 / 544]
                          (map (fun q => subs (expr q) w) [q_1; q_2]).
Proof.
  split.
  - apply (proj1 (build_projection_value [q_1; q_2] [729 / 13600])).
    right. simpl. lia.
  - apply (proj2 (build_projection_value [q_1; q_2] [729 / 13600; 463 / 544])).
    + discriminate.
    + simpl. lia.
Defined.

Section ProjectorResult.

Variable randn : nat -> nat -> nat -> list vec.
Variable matrix_rank : list (list R) -> nat.
Variable linalg_inv : list (list R) -> res (list (list R)).
Variables (X : list vec) (WX : list R) (n : Z) (r : nat).
Variables (poly : custom_polynomial) (max_size : Z) (inner accu : R).

(** What is known when [add_vector] returns a quintuple. *)
Lemma add_vector_success (limit : nat) (b : basis)
    (projection_poly : custom_polynomial) (k : nat)
    (W' : list vec) (fW' : list R) (Q' : list custom_polynomial)
    (err : fl) (p : custom_polynomial) (b' : basis) (k' : nat) :
  add_vector randn matrix_rank linalg_inv limit b X WX n r poly
             projection_poly max_size inner accu k
  = (Ok (Some (W', fW', Q', err, p)), b', k') ->
  exists v fv q Minv,
    vec_finder randn n r poly projection_poly accu max_size inner (W b) X WX 1 k
    = (Ok (Some (v, fv, q, err)), k') /\
    W' = W b ++ [v] /\ fW' = fW b ++ [fv] /\ Q' = Q b ++ [q] /\
    b' = {| W := W'; fW := fW'; Q := Q' |} /\
    linalg_inv (gram W' (degree poly)) = Ok Minv /\
    build_projection Q' (mat_vec Minv fW') = Ok p.
Proof.
  destruct limit as [|limit]; cbn [add_vector]; [discriminate|].
  destruct (vec_finder _ _ _ _ _ _ _ _ _ _ _ 1 k) as [[[[[[v fv] q] lr]|]|e] k1];
    try discriminate.
  destruct (Nat.eqb_spec (matrix_rank (gram (W b ++ [v]) (degree poly)))
                         (length (gram (W b ++ [v]) (degree poly)))) as [E|E];
    cbn [negb W fW Q].
  - destruct (linalg_inv _) as [im|e] eqn:Hinv; cbn [bind]; [|discriminate].
    destruct (build_projection _ _) as [pp|e] eqn:Hbuild; [|discriminate].
    intros H. inversion H; subst. exists v, fv, q, im. repeat split; assumption.
  - destruct (add_vector _ _ _ limit _ _ _ _ _ _ _ _ _ _ k1) as [[[o|e] b1] k2];
      discriminate.
Qed.

(** X19: when [add_vector] returns [(W, fW, Q, error, projection)], the
    three lists are the ones handed in with one entry appended: a
    direction [v] of the first batch drawn, of the dimension of [poly],
    the value at [v] of [poly] minus the projection handed in, and the
    power of the linear form of [v]; exactly one batch was drawn; and
    [error] is the norm of [poly] minus the projection handed in, not of
    [poly] minus the projection returned. *)
Theorem add_vector_result (limit : nat) (b : basis)
    (projection_poly : custom_polynomial) (k : nat)
    (W' : list vec) (fW' : list R) (Q' : list custom_polynomial)
    (err : fl) (p : custom_polynomial) (b' : basis) (k' : nat) :
  add_vector randn matrix_rank linalg_inv limit b X WX n r poly
             projection_poly max_size inner accu k
  = (Ok (Some (W', fW', Q', err, p)), b', k') ->
  k' = S k /\
  b' = {| W := W'; fW := fW'; Q := Q' |} /\
  poly_Lr_norm (sustract_polynomials poly projection_poly) X WX r = Ok err /\
  exists v,
    length v = num_var poly /\
    (forall w, In w (W b) -> Rabs (dot v w) < inner) /\
    W' = W b ++ [v] /\
    fW' = fW b ++ [f (sustract_polynomials poly projection_poly) v] /\
    Q' = Q b ++ [new_polynomial 1 v (degree poly)].
Proof.
  intros H.
  destruct (add_vector_success _ _ _ _ _ _ _ _ _ _ _ H)
    as [v [fv [q [Minv [Hfind [HW [HfW [HQ [Hb _]]]]]]]]].
  destruct (vec_finder_found _ _ _ _ _ _ _ _ _ _ _ _ _ _ _ _ _ _ Hfind)
    as [Hk [Hnorm [Hq [Hfv [_ [Hlen [Hfar _]]]]]]].
  split; [exact Hk|]. split; [exact Hb|]. split; [exact Hnorm|].
  exists v. subst q fv. auto.
Qed.

(** [add_vector] keeps the lists and the projection consistent. *)
Lemma add_vector_consistent (limit : nat) (b : basis)
    (projection_poly : custom_polynomial) (k : nat)
    (W' : list vec) (fW' : list R) (Q' : list custom_polynomial)
    (err : fl) (p : custom_polynomial) (b' : basis) (k' : nat) :
  Q b = map (fun w => new_polynomial 1 w (degree poly)) (W b) ->
  length (fW b) = length (W b) ->
  (forall (v : vec) (Minv : list (list R)) (x : list R),
     linalg_inv (gram (W b ++ [v]) (degree poly)) = Ok Minv ->
     length x = S (length (W b)) ->
     mat_vec (gram (W b ++ [v]) (degree poly)) (mat_vec Minv x) = x) ->
  add_vector randn matrix_rank linalg_inv limit b X WX n r poly
             projection_poly max_size inner accu k
  = (Ok (Some (W', fW', Q', err, p)), b', k') ->
  Q' = map (fun w => new_polynomial 1 w (degree poly)) W' /\
  length fW' = length W' /\
  map (f p) W' = fW'.
Proof.
  intros HQb Hlenb Hinv H.
  destruct (add_vector_success _ _ _ _ _ _ _ _ _ _ _ H)
    as [v [fv [q [Minv [Hfind [HW [HfW [HQ [Hb [HMinv Hbuild]]]]]]]]]].
  destruct (vec_finder_found _ _ _ _ _ _ _ _ _ _ _ _ _ _ _ _ _ _ Hfind)
    as [_ [_ [Hq _]]].
  assert (HQ' : Q' = map (fun w => new_polynomial 1 w (degree poly)) W').
  { rewrite HQ, HW, map_app, HQb, Hq. reflexivity. }
  assert (Hlen' : length fW' = length W').
  { rewrite HfW, HW, !length_app, Hlenb. reflexivity. }
  split; [exact HQ'|]. split; [exact Hlen'|].
  destruct (build_projection_cases Q' (mat_vec Minv fW')) as [Hbad Hgood].
  assert (HQne : Q' <> []).
  { rewrite HQ. intros C. apply app_eq_nil in C. destruct C as [_ C].
    discriminate C. }
  destruct (le_lt_dec (length Q') (length (mat_vec Minv fW'))) as [Hle | Hlt].
  2:{ rewrite (Hbad (or_intror Hlt)) in Hbuild. discriminate Hbuild. }
  destruct (Hgood HQne Hle) as [p0 [Hp0 [_ [_ Hval]]]].
  rewrite Hbuild in Hp0. inversion Hp0. subst p0. clear Hp0.
  rewrite HW in HMinv.
  specialize (Hinv v Minv fW' HMinv
                   ltac:(rewrite Hlen', HW, length_app; simpl; lia)).
  rewrite <- HW in Hinv.
  transitivity (mat_vec (gram W' (degree poly)) (mat_vec Minv fW'));
    [|exact Hinv].
  unfold mat_vec at 1. unfold gram. rewrite map_map.
  apply map_ext. intros w. rewrite Hval, HQ', map_map.
  rewrite dot_comm. f_equal.
  apply map_ext. intros u.
  cbn [new_polynomial expr subs]. ring.
Qed.

(** X20: let the lists handed to [add_vector] be consistent: [Q[i]] is
    the power of the linear form of [W[i]], of the degree of [poly], and
    [fW] is as long as [W]; and let [np.linalg.inv] return an inverse of
    the Gram matrix.  Then the lists returned are consistent again, and
    the projection returned takes at every direction of [W] the value
    recorded for it in [fW]. *)
Theorem add_vector_interpolates (limit : nat) (b : basis)
    (projection_poly : custom_polynomial) (k : nat)
    (W' : list vec) (fW' : list R) (Q' : list custom_polynomial)
    (err : fl) (p : custom_polynomial) (b' : basis) (k' : nat) :
  Q b = map (fun w => new_polynomial 1 w (degree poly)) (W b) ->
  length (fW b) = length (W b) ->
  (forall (v : vec) (Minv : list (list R)) (x : list R),
     linalg_inv (gram (W b ++ [v]) (degree poly)) = Ok Minv ->
     length x = S (length (W b)) ->
     mat_vec (gram (W b ++ [v]) (degree poly)) (mat_vec Minv x) = x) ->
  add_vector randn matrix_rank linalg_inv limit b X WX n r poly
             projection_poly max_size inner accu k
  = (Ok (Some (W', fW', Q', err, p)), b', k') ->
  Q' = map (fun w => new_polynomial 1 w (degree poly)) W' /\
  length fW' = length W' /\
  map (f p) W' = fW'.
Proof. apply add_vector_consistent. Qed.

End ProjectorResult.

(** The first pass of the worked example on the circle. *)
Lemma add_vector_result_witness :
  1%nat = 1%nat /\
  {| W := [[3 / 5; 4 / 5]]; fW := [9 / 25]; Q := [q_1] |}
  = {| W := [[3 / 5; 4 / 5]]; fW := [9 / 25]; Q := [q_1] |} /\
  poly_Lr_norm (sustract_polynomials x1_squared (projection state_0))
               circle_nodes circle_weights 1 = Ok (Fin (1 / 2)) /\
  exists v,
    length v = num_var x1_squared /\
    (forall w, In w (W (vectors state_0)) -> Rabs (dot v w) < 0.8) /\
    [[3 / 5; 4 / 5]] = W (vectors state_0) ++ [v] /\
    [9 / 25] = fW (vectors state_0)
               ++ [f (sustract_polynomials x1_squared (projection state_0)) v] /\
    [q_1] = Q (vectors state_0) ++ [new_polynomial 1 v (degree x1_squared)].
Proof.
  exact (add_vector_result (randn_script decomposer_script) matrix_rank_by_det
           linalg_inv_adjugate circle_nodes circle_weights 2 1 x1_squared 1 0.8
           (1 / 2) 1 (vectors state_0) (projection state_0) 0
           [[3 / 5; 4 / 5]] [9 / 25] [q_1] (Fin (1 / 2)) projection_1
           {| W := [[3 / 5; 4 / 5]]; fW := [9 / 25]; Q := [q_1] |} 1
           (add_vector_pass_1 (1 / 2))).
Defined.

Lemma linalg_inv_adjugate_1_inverse (a : R) (Minv : list (list R)) (x : list R) :
  linalg_inv_adjugate [[a]] = Ok Minv -> length x = 1%nat ->
  mat_vec [[a]] (mat_vec Minv x) = x.
Proof.
  intros H Hx. destruct (Req_dec a 0) as [-> | Ha].
  - unfold linalg_inv_adjugate in H. rewrite det_1 in H.
    rewrite Reqb_true in H by reflexivity. discriminate H.
  - rewrite linalg_inv_adjugate_1 in H by assumption. inversion H.
    destruct x as [|x0 [|x1 x]]; try discriminate Hx.
    cbn [mat_vec map dot]. f_equal. field. assumption.
Qed.

(** The first projection of the worked example takes the value 9/25 at
    the direction (3,4)/5. *)
Lemma add_vector_interpolates_witness :
  [q_1] = map (fun w => new_polynomial 1 w (degree x1_squared)) [[3 / 5; 4 / 5]] /\
  length [9 / 25] = length [[3 / 5; 4 / 5]] /\
  map (f projection_1) [[3 / 5; 4 / 5]] = [9 / 25].
Proof.
  apply (add_vector_interpolates (randn_script decomposer_script)
           matrix_rank_by_det linalg_inv_adjugate circle_nodes circle_weights
           2 1 x1_squared 1 0.8 (1 / 2) 1 (vectors state_0) (projection state_0)
           0 [[3 / 5; 4 / 5]] [9 / 25] [q_1] (Fin (1 / 2)) projection_1
           {| W := [[3 / 5; 4 / 5]]; fW := [9 / 25]; Q := [q_1] |} 1).
  - reflexivity.
  - reflexivity.
  - intros v Minv x HMinv Hx. cbn [state_0 vectors W app gram map] in *.
    apply linalg_inv_adjugate_1_inverse; assumption.
  - exact (add_vector_pass_1 (1 / 2)).
Defined.

(** ** The passes of the greedy loop *)

(** The norm looks at a polynomial through its number of variables and
    its evaluator only. *)
Lemma poly_Lr_norm_ext (p q : custom_polynomial) (X : list vec) (WX : list R)
    (r : nat) :
  num_var p = num_var q -> (forall w, f p w = f q w) ->
  poly_Lr_norm p X WX r = poly_Lr_norm q X WX r.
Proof.
  intros Hn Hf. unfold poly_Lr_norm. rewrite Hn.
  replace (parallelized_evaluation p X) with (parallelized_evaluation q X);
    [reflexivity|].
  unfold parallelized_evaluation, evaluate_pol, evaluate.
  induction X as [|x X IH]; cbn [mapM]; [reflexivity|].
  rewrite IH, Hn, Hf. reflexivity.
Qed.

(** No difference to an infinite error is at most [tol]. *)
Lemma first_difference_not_small (err : fl) (tol : R) :
  fl_leb (fl_abs (fl_sub PInf err)) (Fin tol) = false.
Proof. destruct err; reflexivity. Qed.

Section LoopPasses.

Variable randn : nat -> nat -> nat -> list vec.
Variable matrix_rank : list (list R) -> nat.
Variable linalg_inv : list (list R) -> res (list (list R)).
Variables (limit : nat) (X : list vec) (WX : list R) (n : Z) (r : nat).
Variables (poly : custom_polynomial) (max_size : Z) (inner accu tol : R).
Variables (max_iter max_vec : nat).

(** X21: a pass of the loop keeps the lists and the projection
    consistent when [np.linalg.inv] returns an inverse of the Gram
    matrix: after the pass, whether the candidate was kept or dropped for
    stagnation, [Q[i]] is the power of the linear form of [W[i]], [fW] is
    as long as [W], and the projection held takes the value [fW[i]] at
    [W[i]]. *)
Theorem greedy_body_consistent (s : loop_state) (k : nat) (st : step) (k' : nat) :
  consistent (degree poly) (vectors s) (projection s) ->
  (forall (v : vec) (Minv : list (list R)) (x : list R),
     linalg_inv (gram (W (vectors s) ++ [v]) (degree poly)) = Ok Minv ->
     length x = S (length (W (vectors s))) ->
     mat_vec (gram (W (vectors s) ++ [v]) (degree poly)) (mat_vec Minv x) = x) ->
  greedy_body randn matrix_rank linalg_inv limit X WX n r poly max_size
              inner accu tol max_iter max_vec s k = (Ok st, k') ->
  consistent (degree poly) (vectors (step_state st)) (projection (step_state st)).
Proof.
  intros [HQ [Hlen _]] Hinv Hb.
  destruct (greedy_body_cases _ _ _ _ _ _ _ _ _ _ _ _ _ _ _ _ _ _ _ Hb)
    as [v [fv [q [err [p [b' [Hadd Hcases]]]]]]].
  destruct (add_vector_consistent _ _ _ _ _ _ _ _ _ _ _ _ _ _ _ _ _ _ _ _ _ _
              HQ Hlen Hinv Hadd) as [HQ' [Hlen' Hval]].
  destruct Hcases as [[_ ->] | [_ ->]].
  - assert (Hs : consistent (degree poly) (vectors (stagnant_state s p))
                            (projection (stagnant_state s p))).
    { cbn [stagnant_state vectors projection].
      split; [exact HQ|]. split; [exact Hlen|].
      rewrite map_app in Hval. cbn [map] in Hval.
      apply app_inj_tail in Hval. tauto. }
    destruct (max_iter <=? iteration s + 1)%nat; [exact Hs|].
    destruct (max_vec <=? length (W (vectors s)))%nat; exact Hs.
  - assert (Hs : consistent (degree poly)
                   (vectors (committed_state s v fv q err p))
                   (projection (committed_state s v fv q err p))).
    { cbn [committed_state vectors projection].
      split; [exact HQ'|]. split; [exact Hlen' | exact Hval]. }
    destruct (max_vec <=? length (W (vectors s) ++ [v]))%nat; exact Hs.
Qed.

(** X22: the first pass, in which [error] is infinite and the projection
    is [poly - poly], never takes the stagnation branch, whatever [tol]:
    it ends with one direction [v] of the dimension of [poly] in [W], the
    value of [poly] at [v] in [fW], the iteration counter still at 1, and
    with [error] set to the norm of [poly] itself, not to the norm of
    [poly] minus the projection that the pass computed. *)
Theorem greedy_first_pass (k : nat) (st : step) (k' : nat) :
  (forall w, f poly w = subs (expr poly) w) ->
  greedy_body randn matrix_rank linalg_inv limit X WX n r poly max_size
              inner accu tol max_iter max_vec
              {| vectors := {| W := []; fW := []; Q := [] |}; error := PInf;
                 projection := sustract_polynomials poly poly;
                 iteration := 1 |} k = (Ok st, k') ->
  exists v,
    length v = num_var poly /\
    vectors (step_state st)
    = {| W := [v]; fW := [f poly v];
         Q := [new_polynomial 1 v (degree poly)] |} /\
    poly_Lr_norm poly X WX r = Ok (error (step_state st)) /\
    iteration (step_state st) = 1%nat.
Proof.
  intros Hf Hb.
  destruct (greedy_body_cases _ _ _ _ _ _ _ _ _ _ _ _ _ _ _ _ _ _ _ Hb)
    as [v [fv [q [err [p [b' [Hadd Hcases]]]]]]].
  cbn [vectors error projection iteration W fW Q app] in *.
  destruct (add_vector_success _ _ _ _ _ _ _ _ _ _ _ _ _ _ _ _ _ _ _ _ _ _ Hadd)
    as [v0 [fv0 [q0 [Minv [Hfind [HW [HfW [HQ _]]]]]]]].
  cbn [W fW Q app] in *. inversion HW. inversion HfW. inversion HQ.
  subst v0 fv0 q0.
  destruct (vec_finder_found _ _ _ _ _ _ _ _ _ _ _ _ _ _ _ _ _ _ Hfind)
    as [_ [Hnorm [Hq [Hfv [_ [Hlen _]]]]]].
  assert (Hres : forall w,
             f (sustract_polynomials poly (sustract_polynomials poly poly)) w
             = f poly w).
  { intros w. rewrite Hf.
    cbn [sustract_polynomials f lambdify expr subs]. ring. }
  rewrite (poly_Lr_norm_ext _ poly) in Hnorm by (reflexivity || exact Hres).
  rewrite Hres in Hfv.
  destruct Hcases as [[Hsmall _] | [_ ->]].
  - rewrite first_difference_not_small in Hsmall. discriminate Hsmall.
  - exists v. subst fv q.
    destruct (max_vec <=? length [v])%nat;
      cbn [step_state committed_state vectors error iteration W fW Q app];
      auto.
Qed.

End LoopPasses.

(** X23: [greedy_approximation] ends, with an exception or with a
    polynomial, after at most C(n+deg-1, deg) + [max_iter] + 1 passes of
    its loop: every pass that does not end the loop adds a direction to the
    basis or counts one iteration. *)
Theorem greedy_approximation_terminates
    (roots_jacobi : nat -> R -> R -> res (list R * list R))
    (randn : nat -> nat -> nat -> list vec)
    (matrix_rank : list (list R) -> nat)
    (linalg_inv : list (list R) -> res (list (list R)))
    (fuel limit : nat) (n : Z) (r : nat) (poly : custom_polynomial)
    (accu inner eps tol : R) (max_iter : nat) :
  (comb (Z.to_nat (n + Z.of_nat (degree poly) - 1)) (degree poly) + max_iter
   < fuel)%nat ->
  exists out,
    greedy_approximation roots_jacobi randn matrix_rank linalg_inv fuel limit
                         n r poly accu inner eps tol max_iter = Some out.
Proof.
  intros Hfuel.
  destruct (greedy_run_terminates roots_jacobi randn matrix_rank linalg_inv
              fuel limit n r poly accu inner eps tol max_iter Hfuel)
    as [out Hout].
  unfold greedy_approximation. rewrite Hout.
  destruct out as [[why s] | e]; eexists; reflexivity.
Qed.

Lemma linalg_inv_adjugate_2_inverse (a b c d : R) (Minv : list (list R))
    (x : list R) :
  linalg_inv_adjugate [[a; b]; [c; d]] = Ok Minv -> length x = 2%nat ->
  mat_vec [[a; b]; [c; d]] (mat_vec Minv x) = x.
Proof.
  intros H Hx. destruct (Req_dec (a * d - b * c) 0) as [Hz | Hnz].
  - unfold linalg_inv_adjugate in H. rewrite det_2 in H.
    rewrite Reqb_true in H by assumption. discriminate H.
  - rewrite linalg_inv_adjugate_2 in H by assumption. inversion H.
    destruct x as [|x0 [|x1 [|x2 x]]]; try discriminate Hx.
    cbn [mat_vec map dot]. f_equal; [|f_equal]; field; assumption.
Qed.

(** The second pass of the worked example on the circle, a stagnant one:
    the projection on two terms that it leaves takes the value 9/25 at
    the one direction (3,4)/5 that is left. *)
Lemma greedy_body_consistent_witness :
  consistent 2 (vectors (stagnant_state state_1 projection_2)) projection_2.
Proof.
  apply (greedy_body_consistent (randn_script decomposer_script)
           matrix_rank_by_det linalg_inv_adjugate 1 circle_nodes circle_weights
           2 1 x1_squared 1 0.8 (1 / 2) 1 2 3 state_1 1
           (Break MaxIter (stagnant_state state_1 projection_2)) 2).
  - split; [reflexivity|]. split; [reflexivity|].
    cbn. f_equal. field.
  - intros v Minv x HMinv Hx.
    cbn [state_1 committed_state state_0 vectors W app gram map] in *.
    apply linalg_inv_adjugate_2_inverse; assumption.
  - exact (greedy_body_pass_2 (1 / 2)).
Defined.

(** The first pass of the worked example: the error becomes 1/2, the
    norm of [x1^2] on the circle. *)
Lemma greedy_first_pass_witness :
  exists v,
    length v = num_var x1_squared /\
    vectors (step_state (Continue state_1))
    = {| W := [v]; fW := [f x1_squared v];
         Q := [new_polynomial 1 v (degree x1_squared)] |} /\
    poly_Lr_norm x1_squared circle_nodes circle_weights 1
    = Ok (error (step_state (Continue state_1))) /\
    iteration (step_state (Continue state_1)) = 1%nat.
Proof.
  apply (greedy_first_pass (randn_script decomposer_script)
           matrix_rank_by_det linalg_inv_adjugate 1 circle_nodes circle_weights
           2 1 x1_squared 1 0.8 (1 / 2) 1 2 3 0 (Continue state_1) 1).
  - intros w. reflexivity.
  - exact (greedy_body_pass_1 (1 / 2)).
Defined.

Lemma greedy_approximation_terminates_witness :
  exists out,
    greedy_approximation roots_jacobi_table (randn_script decomposer_script)
                         matrix_rank_by_det linalg_inv_adjugate 6 1 2 1
                         x1_squared accu_one_sample 0.8 (1 / 10) 1 2
    = Some out.
Proof.
  apply (greedy_approximation_terminates roots_jacobi_table
           (randn_script decomposer_script) matrix_rank_by_det
           linalg_inv_adjugate 6 1 2 1 x1_squared accu_one_sample 0.8 (1 / 10)
           1 2).
  vm_compute. lia.
Defined.

(** ** Two consequences for the norm and the finder *)

Lemma np_sum_np_mul_const (c : R) (WX : list R) :
  forall es : list R,
    length WX = length es -> (forall e, In e es -> e = c) ->
    np_sum (np_mul WX es) = c * np_sum WX.
Proof.
  induction WX as [|w WX IH]; intros [|e es] Hlen He; try discriminate Hlen.
  - unfold np_mul, np_sum. simpl. ring.
  - unfold np_mul, np_sum in *. cbn [combine map fold_right fst snd].
    rewrite IH by (simpl in Hlen; try lia; intros x Hx; apply He; right; exact Hx).
    rewrite (He e (or_introl eq_refl)). ring.
Qed.

(** X24: the norm is normalised: on a rule whose weights sum to the area
    of the sphere, the constant polynomial [c] (degree 0) has the norm
    [|c|], for every even exponent [r >= 2]. *)
Theorem poly_Lr_norm_constant (c : R) (v : vec) (X : list vec) (WX : list R)
    (r : nat) :
  Forall (fun x => length x = length v) X ->
  length WX = length X ->
  (exists a, sphere_surface_area (Z.of_nat (length v) - 1) = Ok a /\
             a = np_sum WX /\ a <> 0) ->
  Nat.Even r -> r <> 0%nat ->
  poly_Lr_norm (new_polynomial c v 0) X WX r = Ok (Fin (Rabs c)).
Proof.
  intros HX Hlen [a [Ha [Hsum Ha0]]] Hr Hr0.
  rewrite (poly_Lr_norm_unfold _ X WX r a) by assumption.
  f_equal.
  rewrite (np_sum_np_mul_const (c ^ r)).
  2:{ rewrite !length_map. exact Hlen. }
  2:{ intros e He. apply in_map_iff in He. destruct He as [y [<- Hy]].
      apply in_map_iff in Hy. destruct Hy as [w [<- _]].
      cbn [new_polynomial f lambdify subs]. f_equal. simpl. ring. }
  rewrite <- Hsum.
  replace (1 / a * (c ^ r * a)) with (c ^ r) by (field; assumption).
  assert (HINR : 0 < INR r) by (apply lt_0_INR; lia).
  unfold float_power. destruct (Req_dec c 0) as [-> | Hc].
  - rewrite pow_i by lia. rewrite Rltb_false by lra.
    rewrite Reqb_true by reflexivity.
    rewrite Rltb_true by (apply Rdiv_lt_0_compat; lra).
    rewrite Rabs_R0. reflexivity.
  - assert (Hpos : 0 < c ^ r).
    { rewrite <- (pow_even_Rabs c r Hr). apply pow_lt.
      apply Rabs_pos_lt. assumption. }
    rewrite Rltb_true by assumption.
    rewrite Rpower_pow_root by assumption. reflexivity.
Qed.

(** The constant -3 on the rule of the circle, [r = 2]. *)
Lemma poly_Lr_norm_constant_witness :
  poly_Lr_norm (new_polynomial (-3) [1; 0] 0) circle_nodes circle_weights 2
  = Ok (Fin (Rabs (-3))).
Proof.
  apply (poly_Lr_norm_constant (-3) [1; 0] circle_nodes circle_weights 2).
  - repeat constructor.
  - reflexivity.
  - exists (2 * PI). split; [exact sphere_surface_area_1|].
    pose proof PI_RGT_0. split; [|lra].
    unfold circle_weights, np_sum. simpl. field.
  - exists 1%nat. reflexivity.
  - discriminate.
Defined.

Section FinderNan.

Variable randn : nat -> nat -> nat -> list vec.
Variables (n : Z) (r : nat) (poly projection_poly : custom_polynomial).
Variables (accu : R) (max_size : Z) (inner : R) (W X : list vec) (WX : list R).

Lemma vec_finder_attempt_nan (k : nat) (q : quadruple) :
  poly_Lr_norm (sustract_polynomials poly projection_poly) X WX r = Ok NaN ->
  vec_finder_attempt randn n r poly projection_poly max_size inner W X WX k
  <> Ok (Accept q).
Proof.
  intros Hnan. unfold vec_finder_attempt. rewrite Hnan.
  destruct (sample_spherical randn k n max_size) as [V | e]; cbn [bind];
    [|discriminate].
  destruct (parallelized_evaluation _ _) as [fV | e]; cbn [bind];
    [|discriminate].
  destruct (np_argmax _) as [j | e]; cbn [bind]; [|discriminate].
  destruct (py_index _ j) as [v | e]; cbn [bind]; [|discriminate].
  destruct (py_index fV j) as [fv | e]; cbn [bind]; [|discriminate].
  destruct (np_max _) as [m | e]; cbn [bind]; [|discriminate].
  cbn [fl_scale fl_leb]. discriminate.
Qed.

(** X25: when the norm of [poly - projection_poly] is [nan], as it is
    for an odd exponent [r >= 3] and a residual with a negative mean
    power, the test [0.5*lrnorm <= abs_fv] fails on every batch, and
    [vec_finder] ends in an exception whatever is drawn: it returns no
    quadruple and no [None]. *)
Theorem vec_finder_nan_norm (tries k : nat) :
  poly_Lr_norm (sustract_polynomials poly projection_poly) X WX r = Ok NaN ->
  exists e,
    fst (vec_finder randn n r poly projection_poly accu max_size inner
                    W X WX tries k) = Raise e.
Proof.
  intros Hnan.
  remember (max_tries - tries)%nat as d eqn:Hd.
  revert tries k Hd. induction d as [|d IH]; intros tries k Hd.
  - destruct (vec_finder_attempt randn n r poly projection_poly max_size inner
                                 W X WX k) as [[q |] | e] eqn:Hat.
    + exfalso. exact (vec_finder_attempt_nan k q Hnan Hat).
    + rewrite vec_finder_exhausted by (assumption || lia).
      eexists. reflexivity.
    + rewrite (vec_finder_raise _ _ _ _ _ _ _ _ _ _ _ _ _ _ Hat).
      eexists. reflexivity.
  - destruct (vec_finder_attempt randn n r poly projection_poly max_size inner
                                 W X WX k) as [[q |] | e] eqn:Hat.
    + exfalso. exact (vec_finder_attempt_nan k q Hnan Hat).
    + rewrite vec_finder_retry by (assumption || lia).
      destruct (IH (S tries) (S k) ltac:(lia)) as [e He].
      destruct (vec_finder randn n r poly projection_poly accu max_size inner
                           W X WX (S tries) (S k)) as [[o | e'] k1];
        cbn [fst] in He; [discriminate He|].
      eexists. reflexivity.
    + rewrite (vec_finder_raise _ _ _ _ _ _ _ _ _ _ _ _ _ _ Hat).
      eexists. reflexivity.
Qed.

End FinderNan.

(** The polynomial [-x1^2] in two variables against the zero projection
    on the rule of the circle, with the exponent [r = 3]. *)
Lemma vec_finder_nan_norm_witness :
  exists e,
    fst (vec_finder (randn_script decomposer_script) 2 3 minus_x1_squared
           (sustract_polynomials minus_x1_squared minus_x1_squared)
           0.95 1 0.8 [] circle_nodes circle_weights 1 0) = Raise e.
Proof.
  apply (vec_finder_nan_norm (randn_script decomposer_script) 2 3
           minus_x1_squared
           (sustract_polynomials minus_x1_squared minus_x1_squared)
           0.95 1 0.8 [] circle_nodes circle_weights 1 0).
  rewrite (poly_Lr_norm_ext _ minus_x1_squared).
  - exact Lr_norm_cubic_nan.
  - reflexivity.
  - intros w.
    cbn [sustract_polynomials minus_x1_squared new_polynomial f lambdify expr
         subs].
    ring.
Defined.
